(** * diskvm: the extent builder, the plugin host, the mount pipeline,
      the binary-structure helper and the credential plugins

    A shallow embedding of the parts of the [diskvm] sources that the
    specification's testable properties talk about: one module per source
    file and one for the effects of the runner, followed by the theorems.

    Python integers are unbounded and are modelled by [Z]; paths and text by
    [string]; [bytes] by [list byte]; Python lists by [list]. *)

From Stdlib Require Import ZArith Lia Bool Ascii String.
From Stdlib Require Strings.Byte.
From stdpp Require Import base decidable option list sorting strings pretty gmap.

#[local] Open Scope Z_scope.

(** Paths are compared by their textual form. *)
Definition Path : Type := string.

Definition bytes : Type := list Byte.byte.

#[global] Instance byte_eq_dec : EqDecision Byte.byte := Byte.byte_eq_dec.
#[global] Instance byte_countable : Countable Byte.byte :=
  inj_countable Byte.to_N Byte.of_N Byte.of_to_N.

(** A call either returns a value or raises an exception of the kind [E]. *)
Inductive Result (E A : Type) :=
| Ok (a : A)
| Raise (e : E).
Arguments Ok {E A} a.
Arguments Raise {E A} e.

(* ===================================================================== *)
(** * diskvm/utils.py and the builtins the sources rely on *)
(* ===================================================================== *)

Module Utils.

Section Sorting.
Context {A : Type} (key : A -> Z).

(** [sorted(lst, key=key)] and [list.sort(key=key)] are stable: elements
    with the same key keep their relative order.  [reverse=True] sorts in
    descending key order and keeps that stability as well. *)
Definition key_le (reverse : bool) (x y : A) : bool :=
  if reverse then key y <=? key x else key x <=? key y.

Fixpoint insert_sorted (reverse : bool) (x : A) (l : list A) : list A :=
  match l with
  | [] => [x]
  | y :: l' =>
      if key_le reverse x y then x :: y :: l'
      else y :: insert_sorted reverse x l'
  end.

Definition sorted (reverse : bool) (l : list A) : list A :=
  foldr (insert_sorted reverse) [] l.

(** [itertools.groupby(l, key)]: maximal runs of consecutive elements
    with the same key. *)
Fixpoint itertools_groupby (l : list A) : list (Z * list A) :=
  match l with
  | [] => []
  | x :: l' =>
      match itertools_groupby l' with
      | (k, g) :: gs =>
          if key x =? k then (k, x :: g) :: gs
          else (key x, [x]) :: (k, g) :: gs
      | [] => [(key x, [x])]
      end
  end.

(** [groupby(lst, key, reverse)] of diskvm/utils.py. *)
Definition groupby (reverse : bool) (lst : list A) : list (Z * list A) :=
  itertools_groupby (sorted reverse lst).
End Sorting.

End Utils.

(* ===================================================================== *)
(** * diskvm/vm/base.py: the virtual-disk extent builder *)
(* ===================================================================== *)

Module VmBase.

(** What [Path.is_file] and [Path.is_block_device] can tell about a path. *)
Inductive FileKind := Missing | RegularFile | BlockDevice | OtherKind.

Definition is_file (k : FileKind) : bool :=
  match k with RegularFile => true | _ => false end.
Definition is_block_device (k : FileKind) : bool :=
  match k with BlockDevice => true | _ => false end.

(** An extent.  Parts are values here: every call of [add_part] is given an
    object of its own, and the parts of a builder are not touched from
    outside. *)
Record VirtualDiskPart := mkPart {
  source_file : option Path;
  length : Z;
  source_offset : Z;
  target_offset : Z;
}.

#[global] Instance VirtualDiskPart_eq_dec : EqDecision VirtualDiskPart.
Proof. solve_decision. Defined.

(** The exceptions [add_part] can end with. *)
Inductive Error :=
| InvalidDiskPartError (msg : string)
| AttributeError
| ZeroDivisionError.

(** [a % b] on Python integers: floored, and an exception for [b = 0]. *)
Definition py_mod (a b : Z) : Result Error Z :=
  if b =? 0 then Raise ZeroDivisionError else Ok (a mod b).

(** [list.remove(x)]: drops the first element equal to [x] (the dataclass
    supplies field-wise [__eq__]). *)
Fixpoint list_remove_first (x : VirtualDiskPart) (l : list VirtualDiskPart)
  : list VirtualDiskPart :=
  match l with
  | [] => []
  | y :: l' => if decide (y = x) then l' else y :: list_remove_first x l'
  end.

(** The five branches of the merge loop, in the order of the [if]/[elif]
    chain; [Untouched] is the fall-through when no condition holds. *)
Inductive MergeCase :=
| NoOverlap | Replace | TruncateTail | AdvanceHead | Split | Untouched.

Definition merge_case (p part : VirtualDiskPart) : MergeCase :=
  if ((target_offset p <? target_offset part)
        && (target_offset p + length p <=? target_offset part))
     || (target_offset p >=? target_offset part + length part)
  then NoOverlap
  else if (target_offset p >=? target_offset part)
          && (target_offset p + length p <=? target_offset part + length part)
  then Replace
  else if (target_offset p <? target_offset part)
          && (target_offset part <? target_offset p + length p)
          && (target_offset p + length p <=? target_offset part + length part)
  then TruncateTail
  else if (target_offset part <? target_offset p)
          && (target_offset p <? target_offset part + length part)
          && (target_offset part + length part <? target_offset p + length p)
  then AdvanceHead
  else if (target_offset p <? target_offset part)
          && (target_offset p + length p >? target_offset part + length part)
  then Split
  else Untouched.

(** One iteration of [for p in list(self.disk_parts)].  The loop runs over
    a copy, so [self.disk_parts] is, at every moment,
    [kept ++ rest ++ added]: the parts already visited (as they are now),
    the parts still to visit, and the tails appended by the split branch.
    A part is updated in place, so it keeps its position; [remove(p)]
    searches the list from the front and therefore finds its match in
    [kept ++ [p]]. *)
Definition merge_step (part : VirtualDiskPart)
    (acc : list VirtualDiskPart * list VirtualDiskPart) (p : VirtualDiskPart)
  : list VirtualDiskPart * list VirtualDiskPart :=
  let '(kept, added) := acc in
  match merge_case p part with
  | NoOverlap => (kept ++ [p], added)
  | Replace => (list_remove_first p (kept ++ [p]), added)
  | TruncateTail =>
      let overlap_len := (target_offset p + length p) - target_offset part in
      (kept ++ [mkPart (source_file p) (length p - overlap_len)
                       (source_offset p) (target_offset p)], added)
  | AdvanceHead =>
      let overlap_len :=
        (target_offset p + length p) - (target_offset part + length part) in
      (kept ++ [mkPart (source_file p) (length p - overlap_len)
                       (source_offset p + overlap_len)
                       (target_offset p + overlap_len)], added)
  | Split =>
      let p_length := target_offset part - target_offset p in
      let p2_length :=
        (target_offset p + length p) - (target_offset part + length part) in
      (kept ++ [mkPart (source_file p) p_length
                       (source_offset p) (target_offset p)],
       added ++ [mkPart (source_file p) p2_length
                        (source_offset p + (p_length + length part))
                        (target_offset part + length part)])
  | Untouched => (kept ++ [p], added)
  end.

Definition merge (part : VirtualDiskPart) (disk_parts : list VirtualDiskPart)
  : list VirtualDiskPart :=
  let '(kept, added) := foldl (merge_step part) ([], []) disk_parts in
  kept ++ added.

Section Builder.
(** The file system as [add_part] sees it. *)
Variable fs : Path -> FileKind.
Variable sector_size : Z.

(** [VirtualDiskBuilder.add_part]: the new value of [self.disk_parts],
    or the exception raised.  [part.source_file.is_file()] on [None] is
    an attribute lookup on [None]. *)
Definition add_part (disk_parts : list VirtualDiskPart)
    (part : VirtualDiskPart) : Result Error (list VirtualDiskPart) :=
  match source_file part with
  | None => Raise AttributeError
  | Some f =>
      if negb (is_file (fs f)) && negb (is_block_device (fs f))
      then Raise (InvalidDiskPartError "Invalid file")
      else
        match py_mod (target_offset part) sector_size with
        | Raise e => Raise e
        | Ok r1 =>
            if negb (r1 =? 0)
            then Raise (InvalidDiskPartError "Not aligned to sectors")
            else
              match py_mod (target_offset part + length part) sector_size with
              | Raise e => Raise e
              | Ok r2 =>
                  if negb (r2 =? 0)
                  then Raise (InvalidDiskPartError "Not aligned to sectors")
                  else
                    Ok (Utils.sorted target_offset false
                          (merge part disk_parts ++ [part]))
              end
        end
  end.

(** A sequence of [add_part] calls on one builder; the first exception
    ends it. *)
Fixpoint add_parts (disk_parts : list VirtualDiskPart)
    (parts : list VirtualDiskPart) : Result Error (list VirtualDiskPart) :=
  match parts with
  | [] => Ok disk_parts
  | part :: parts' =>
      match add_part disk_parts part with
      | Ok disk_parts' => add_parts disk_parts' parts'
      | Raise e => Raise e
      end
  end.
End Builder.

(** ** What an extent list denotes *)

Inductive ByteSource :=
| ZeroFill
| FromFile (f : Path) (offset : Z).

Definition covers (off : Z) (p : VirtualDiskPart) : bool :=
  (target_offset p <=? off) && (off <? target_offset p + length p).

(** The source of the byte at target offset [off]: the extent that covers
    it, read at the matching source offset; zero fill where the extent has
    no source file or where no extent covers the offset (the descriptor
    writer pads such gaps with [ZERO] runs). *)
Definition byte_at (disk_parts : list VirtualDiskPart) (off : Z) : ByteSource :=
  match List.find (covers off) disk_parts with
  | Some p =>
      match source_file p with
      | Some f => FromFile f (source_offset p + (off - target_offset p))
      | None => ZeroFill
      end
  | None => ZeroFill
  end.

(** ** The invariants of the data model *)

Definition aligned (sector_size : Z) (p : VirtualDiskPart) : Prop :=
  (sector_size | target_offset p) /\ (sector_size | target_offset p + length p).

Definition overlap (p q : VirtualDiskPart) : Prop :=
  exists off, covers off p = true /\ covers off q = true.

Definition sorted_by_target (l : list VirtualDiskPart) : Prop :=
  StronglySorted (fun p q => target_offset p <= target_offset q) l.

Inductive non_overlapping : list VirtualDiskPart -> Prop :=
| non_overlapping_nil : non_overlapping []
| non_overlapping_cons p l :
    Forall (fun q => ~ overlap p q) l ->
    non_overlapping l -> non_overlapping (p :: l).

Definition builder_invariant (sector_size : Z) (l : list VirtualDiskPart) : Prop :=
  sorted_by_target l /\ non_overlapping l /\ Forall (aligned sector_size) l.

(** A part [add_part] accepts: an existing file or block device as its
    source, both ends on a sector boundary; positive length in addition. *)
Definition valid_part (fs : Path -> FileKind) (sector_size : Z)
    (p : VirtualDiskPart) : Prop :=
  (exists f, source_file p = Some f
             /\ is_file (fs f) || is_block_device (fs f) = true)
  /\ target_offset p mod sector_size = 0
  /\ (target_offset p + length p) mod sector_size = 0
  /\ 0 < length p.

(** Order independence as the specification words it: inserting a
    sequence forwards and backwards gives the same byte map. *)
Definition reverse_order_same_map (fs : Path -> FileKind) (sector_size : Z)
    (parts : list VirtualDiskPart) : Prop :=
  forall r1 r2,
    add_parts fs sector_size [] parts = Ok r1 ->
    add_parts fs sector_size [] (rev parts) = Ok r2 ->
    forall off, byte_at r1 off = byte_at r2 off.

(** A file system in which every path names a regular file. *)
Definition all_regular_files : Path -> FileKind := fun _ => RegularFile.

End VmBase.

(* ===================================================================== *)
(** * diskvm/data.py: disks and volumes *)
(* ===================================================================== *)

Module Data.

Inductive PartitionScheme := MBR | GPT | UNKNOWN.

(** What the partition-table parser reports. *)
Record GptPartition := mkGptPartition {
  first_lba : Z; last_lba : Z; guid : string;
}.
Record MbrPartition := mkMbrPartition {
  lba : Z; sectors : Z; type : Z;
}.
Record GptInfo := mkGptInfo {
  gpt_lba_size : Z; gpt_partitions : list GptPartition;
}.
Record MbrInfo := mkMbrInfo {
  mbr_lba_size : Z; mbr_partitions : list MbrPartition;
}.
Record PartitionsInfo := mkPartitionsInfo {
  gpt : option GptInfo; mbr : option MbrInfo;
}.

Inductive VolumeType :=
| GptGuid (g : string)
| MbrType (t : Z).

#[local] Set Warnings "-register-all".

(** [VolumeInfo].  The [parent] link is part of the value, so that the
    chain of parents of a volume is finite (a forest) and [volume_depth]
    below is the recursion of the source.  The back-reference [disk_info]
    is the disk the volume is listed in.  The [additional_info] maps, which
    only plugins read and write, belong to the state of the plugins. *)
Inductive VolumeInfo := mkVolumeInfo {
  flat_mount : option Path;
  filesystem_mount : option Path;
  parent : option VolumeInfo;
  offset : Z;
  size : Z;
  volume_type : option VolumeType;
}.

Record DiskInfo := mkDiskInfo {
  readonly : bool;
  flat_mounted_disk : Path;
  disk_info : PartitionsInfo;
  volumes : list VolumeInfo;
}.

Definition partition_scheme (self : DiskInfo) : PartitionScheme :=
  match gpt (disk_info self), mbr (disk_info self) with
  | Some _, _ => GPT
  | None, Some _ => MBR
  | None, None => UNKNOWN
  end.

Definition sector_size (self : DiskInfo) : Z :=
  match gpt (disk_info self), mbr (disk_info self) with
  | Some g, _ => gpt_lba_size g
  | None, Some m => mbr_lba_size m
  | None, None => 512
  end.

(** Field updates of the mutable objects. *)
Definition set_filesystem_mount (m : option Path) (v : VolumeInfo) : VolumeInfo :=
  mkVolumeInfo (flat_mount v) m (parent v) (offset v) (size v) (volume_type v).
Definition set_flat_mount (m : option Path) (v : VolumeInfo) : VolumeInfo :=
  mkVolumeInfo m (filesystem_mount v) (parent v) (offset v) (size v) (volume_type v).
Definition set_parent (p : option VolumeInfo) (v : VolumeInfo) : VolumeInfo :=
  mkVolumeInfo (flat_mount v) (filesystem_mount v) p (offset v) (size v) (volume_type v).
Definition set_size (n : Z) (v : VolumeInfo) : VolumeInfo :=
  mkVolumeInfo (flat_mount v) (filesystem_mount v) (parent v) (offset v) n (volume_type v).
Definition set_volumes (l : list VolumeInfo) (d : DiskInfo) : DiskInfo :=
  mkDiskInfo (readonly d) (flat_mounted_disk d) (disk_info d) l.
Definition set_disk_info (i : PartitionsInfo) (d : DiskInfo) : DiskInfo :=
  mkDiskInfo (readonly d) (flat_mounted_disk d) i (volumes d).

End Data.

(* ===================================================================== *)
(** * Effects: state, exceptions and the record of hook calls *)
(* ===================================================================== *)

Module Exec.
Import Data.

(** The hooks of [PluginSpec]. *)
Inductive Hook :=
| mounted_disk | mounted_volume | mount | unmount_filesystem | unmount_volume
| mounted_filesystem | before_create_disk | before_create_vm
| modify_disk | modify_volume | modify_filesystem.

#[global] Instance Hook_eq_dec : EqDecision Hook.
Proof. solve_decision. Defined.

(** The keyword arguments of a hook call ([ctx] is always passed along):
    the disk, or a volume together with the disk it refers back to. *)
Inductive Kwargs :=
| KwDisk (disk_info : DiskInfo)
| KwVolume (disk_info : DiskInfo) (volume_info : VolumeInfo).

(** What a hook returns. *)
Inductive RetVal :=
| RNone
| RBool (b : bool)
| RPath (p : Path)
| RVolume (v : VolumeInfo)
| RVolumes (l : list VolumeInfo).

(** Python's truth value: [None], [False] and the empty list are false;
    a path and a [VolumeInfo] are objects without [__bool__] or [__len__]
    and are true. *)
Definition truthy (r : RetVal) : bool :=
  match r with
  | RNone => false
  | RBool b => b
  | RPath _ => true
  | RVolume _ => true
  | RVolumes l => match l with [] => false | _ => true end
  end.

Definition is_none (r : RetVal) : bool :=
  match r with RNone => true | _ => false end.

Inductive Exn := DiskVmError | OtherException.

(** One hook of one plugin was called. *)
Inductive Event := Call (name : Hook) (plugin : nat) (kwargs : Kwargs).

Definition ev_hook (e : Event) : Hook := let 'Call n _ _ := e in n.
Definition ev_plugin (e : Event) : nat := let 'Call _ i _ := e in i.
Definition ev_kwargs (e : Event) : Kwargs := let 'Call _ _ k := e in k.

(** How a computation ends.  [Unfinished] stands for a loop that is still
    running when the fuel given to it is used up. *)
Inductive Outcome (A : Type) :=
| Returned (a : A)
| Raised (e : Exn)
| Unfinished.
Arguments Returned {A} a.
Arguments Raised {A} e.
Arguments Unfinished {A}.

(** A computation over a state [S]: its outcome, the state it leaves and
    the hook calls it made, in order. *)
Definition M (S A : Type) : Type := S -> Outcome A * S * list Event.

Section Monad.
Context {S : Type}.

Definition ret {A} (a : A) : M S A := fun s => (Returned a, s, []).

Definition bind {A B} (m : M S A) (k : A -> M S B) : M S B :=
  fun s =>
    match m s with
    | (Returned a, s', t) =>
        let '(o, s'', t') := k a s' in (o, s'', t ++ t')
    | (Raised e, s', t) => (Raised e, s', t)
    | (Unfinished, s', t) => (Unfinished, s', t)
    end.

Definition raise {A} (e : Exn) : M S A := fun s => (Raised e, s, []).
Definition unfinished {A} : M S A := fun s => (Unfinished, s, []).
Definition get : M S S := fun s => (Returned s, s, []).
Definition emit (e : Event) : M S unit := fun s => (Returned tt, s, [e]).

(** [try: m  except DiskVmError: handler] *)
Definition try_except {A} (m : M S A) (handler : M S A) : M S A :=
  fun s =>
    match m s with
    | (Raised DiskVmError, s', t) =>
        let '(o, s'', t') := handler s' in (o, s'', t ++ t')
    | r => r
    end.

(** [try: m  finally: fin].  The [finally] block runs after a return and
    after an exception; an exception of its own replaces the outcome. *)
Definition try_finally {A} (m : M S A) (fin : M S unit) : M S A :=
  fun s =>
    match m s with
    | (Unfinished, s', t) => (Unfinished, s', t)
    | (o, s', t) =>
        match fin s' with
        | (Returned _, s'', t') => (o, s'', t ++ t')
        | (Raised e, s'', t') => (Raised e, s'', t ++ t')
        | (Unfinished, s'', t') => (Unfinished, s'', t ++ t')
        end
    end.
End Monad.

#[global] Instance M_ret {S} : MRet (M S) := @ret S.
#[global] Instance M_bind {S} : MBind (M S) := fun A B k m => bind m k.

(** [for x in l: body x] *)
Fixpoint for_each {S X} (l : list X) (body : X -> M S unit) : M S unit :=
  match l with
  | [] => ret tt
  | x :: l' => body x;; for_each l' body
  end.

(** The state of the host system and of the plugins is of some type [W];
    while a disk is analysed, the state is that and the [DiskInfo] object
    with its volumes. *)
Record State (W : Type) := mkState { world : W; disk : DiskInfo }.
Arguments mkState {W} world disk.
Arguments world {W} s.
Arguments disk {W} s.

Section Lifting.
Context {W : Type}.

(** An operation of the host system, which may raise. *)
Definition host_op {A} (f : W -> Result Exn A * W) : M W A :=
  fun w =>
    match f w with
    | (Ok a, w') => (Returned a, w', [])
    | (Raise e, w') => (Raised e, w', [])
    end.

(** A computation on the world, run while a disk is analysed. *)
Definition on_world {A} (m : M W A) : M (State W) A :=
  fun s =>
    let '(o, w', t) := m (world s) in (o, mkState w' (disk s), t).

(** The life time of a [DiskInfo] object. *)
Definition with_disk_info {A} (d : DiskInfo) (m : M (State W) A) : M W A :=
  fun w => let '(o, s', t) := m (mkState w d) in (o, world s', t).

Definition get_disk : M (State W) DiskInfo :=
  fun s => (Returned (disk s), s, []).
Definition modify_disk_info (f : DiskInfo -> DiskInfo) : M (State W) unit :=
  fun s => (Returned tt, mkState (world s) (f (disk s)), []).
End Lifting.

(** ** Properties of computations *)

(** From a state with [P], the computation [m] makes only hook calls with
    [E] and stops, however it stops, in a state with the invariant [I]; when
    it returns [a], the state has [Q a] too. *)
Definition hoare {S A} (I : S -> Prop) (E : Event -> Prop)
    (P : S -> Prop) (m : M S A) (Q : A -> S -> Prop) : Prop :=
  forall s, P s ->
    I (m s).1.2
    /\ Forall E (m s).2
    /\ match (m s).1.1 with
       | Returned a => Q a (m s).1.2
       | _ => True
       end.

(** The same for invariants and conditions that speak of the [DiskInfo]
    object only. *)
Definition hoareD {W A} (ID : DiskInfo -> Prop) (E : Event -> Prop)
    (PD : DiskInfo -> Prop) (m : M (State W) A)
    (QD : A -> DiskInfo -> Prop) : Prop :=
  hoare (fun s => ID (disk s)) E (fun s => PD (disk s)) m
    (fun a s => QD a (disk s)).

(** The volume a hook call is about, and the disk it belongs to. *)
Definition kw_disk (k : Kwargs) : DiskInfo :=
  match k with
  | KwDisk d => d
  | KwVolume d _ => d
  end.

Definition kw_volume (k : Kwargs) : option VolumeInfo :=
  match k with
  | KwDisk _ => None
  | KwVolume _ v => Some v
  end.

Definition is_modify (name : Hook) : bool :=
  match name with
  | modify_disk | modify_volume | modify_filesystem => true
  | _ => false
  end.

End Exec.

(* ===================================================================== *)
(** * diskvm/plugins/base.py: the plugin host *)
(* ===================================================================== *)

Module PluginsBase.
Import Data Exec.

Section PluginHost.
Context {W : Type}.

(** A plugin: [getattr(p, name)] gives the callback of every hook.  A
    callback sees its arguments, reads and changes the state of the host
    system and of the plugins, and returns or raises.  It does not assign
    to the fields of the [DiskInfo] and [VolumeInfo] objects that the
    runner manages ([readonly], [volumes], [flat_mount],
    [filesystem_mount], [parent], [size]); no plugin of the repository
    does. *)
Definition PluginSpec : Type :=
  Hook -> Kwargs -> W -> Result Exn RetVal * W.

Record PluginManager := mkPluginManager {
  plugins : list PluginSpec;
  fallback_plugins : list PluginSpec;
}.

Definition all_plugins (self : PluginManager) : list PluginSpec :=
  plugins self ++ fallback_plugins self.

(** The call of the callback on the plugin at position [i]. *)
Definition call (name : Hook) (kwargs : Kwargs) (i : nat) (p : PluginSpec)
  : M W RetVal :=
  emit (Call name i kwargs);; host_op (p name kwargs).

Fixpoint dispatch_all_from (i : nat) (ps : list PluginSpec)
    (name : Hook) (kwargs : Kwargs) : M W unit :=
  match ps with
  | [] => ret tt
  | p :: ps' =>
      call name kwargs i p;;
      dispatch_all_from (S i) ps' name kwargs
  end.

Definition dispatch_all (self : PluginManager) (name : Hook)
    (kwargs : Kwargs) : M W unit :=
  dispatch_all_from 0 (all_plugins self) name kwargs.

Fixpoint dispatch_until_result_from (i : nat) (ps : list PluginSpec)
    (name : Hook) (kwargs : Kwargs) : M W RetVal :=
  match ps with
  | [] => ret RNone
  | p :: ps' =>
      res ← call name kwargs i p;
      if truthy res then ret res
      else dispatch_until_result_from (S i) ps' name kwargs
  end.

Definition dispatch_until_result (self : PluginManager) (name : Hook)
    (kwargs : Kwargs) : M W RetVal :=
  dispatch_until_result_from 0 (all_plugins self) name kwargs.

(** ** What the plugins would answer, one after the other *)

(** The outcome of calling the hook of every plugin in list order, each
    on the state the one before left; the row ends with the first
    exception. *)
Fixpoint answers (ps : list PluginSpec) (name : Hook) (kwargs : Kwargs)
    (w : W) : list (Result Exn RetVal * W) :=
  match ps with
  | [] => []
  | p :: ps' =>
      match p name kwargs w with
      | (Ok r, w') => (Ok r, w') :: answers ps' name kwargs w'
      | (Raise e, w') => [(Raise e, w')]
      end
  end.

(** The calls of the plugins at positions [i], [i+1], ..., [i+n-1]. *)
Definition calls (name : Hook) (kwargs : Kwargs) (i n : nat) : list Event :=
  (fun j => Call name j kwargs) <$> seq i n.

(** First-non-null dispatch as the specification words it: if the answer
    at position [n] is the first that is not null, it is returned and the
    plugins up to [n], and no others, have been called; null is returned
    only if every answer is null. *)
Definition returns_first_non_null (self : PluginManager) (name : Hook)
    (kwargs : Kwargs) (w : W) : Prop :=
  let rs := answers (all_plugins self) name kwargs w in
  let '(o, _, t) := dispatch_until_result self name kwargs w in
  (forall n r w',
     rs !! n = Some (Ok r, w') ->
     is_none r = false ->
     (forall m r' w'', (m < n)%nat -> rs !! m = Some (Ok r', w'') -> is_none r' = true) ->
     o = Returned r /\ t = calls name kwargs 0 (S n))
  /\ (o = Returned RNone ->
      forall n r w', rs !! n = Some (Ok r, w') -> is_none r = true).
End PluginHost.

Arguments PluginSpec W : clear implicits.
Arguments PluginManager W : clear implicits.

(** Two plugins without state, for examples: one whose [mount] finds a
    container without volumes in it and returns the empty list, as
    [LvmMountPlugin.mount] does for a volume group without logical volumes,
    and one whose [mount] returns a mount point. *)
Definition empty_container_plugin : PluginSpec unit :=
  fun name _ w =>
    match name with
    | mount => (Ok (RVolumes []), w)
    | _ => (Ok RNone, w)
    end.

Definition filesystem_plugin : PluginSpec unit :=
  fun name _ w =>
    match name with
    | mount => (Ok (RPath "/tmp/mnt"), w)
    | _ => (Ok RNone, w)
    end.

Definition example_volume : VolumeInfo :=
  mkVolumeInfo (Some "/dev/loop0") None None 1048576 1048576 (Some (MbrType 131)).

Definition example_disk : DiskInfo :=
  mkDiskInfo true "/tmp/disk" (mkPartitionsInfo None None) [example_volume].

End PluginsBase.

(* ===================================================================== *)
(** * diskvm/runner.py: the mount pipeline *)
(* ===================================================================== *)

Module Runner.
Import Data Exec PluginsBase.

(** A written virtual disk, as [VirtualMachine.disks] lists it. *)
Record VirtualDisk := mkVirtualDisk { path : Path }.

(** The operations of the host system the runner uses.  Each may raise. *)
Record Host (W : Type) := mkHost {
  (** [Path.exists]: the answer, or the [OSError] of the [stat] call that
      it passes on (every error but a missing file, a missing directory, a
      bad descriptor and a loop of links) *)
  path_exists : Path -> W -> Result Exn bool * W;
  (** [losetup --find --show [--read-only] --offset --sizelimit] *)
  losetup : bool -> Z -> Z -> Path -> W -> Result Exn Path * W;
  (** [size_blockdevice] of diskvm/utils.py *)
  size_blockdevice : option Path -> W -> Result Exn Z * W;
  (** [get_disk_partitions_info] on the opened flat disk *)
  get_disk_partitions_info : Path -> W -> Result Exn PartitionsInfo * W;
  (** [VirtualDisk.mount] and [VirtualDisk.unmount] *)
  virtual_disk_mount : VirtualDisk -> bool -> W -> Result Exn Path * W;
  virtual_disk_unmount : VirtualDisk -> W -> Result Exn unit * W;
  (** [flat_mounted_disk.parent.rmdir()] *)
  rmdir_parent : Path -> W -> Result Exn unit * W;
  (** [tempfile.mkstemp] and closing the descriptor *)
  mkstemp : W -> Result Exn Path * W;
  (** [mount --read-only --bind], [umount], [Path.unlink] *)
  mount_bind_readonly : Path -> Path -> W -> Result Exn unit * W;
  umount : Path -> W -> Result Exn unit * W;
  unlink : Path -> W -> Result Exn unit * W;
}.
Arguments path_exists {W} h.
Arguments losetup {W} h.
Arguments size_blockdevice {W} h.
Arguments get_disk_partitions_info {W} h.
Arguments virtual_disk_mount {W} h.
Arguments virtual_disk_unmount {W} h.
Arguments rmdir_parent {W} h.
Arguments mkstemp {W} h.
Arguments mount_bind_readonly {W} h.
Arguments umount {W} h.
Arguments unlink {W} h.

(** [volume_depth] of [unmount_partitions_and_filesystems]. *)
Fixpoint volume_depth (v : VolumeInfo) : Z :=
  match parent v with
  | None => 0
  | Some p => 1 + volume_depth p
  end.

Section DiskVmCreator.
Context {W : Type}.
Variable host : Host W.
(** [self.plugins] *)
Variable plugins : PluginManager W.

(** The volume objects the runner holds are entries of
    [disk_info.volumes]; an object is named by its position there. *)
Definition volume_at (idx : nat) : M (State W) VolumeInfo :=
  d ← get_disk;
  match volumes d !! idx with
  | Some v => ret v
  | None => raise OtherException
  end.

Definition update_volume (idx : nat) (f : VolumeInfo -> VolumeInfo)
  : M (State W) unit :=
  modify_disk_info (fun d => set_volumes (alter f idx (volumes d)) d).

(** [disk_info.volumes.append(v)]; the position of the new entry. *)
Definition append_volume (v : VolumeInfo) : M (State W) nat :=
  d ← get_disk;
  modify_disk_info (set_volumes (volumes d ++ [v]));;
  ret (List.length (volumes d)).

(** Dispatch with [disk_info=disk_info], resp. with
    [volume_info=] the volume at [idx], as they are now. *)
Definition dispatch_all_disk (name : Hook) : M (State W) unit :=
  d ← get_disk;
  on_world (dispatch_all plugins name (KwDisk d)).

Definition dispatch_all_volume (name : Hook) (idx : nat) : M (State W) unit :=
  d ← get_disk;
  v ← volume_at idx;
  on_world (dispatch_all plugins name (KwVolume d v)).

Definition dispatch_until_result_volume (name : Hook) (idx : nat)
  : M (State W) RetVal :=
  d ← get_disk;
  v ← volume_at idx;
  on_world (dispatch_until_result plugins name (KwVolume d v)).

Definition refresh_disk_info : M (State W) unit :=
  d ← get_disk;
  i ← on_world (host_op (get_disk_partitions_info host (flat_mounted_disk d)));
  modify_disk_info (set_disk_info i).

(** ** Teardown *)

Definition unmount_filesystems_of (group : list (nat * VolumeInfo))
  : M (State W) unit :=
  for_each group (fun iv =>
    v ← volume_at iv.1;
    match filesystem_mount v with
    | Some m =>
        found ← on_world (host_op (path_exists host m));
        if found : bool then
          try_except
            (res ← dispatch_until_result_volume unmount_filesystem iv.1;
             if truthy res
             then update_volume iv.1 (set_filesystem_mount None)
             else ret tt)
            (ret tt)
        else ret tt
    | None => ret tt
    end).

Definition unmount_volumes_of (group : list (nat * VolumeInfo))
  : M (State W) unit :=
  for_each group (fun iv =>
    v ← volume_at iv.1;
    match flat_mount v with
    | Some m =>
        found ← on_world (host_op (path_exists host m));
        if found : bool then
          try_except
            (res ← dispatch_until_result_volume unmount_volume iv.1;
             if truthy res
             then update_volume iv.1 (set_flat_mount None)
             else ret tt)
            (ret tt)
        else ret tt
    | None => ret tt
    end).

(** The groups are computed once, before the first hook is called, from
    the volume objects listed at that moment. *)
Definition unmount_partitions_and_filesystems : M (State W) unit :=
  d ← get_disk;
  for_each
    (Utils.groupby (fun iv : nat * VolumeInfo => volume_depth iv.2) true
       (imap pair (volumes d)))
    (fun g =>
       unmount_filesystems_of g.2;;
       unmount_volumes_of g.2).

(** ** Partitions *)

Definition _add_partition_info (offset size : Z) (volume_type : VolumeType)
  : M (State W) unit :=
  d ← get_disk;
  loop_dev ← on_world (host_op
               (losetup host (readonly d) offset size (flat_mounted_disk d)));
  idx ← append_volume
          (mkVolumeInfo (Some loop_dev) None None offset size (Some volume_type));
  dispatch_all_volume mounted_volume idx;;
  d ← get_disk;
  if negb (readonly d) then dispatch_all_volume modify_volume idx
  else ret tt.

Definition _mount_partitions : M (State W) unit :=
  d ← get_disk;
  match partition_scheme d with
  | GPT =>
      for_each (from_option gpt_partitions [] (gpt (disk_info d))) (fun p =>
        d ← get_disk;
        _add_partition_info
          (first_lba p * sector_size d)
          ((last_lba p - first_lba p + 1) * sector_size d)
          (GptGuid (guid p)))
  | MBR =>
      for_each (from_option mbr_partitions [] (mbr (disk_info d))) (fun p =>
        d ← get_disk;
        _add_partition_info
          (lba p * sector_size d)
          (sectors p * sector_size d)
          (MbrType (type p)))
  | UNKNOWN => ret tt
  end.

(** ** Filesystems and nested volumes *)

(** The body of [for new_p in res] for the volume at [idx]. *)
Definition add_new_volume (idx : nat) (new_p : VolumeInfo) : M (State W) unit :=
  p ← volume_at idx;
  let new_p :=
    match parent new_p with
    | None => set_parent (Some p) new_p
    | Some _ => new_p
    end in
  new_p ← (if size new_p =? 0
           then n ← on_world (host_op (size_blockdevice host (flat_mount new_p)));
                ret (set_size n new_p)
           else ret new_p);
  new_idx ← append_volume new_p;
  dispatch_all_volume mounted_volume new_idx;;
  d ← get_disk;
  if negb (readonly d) then dispatch_all_volume modify_volume new_idx
  else ret tt.

(** One pass of the body of [while idx < len(disk_info.volumes)]. *)
Definition mount_volume (idx : nat) : M (State W) unit :=
  p ← volume_at idx;
  match flat_mount p with
  | Some _ =>
      res ← dispatch_until_result_volume mount idx;
      let res := match res with RVolume v => RVolumes [v] | _ => res end in
      match res with
      | RPath m =>
          update_volume idx (set_filesystem_mount (Some m));;
          dispatch_all_volume mounted_filesystem idx;;
          d ← get_disk;
          if negb (readonly d) then dispatch_all_volume modify_filesystem idx
          else ret tt
      | RVolumes l => for_each l (add_new_volume idx)
      | _ => ret tt
      end
  | None => ret tt
  end.

(** The loop walks a list that grows while it is walked; [fuel] bounds
    the number of passes. *)
Fixpoint _mount_filesystems_from (fuel : nat) (idx : nat) : M (State W) unit :=
  match fuel with
  | O => unfinished
  | S fuel' =>
      d ← get_disk;
      if (idx <? List.length (volumes d))%nat then
        mount_volume idx;;
        _mount_filesystems_from fuel' (S idx)
      else ret tt
  end.

Definition _mount_filesystems (fuel : nat) : M (State W) unit :=
  _mount_filesystems_from fuel 0.

(** ** The context managers *)

(** [with self.mount_partitions_and_filesystems(disk_info, ctx): body] *)
Definition mount_partitions_and_filesystems {A} (fuel : nat)
    (body : M (State W) A) : M (State W) A :=
  try_finally
    (_mount_partitions;;
     _mount_filesystems fuel;;
     body)
    unmount_partitions_and_filesystems.

(** [with self.mount_disk(disk, readonly, ctx) as disk_info: body].  When
    the [DiskInfo] cannot be built, the [finally] block finds
    [disk_info] unset and does nothing. *)
Definition mount_disk {A} (vdisk : VirtualDisk) (readonly : bool)
    (body : M (State W) A) : M W A :=
  flat ← host_op (virtual_disk_mount host vdisk readonly);
  info ← host_op (get_disk_partitions_info host flat);
  with_disk_info (mkDiskInfo readonly flat info [])
    (try_finally
       (dispatch_all_disk mounted_disk;;
        d ← get_disk;
        (if negb (Data.readonly d)
         then dispatch_all_disk modify_disk;; refresh_disk_info
         else ret tt);;
        body)
       (d ← get_disk;
        found ← on_world (host_op (path_exists host (flat_mounted_disk d)));
        if found : bool then
          on_world (host_op (virtual_disk_unmount host vdisk));;
          on_world (host_op (rmdir_parent host (flat_mounted_disk d)))
        else ret tt)).

(** [with self.mount_disk_image(disk_image, ctx) as disk_info: body] *)
Definition mount_disk_image {A} (disk_image : Path)
    (body : M (State W) A) : M W A :=
  mount_point ← host_op (mkstemp host);
  try_finally
    (host_op (mount_bind_readonly host disk_image mount_point);;
     info ← host_op (get_disk_partitions_info host mount_point);
     with_disk_info (mkDiskInfo true mount_point info [])
       (dispatch_all_disk mounted_disk;;
        body))
    (found ← host_op (path_exists host mount_point);
     if found : bool then
       try_except (host_op (umount host mount_point)) (ret tt);;
       host_op (unlink host mount_point)
     else ret tt).
End DiskVmCreator.

(** ** Properties of the record of hook calls *)

(** A [modify_*] hook is called only on behalf of a disk that was opened
    writable ([readonly] is the flag the disk was opened with) and that is
    writable when the call is made. *)
Definition modify_only_writable (readonly : bool) (e : Event) : Prop :=
  is_modify (ev_hook e) = true ->
  readonly = false /\ Data.readonly (kw_disk (ev_kwargs e)) = false.





(** ** An example in the shape of scenario E3 *)

(** A host on which every path exists and every operation succeeds, with one
    MBR partition on every disk. *)
Definition example_host : Host unit := {|
  path_exists := fun _ w => (Ok true, w);
  losetup := fun _ _ _ _ w => (Ok "/dev/loop0", w);
  size_blockdevice := fun _ w => (Ok 1048576, w);
  get_disk_partitions_info := fun _ w =>
    (Ok (mkPartitionsInfo None
           (Some (mkMbrInfo 512 [mkMbrPartition 2048 2048 131]))), w);
  virtual_disk_mount := fun _ _ w => (Ok "/tmp/vmware/flat", w);
  virtual_disk_unmount := fun _ w => (Ok tt, w);
  rmdir_parent := fun _ w => (Ok tt, w);
  mkstemp := fun w => (Ok "/tmp/tmpdisk", w);
  mount_bind_readonly := fun _ _ w => (Ok tt, w);
  umount := fun _ w => (Ok tt, w);
  unlink := fun _ w => (Ok tt, w);
|}.

(** A plugin that mounts every volume as a filesystem and unmounts whatever
    it is asked to. *)
Definition generic_plugin : PluginSpec unit :=
  fun name _ w =>
    match name with
    | mount => (Ok (RPath "/tmp/mnt"), w)
    | unmount_filesystem | unmount_volume => (Ok (RBool true), w)
    | _ => (Ok RNone, w)
    end.

(** An ESP and a LUKS partition; inside the LUKS mapper device a volume
    group with a swap and a root volume. *)
Definition esp : VolumeInfo :=
  mkVolumeInfo (Some "/dev/loop0") (Some "/tmp/esp") None 1048576 1048576 None.
Definition luks_partition : VolumeInfo :=
  mkVolumeInfo (Some "/dev/loop1") None None 2097152 8388608 None.
Definition luks_mapper : VolumeInfo :=
  mkVolumeInfo (Some "/dev/mapper/luks") None (Some luks_partition) 0 8388608 None.
Definition lv_swap : VolumeInfo :=
  mkVolumeInfo (Some "/dev/vg/swap") None (Some luks_mapper) 0 1048576 None.
Definition lv_root : VolumeInfo :=
  mkVolumeInfo (Some "/dev/vg/root") (Some "/tmp/root") (Some luks_mapper) 0 4194304 None.

Definition e3_state : State unit :=
  mkState tt
    (mkDiskInfo true "/tmp/tmpdisk" (mkPartitionsInfo None None)
       [esp; luks_partition; luks_mapper; lv_swap; lv_root]).

(** The hook and the device of a call. *)
Definition ev_summary (e : Event) : Hook * option Path :=
  (ev_hook e, kw_volume (ev_kwargs e) ≫= flat_mount).

End Runner.

(* ===================================================================== *)
(** * diskvm/structure.py: the binary-structure helper *)
(* ===================================================================== *)

Module StructureHelper.

Inductive Endian := LITTLE | BIG.

(** The annotation of a dataclass field: one of the four integer types of
    [type_format_map], [bytes] with the [size] entry of its metadata (if
    any), or anything else. *)
Inductive FieldType :=
| Uint8 | Uint16 | Uint32 | Uint64
| Bytes (size : option nat)
| OtherType.

Record Field := mkField { name : string; type : FieldType }.

(** A format string of the [struct] module, as it is parsed: the byte
    order and the items [B], [H], [I], [Q] and [<n>s]. *)
Inductive FormatItem := FmtB | FmtH | FmtI | FmtQ | FmtS (n : nat).

Definition Format : Type := Endian * list FormatItem.

Inductive Error :=
| UnsupportedType
| StructError.

(** A value of a field: a Python [int] or [bytes]. *)
Inductive Value :=
| VInt (z : Z)
| VBytes (b : bytes).

(** ** The [struct] module, standard sizes, no alignment *)

Definition item_size (it : FormatItem) : nat :=
  match it with
  | FmtB => 1 | FmtH => 2 | FmtI => 4 | FmtQ => 8
  | FmtS n => n
  end%nat.

Definition calcsize (fmt : Format) : nat :=
  foldr (fun it n => (item_size it + n)%nat) 0%nat fmt.2.

Definition Z_of_byte (b : Byte.byte) : Z := Z.of_N (Byte.to_N b).
Definition byte_of_Z (z : Z) : Byte.byte :=
  match Byte.of_N (Z.to_N z) with
  | Some b => b
  | None => Byte.x00
  end.

Fixpoint decode_le (bs : bytes) : Z :=
  match bs with
  | [] => 0
  | b :: bs' => Z_of_byte b + 256 * decode_le bs'
  end.

Fixpoint encode_le (n : nat) (z : Z) : bytes :=
  match n with
  | O => []
  | S n' => byte_of_Z (z mod 256) :: encode_le n' (z / 256)
  end.

Definition decode_int (e : Endian) (bs : bytes) : Z :=
  match e with
  | LITTLE => decode_le bs
  | BIG => decode_le (rev bs)
  end.

Definition encode_int (e : Endian) (n : nat) (z : Z) : bytes :=
  match e with
  | LITTLE => encode_le n z
  | BIG => rev (encode_le n z)
  end.

Definition unpack_item (e : Endian) (it : FormatItem) (bs : bytes) : Value :=
  match it with
  | FmtS _ => VBytes bs
  | _ => VInt (decode_int e bs)
  end.

(** An integer outside the range of its item is a [struct.error]; a
    byte-string is cut or padded with null bytes to the size of its item. *)
Definition pack_item (e : Endian) (it : FormatItem) (v : Value)
  : Result Error bytes :=
  match it, v with
  | FmtS n, VBytes b =>
      Ok (take n b ++ replicate (n - List.length b) Byte.x00)
  | FmtS _, VInt _ => Raise StructError
  | _, VInt z =>
      if (0 <=? z) && (z <? 2 ^ (8 * Z.of_nat (item_size it)))
      then Ok (encode_int e (item_size it) z)
      else Raise StructError
  | _, VBytes _ => Raise StructError
  end.

Fixpoint unpack_items (e : Endian) (items : list FormatItem) (data : bytes)
  : list Value :=
  match items with
  | [] => []
  | it :: items' =>
      unpack_item e it (take (item_size it) data)
      :: unpack_items e items' (drop (item_size it) data)
  end.

Definition struct_unpack (fmt : Format) (data : bytes)
  : Result Error (list Value) :=
  if Nat.eqb (List.length data) (calcsize fmt)
  then Ok (unpack_items fmt.1 fmt.2 data)
  else Raise StructError.

Fixpoint pack_items (e : Endian) (items : list FormatItem) (values : list Value)
  : Result Error bytes :=
  match items, values with
  | [], [] => Ok []
  | it :: items', v :: values' =>
      match pack_item e it v with
      | Ok b =>
          match pack_items e items' values' with
          | Ok rest => Ok (b ++ rest)
          | Raise err => Raise err
          end
      | Raise err => Raise err
      end
  | _, _ => Raise StructError
  end.

Definition struct_pack (fmt : Format) (values : list Value)
  : Result Error bytes :=
  pack_items fmt.1 fmt.2 values.

(** ** class Structure *)

(** A dataclass deriving from [Structure]: its byte order, its fields in
    declaration order, [dataclasses.astuple] and the keyword constructor
    applied to the field names zipped with a tuple of values. *)
Class Structure (T : Type) := {
  endian : Endian;
  fields : list Field;
  astuple : T -> list Value;
  from_values : list Value -> Result Error T;
}.

Definition field_format (f : Field) : Result Error FormatItem :=
  match type f with
  | Uint8 => Ok FmtB
  | Uint16 => Ok FmtH
  | Uint32 => Ok FmtI
  | Uint64 => Ok FmtQ
  | Bytes (Some (S n)) => Ok (FmtS (S n))
  | Bytes (Some O) | Bytes None | OtherType => Raise UnsupportedType
  end.

Fixpoint fields_format (fs : list Field) : Result Error (list FormatItem) :=
  match fs with
  | [] => Ok []
  | f :: fs' =>
      match field_format f with
      | Ok it =>
          match fields_format fs' with
          | Ok items => Ok (it :: items)
          | Raise err => Raise err
          end
      | Raise err => Raise err
      end
  end.

Definition _get_struct_format (T : Type) `{Structure T} : Result Error Format :=
  match fields_format fields with
  | Ok items => Ok (endian, items)
  | Raise err => Raise err
  end.

Definition pack {T} `{Structure T} (self : T) : Result Error bytes :=
  match _get_struct_format T with
  | Ok fmt => struct_pack fmt (astuple self)
  | Raise err => Raise err
  end.

Definition unpack (T : Type) `{Structure T} (data : bytes) : Result Error T :=
  match _get_struct_format T with
  | Ok fmt =>
      match struct_unpack fmt data with
      | Ok values => from_values values
      | Raise err => Raise err
      end
  | Raise err => Raise err
  end.

End StructureHelper.

(* ===================================================================== *)
(** * diskvm/plugins/veracrypt.py: the header record *)
(* ===================================================================== *)

Module VeraCrypt.
Import StructureHelper.

Record VeraCryptHeader := mkHeader {
  signature : bytes;
  header_format_version : Z;
  min_program_version : Z;
  checksum_master_keys : Z;
  reserved1 : bytes;
  size_hidden_volume : Z;
  size_volume : Z;
  offset : Z;
  size_encrypted : Z;
  flags : Z;
  sector_size : Z;
  reserved2 : bytes;
  checksum_header_fields : Z;
  master_keys : bytes;
}.

Definition VeraCryptHeader_fields : list Field := [
  mkField "signature" (Bytes (Some 4%nat));
  mkField "header_format_version" Uint16;
  mkField "min_program_version" Uint16;
  mkField "checksum_master_keys" Uint32;
  mkField "reserved1" (Bytes (Some 16%nat));
  mkField "size_hidden_volume" Uint64;
  mkField "size_volume" Uint64;
  mkField "offset" Uint64;
  mkField "size_encrypted" Uint64;
  mkField "flags" Uint32;
  mkField "sector_size" Uint32;
  mkField "reserved2" (Bytes (Some 120%nat));
  mkField "checksum_header_fields" Uint32;
  mkField "master_keys" (Bytes (Some 256%nat))
].

#[global] Instance VeraCryptHeader_Structure : Structure VeraCryptHeader := {
  endian := BIG;
  fields := VeraCryptHeader_fields;
  astuple h := [
    VBytes (signature h);
    VInt (header_format_version h);
    VInt (min_program_version h);
    VInt (checksum_master_keys h);
    VBytes (reserved1 h);
    VInt (size_hidden_volume h);
    VInt (size_volume h);
    VInt (offset h);
    VInt (size_encrypted h);
    VInt (flags h);
    VInt (sector_size h);
    VBytes (reserved2 h);
    VInt (checksum_header_fields h);
    VBytes (master_keys h)
  ];
  from_values vs :=
    match vs with
    | [VBytes v1; VInt v2; VInt v3; VInt v4; VBytes v5; VInt v6; VInt v7;
       VInt v8; VInt v9; VInt v10; VInt v11; VBytes v12; VInt v13; VBytes v14] =>
        Ok (mkHeader v1 v2 v3 v4 v5 v6 v7 v8 v9 v10 v11 v12 v13 v14)
    | _ => Raise StructError
    end;
}.
(* [from_values] only ever receives the tuple [struct.unpack] built with
   this record's own format, which has exactly this shape. *)

(** The format string of the header, [>4sHHI16sQQQQII120sI256s]. *)
Definition VeraCryptHeader_format : Format :=
  (BIG, [FmtS 4; FmtH; FmtH; FmtI; FmtS 16; FmtQ; FmtQ; FmtQ; FmtQ;
         FmtI; FmtI; FmtS 120; FmtI; FmtS 256]).

(** The size of a packed header: [struct.calcsize] of its format. *)
Definition packed_size : nat :=
  match _get_struct_format VeraCryptHeader with
  | Ok fmt => calcsize fmt
  | Raise _ => 0
  end.

End VeraCrypt.

(* ===================================================================== *)
(** * diskvm/plugins/password_bypass.py: the /etc/shadow plugin *)
(* ===================================================================== *)

Module PasswordBypass.

(** ** The string methods the plugin uses *)

(** The line boundaries of [str.splitlines] among the characters below 256:
    LF, VT, FF, CR, FS, GS, RS and NEL. *)
Definition is_line_boundary (c : ascii) : bool :=
  match nat_of_ascii c with
  | 10 | 11 | 12 | 13 | 28 | 29 | 30 | 133 => true
  | _ => false
  end%nat.

Definition is_cr (c : ascii) : bool := Ascii.eqb c "013"%char.
Definition is_lf (c : ascii) : bool := Ascii.eqb c "010"%char.

Definition snoc (line : string) (c : ascii) : string :=
  line +:+ String c EmptyString.

(** [s.splitlines()], with the line read so far in [line]; [after_cr] is
    set right after a carriage return, whose line feed belongs to the same
    boundary.  A last line without characters is not listed. *)
Fixpoint splitlines_acc (after_cr : bool) (line : string) (s : string)
  : list string :=
  match s with
  | EmptyString => if decide (line = EmptyString) then [] else [line]
  | String c s' =>
      if after_cr && is_lf c then splitlines_acc false line s'
      else if is_line_boundary c then line :: splitlines_acc (is_cr c) EmptyString s'
      else splitlines_acc false (snoc line c) s'
  end.

Definition splitlines (s : string) : list string :=
  splitlines_acc false EmptyString s.

(** [s.split(sep)] for a separator of one character. *)
Fixpoint split_acc (sep : ascii) (field : string) (s : string) : list string :=
  match s with
  | EmptyString => [field]
  | String c s' =>
      if Ascii.eqb c sep then field :: split_acc sep EmptyString s'
      else split_acc sep (snoc field c) s'
  end.

Definition split (sep : ascii) (s : string) : list string :=
  split_acc sep EmptyString s.

(** [sep.join(l)] *)
Fixpoint join (sep : string) (l : list string) : string :=
  match l with
  | [] => EmptyString
  | [x] => x
  | x :: l' => x +:+ sep +:+ join sep l'
  end.

(** ** class EtcShadowBlankPasswords *)

Inductive CryptMethod := METHOD_SHA256 | METHOD_SHA512.

Definition NEW_PASSWORD : string := "newpwd".

(** The text files of the mounted filesystems, by path. *)
Abbreviation Files := (gmap string string).

Definition shadow_path (filesystem_mount : Path) : Path :=
  filesystem_mount +:+ "/etc/shadow".

Section EtcShadowBlankPasswords.
(** [crypt.crypt] draws a fresh salt on every call: it reads and advances
    the state of the random source. *)
Context {Rng : Type}.
Variable crypt : string -> CryptMethod -> Rng -> string * Rng.
(** [self.hash_method] *)
Variable hash_method : CryptMethod.

Definition hash_password (password : string) (rng : Rng) : string * Rng :=
  crypt password hash_method rng.

(** The condition of the loop over the entries:
    [len(e) >= 2 and e[1] not in ['!', '*']]. *)
Definition is_reset (e : list string) : bool :=
  match e !! 1%nat with
  | Some pw => negb (bool_decide (pw = "!" \/ pw = "*"))
  | None => false
  end.

(** [for e in entries: ...], each entry updated in place. *)
Fixpoint reset_entries (entries : list (list string)) (rng : Rng)
  : list (list string) * Rng :=
  match entries with
  | [] => ([], rng)
  | e :: entries' =>
      if is_reset e then
        let '(h, rng1) := hash_password NEW_PASSWORD rng in
        let '(rest, rng2) := reset_entries entries' rng1 in
        (<[1%nat := h]> e :: rest, rng2)
      else
        let '(rest, rng2) := reset_entries entries' rng in
        (e :: rest, rng2)
  end.

(** [modify_filesystem] on a volume mounted at [filesystem_mount]: the
    files and the random source afterwards.  [content] is the text
    [read_text] returns. *)
Definition modify_filesystem (filesystem_mount : Path) (st : Files * Rng)
  : Files * Rng :=
  let '(files, rng) := st in
  let etc_shadow := shadow_path filesystem_mount in
  match files !! etc_shadow with
  | Some content =>
      let entries := split ":" <$> splitlines content in
      let '(entries', rng') := reset_entries entries rng in
      (<[etc_shadow := join (String "010" EmptyString) (join ":" <$> entries')]> files,
       rng')
  | None => (files, rng)
  end.

(** What the loop does to one entry: the number of fields and every field
    but the second stay; the second field becomes a hash of the new password
    when the entry has one and it is neither [!] nor [*], and stays
    otherwise. *)
Definition entry_reset (e e' : list string) : Prop :=
  List.length e' = List.length e
  /\ (forall j, j <> 1%nat -> e' !! j = e !! j)
  /\ match e !! 1%nat with
     | Some pw =>
         if decide (pw = "!" \/ pw = "*") then e' = e
         else exists rng,
             e' !! 1%nat = Some (hash_password NEW_PASSWORD rng).1
     | None => e' = e
     end.

(** The reset as the specification words it: the password field of a line
    is replaced by a hash exactly when it is not empty and neither [!] nor
    [*]; every other line stays as it is. *)
Definition spec_line (line line' : string) : Prop :=
  let e := split ":" line in
  match e !! 1%nat with
  | Some pw =>
      if bool_decide (pw <> EmptyString /\ pw <> "!" /\ pw <> "*")
      then exists rng, line' = join ":" (<[1%nat := (hash_password NEW_PASSWORD rng).1]> e)
      else line' = line
  | None => line' = line
  end.

Definition resets_nonempty_unlocked (filesystem_mount : Path)
    (files : Files) (rng : Rng) : Prop :=
  forall content,
    files !! shadow_path filesystem_mount = Some content ->
    exists lines',
      Forall2 spec_line (splitlines content) lines'
      /\ (modify_filesystem filesystem_mount (files, rng)).1
           !! shadow_path filesystem_mount
         = Some (join (String "010" EmptyString) lines').
End EtcShadowBlankPasswords.

(** A [crypt] for examples: the salt is a counter. *)
Definition example_crypt (password : string) (method : CryptMethod) (n : nat)
  : string * nat :=
  (match method with
   | METHOD_SHA256 => "$5$" | METHOD_SHA512 => "$6$"
   end +:+ pretty n +:+ "$" +:+ password, S n).

End PasswordBypass.

(* ===================================================================== *)
(** * main.py: the candidate master keys *)
(* ===================================================================== *)

Module Main.

(** [itertools.permutations(pool, 2)]: the pairs of elements at two
    different positions of the pool, in the order of the positions. *)
Definition permutations2 {A} (pool : list A) : list (A * A) :=
  ix ← imap pair pool;
  jy ← imap pair pool;
  if decide (ix.1 = jy.1) then [] else [(ix.2, jy.2)].

(** The keys given on the command line and in the key file.
    [master_key] is the tuple of the repeated [--master-key] option,
    [master_keys_file] the keys [bytes.fromhex] reads from the non-empty
    lines of [--master-keys-file], when the option is given. *)
Definition supplied_keys (master_key : list bytes)
    (master_keys_file : option (list bytes)) : gset bytes :=
  let master_keys : gset bytes := list_to_set master_key in
  match master_keys_file with
  | Some file_keys => master_keys ∪ list_to_set file_keys
  | None => master_keys
  end.

(** The set [master_keys] that [main] hands to the plugins. *)
Definition master_keys (master_key : list bytes)
    (master_keys_file : option (list bytes)) (xts_combine_keys : bool)
  : gset bytes :=
  let master_keys := supplied_keys master_key master_keys_file in
  if xts_combine_keys then
    master_keys ∪
      list_to_set
        ((fun t : bytes * bytes => t.1 ++ t.2)
           <$> filter (fun t : bytes * bytes => List.length t.1 = List.length t.2)
                 (permutations2 (elements master_keys)))
  else master_keys.

(** The XTS combination as the specification words it: every ordered pair
    of supplied keys of equal length, the two not necessarily distinct. *)
Definition combines_every_pair (master_key : list bytes)
    (master_keys_file : option (list bytes)) : Prop :=
  forall k1 k2,
    k1 ∈ supplied_keys master_key master_keys_file ->
    k2 ∈ supplied_keys master_key master_keys_file ->
    List.length k1 = List.length k2 ->
    k1 ++ k2 ∈ master_keys master_key master_keys_file true.

End Main.

(* ===================================================================== *)
(** * diskvm/vm/base.py: what an insertion leaves of the parts before it *)
(* ===================================================================== *)

Module Overlay.
Import VmBase.

(** What the merge loop leaves of the existing part [p] when [part] is
    added: the entries one pass of the loop puts into the list for it. *)
Definition pieces (part p : VirtualDiskPart) : list VirtualDiskPart :=
  (merge_step part ([], []) p).1 ++ (merge_step part ([], []) p).2.

(** The source of the byte at [off], read through the extent [p]. *)
Definition source_at (p : VirtualDiskPart) (off : Z) : ByteSource :=
  match source_file p with
  | Some f => FromFile f (source_offset p + (off - target_offset p))
  | None => ZeroFill
  end.

(** An existing part that starts inside the new part and ends behind it:
    the parts the fourth branch of the merge loop, or no branch at all,
    is for. *)
Definition starts_inside_and_outlasts (part p : VirtualDiskPart) : Prop :=
  target_offset part <= target_offset p < target_offset part + length part
  /\ target_offset part + length part < target_offset p + length p.

End Overlay.

(* ===================================================================== *)
(** * diskvm/vm/vmdk.py: the extent description of the descriptor file *)
(* ===================================================================== *)

Module Vmdk.
Import VmBase.

(** [a // b] on Python integers. *)
Definition py_floordiv (a b : Z) : Result Error Z :=
  if b =? 0 then Raise ZeroDivisionError else Ok (a / b).

(** A line of the extent description: [RW <sectors> ZERO] or
    [RW <sectors> FLAT "<path>" <offset>]. *)
Inductive Extent :=
| ZERO (sectors : Z)
| FLAT (sectors : Z) (path : Path) (offset : Z).

Definition sectors (e : Extent) : Z :=
  match e with
  | ZERO n => n
  | FLAT n _ _ => n
  end.

Definition extent_line (e : Extent) : string :=
  match e with
  | ZERO n => "RW " +:+ pretty n +:+ " ZERO"
  | FLAT n path offset =>
      "RW " +:+ pretty n +:+ " FLAT " +:+ String "034" EmptyString +:+ path
        +:+ String "034" EmptyString +:+ " " +:+ pretty offset
  end.

Section Write.
(** [Path.absolute] and [Path.is_relative_to(out_dir)] *)
Variable absolute : Path -> Path.
Variable is_relative_to_out_dir : Path -> bool.
(** [self.sector_size] *)
Variable sector_size : Z.

(** One pass of [for p in self.disk_parts] in [VmdkBuilder.write], on
    [current_sector] and the lines written so far.  For a source file under
    [out_dir] the loop variable [p] is rebound to the relative path, and the
    line then asks that path for [source_offset]. *)
Definition write_part (acc : Z * list Extent) (p : VirtualDiskPart)
  : Result Error (Z * list Extent) :=
  let '(current_sector, vmdk) := acc in
  let padded :=
    if negb (current_sector * sector_size =? target_offset p) then
      match py_floordiv (target_offset p) sector_size with
      | Ok q =>
          let num_padding_sectors := q - current_sector in
          Ok (current_sector + num_padding_sectors,
              vmdk ++ [ZERO num_padding_sectors])
      | Raise e => Raise e
      end
    else Ok (current_sector, vmdk) in
  match padded with
  | Raise e => Raise e
  | Ok (current_sector, vmdk) =>
      match py_floordiv (length p) sector_size with
      | Raise e => Raise e
      | Ok size_in_sectors =>
          let current_sector := current_sector + size_in_sectors in
          match source_file p with
          | None => Ok (current_sector, vmdk ++ [ZERO size_in_sectors])
          | Some f =>
              if is_relative_to_out_dir f then Raise AttributeError
              else
                match py_floordiv (source_offset p) sector_size with
                | Ok o =>
                    Ok (current_sector,
                        vmdk ++ [FLAT size_in_sectors (absolute f) o])
                | Raise e => Raise e
                end
          end
      end
  end.

Fixpoint write_parts (acc : Z * list Extent) (disk_parts : list VirtualDiskPart)
  : Result Error (Z * list Extent) :=
  match disk_parts with
  | [] => Ok acc
  | p :: disk_parts' =>
      match write_part acc p with
      | Ok acc' => write_parts acc' disk_parts'
      | Raise e => Raise e
      end
  end.

(** The extent description [write] produces, with the final value of
    [current_sector], the size of the disk in sectors. *)
Definition write_extents (disk_parts : list VirtualDiskPart)
  : Result Error (Z * list Extent) :=
  write_parts (0, []) disk_parts.
End Write.

(** [VmdkBuilder.BYTES_PER_SECTOR]: the sector of the descriptor format.
    The writer does not use the constant; it counts in [self.sector_size]. *)
Definition BYTES_PER_SECTOR : Z := 512.

(** Extents read with sectors of [bytes_per_sector] bytes: they lie one
    after the other, the first at sector [start]; a [FLAT] extent reads its
    file from the given sector offset on. *)
Fixpoint sectors_byte_at (bytes_per_sector start : Z) (extents : list Extent)
    (off : Z) : ByteSource :=
  match extents with
  | [] => ZeroFill
  | e :: extents' =>
      if (start * bytes_per_sector <=? off)
         && (off <? (start + sectors e) * bytes_per_sector)
      then
        match e with
        | ZERO _ => ZeroFill
        | FLAT _ path offset =>
            FromFile path
              (offset * bytes_per_sector + (off - start * bytes_per_sector))
        end
      else sectors_byte_at bytes_per_sector (start + sectors e) extents' off
  end.

(** What an extent description denotes: the sizes and offsets of its lines
    count sectors of 512 bytes, whatever the sector size of the disk. *)
Definition extents_byte_at (extents : list Extent) (off : Z) : ByteSource :=
  sectors_byte_at BYTES_PER_SECTOR 0 extents off.

(** A byte source with the path made absolute. *)
Definition absolute_source (absolute : Path -> Path) (s : ByteSource)
  : ByteSource :=
  match s with
  | ZeroFill => ZeroFill
  | FromFile f offset => FromFile (absolute f) offset
  end.

End Vmdk.

(* ===================================================================== *)
(** * From the image to the descriptor: the parts the runner and the
      on-the-fly decryption plugins add *)
(* ===================================================================== *)

Module Pipeline.
Import VmBase Vmdk.

(** The first part of every virtual disk, as [_add_virtual_disk] builds it:
    the whole image, with the default offsets of the dataclass. *)
Definition image_part (disk_image : Path) (size : Z) : VirtualDiskPart :=
  mkPart (Some disk_image) size 0 0.

(** The part the on-the-fly decryption plugins lay over an encrypted
    partition in [before_create_disk]: the decrypted device from its start,
    at the offset of the partition. *)
Definition decrypted_part (flat_mount : Path) (parent_offset size : Z)
  : VirtualDiskPart :=
  mkPart (Some flat_mount) size 0 parent_offset.

(** An extent the descriptor writer can describe. *)
Definition describable (rel : Path -> bool) (sector_size : Z)
    (p : VirtualDiskPart) : Prop :=
  0 < length p /\ 0 <= target_offset p
  /\ (sector_size | source_offset p)
  /\ forall f, source_file p = Some f -> rel f = false.

(** An image of eight sectors with a decrypted partition of two sectors
    laid over its third and fourth sector. *)
Definition example_image : VirtualDiskPart := image_part "disk.img" 4096.
Definition example_plain : VirtualDiskPart :=
  decrypted_part "/dev/mapper/plain" 1024 1024.
Definition example_parts : list VirtualDiskPart :=
  [mkPart (Some "disk.img") 1024 0 0;
   example_plain;
   mkPart (Some "disk.img") 2048 2048 2048].

End Pipeline.

(* ===================================================================== *)
(** * diskvm/utils.py: retry *)
(* ===================================================================== *)

Module Retry.

Section Retry.
(** The state the decorated function works on, the exceptions (the
    subclasses of [Exception]) it raises and the values it returns. *)
Context {W E A : Type}.
(** [time.sleep(sleep)] *)
Variable sleep : W -> W.
Variable func : W -> Result E A * W.

(** [for i in reversed(range(n)): ...]: the passes with [i = n-1, ..., 0].
    The loop body returns or raises in its last pass; when there is no
    pass at all, the function falls off its end and returns [None]. *)
Fixpoint _wrapped_from (n : nat) (w : W) : Result E (option A) * W :=
  match n with
  | O => (Ok None, w)
  | S i =>
      match func w with
      | (Ok a, w') => (Ok (Some a), w')
      | (Raise e, w') =>
          match i with
          | O => (Raise e, w')
          | S _ => _wrapped_from i (sleep w')
          end
      end
  end.

(** [retry(num, sleep)(func)] *)
Definition retry (num : Z) (w : W) : Result E (option A) * W :=
  _wrapped_from (Z.to_nat (1 + num)) w.

(** The state in which the call number [k] (from 0) is made, when the
    calls before it have all raised. *)
Fixpoint state_before (k : nat) (w : W) : option W :=
  match k with
  | O => Some w
  | S k' =>
      match func w with
      | (Raise _, w') => state_before k' (sleep w')
      | (Ok _, _) => None
      end
  end.

(** The result of [func] as [_wrapped] passes it on. *)
Definition passed_on (r : Result E A * W) : Result E (option A) * W :=
  match r with
  | (Ok a, w') => (Ok (Some a), w')
  | (Raise e, w') => (Raise e, w')
  end.
End Retry.

(** An unmount that finds its target busy twice; the state counts the
    calls and the seconds slept. *)
Definition busy_twice (w : nat * nat) : Result string unit * (nat * nat) :=
  if (w.1 <? 2)%nat then (Raise "target is busy", (S w.1, w.2))
  else (Ok tt, (S w.1, w.2)).

Definition sleep_one (w : nat * nat) : nat * nat := (w.1, S w.2).

End Retry.

(* ===================================================================== *)
(** * How the computations of the runner end *)
(* ===================================================================== *)

Module Completion.
Import Data Exec PluginsBase Runner.

(** Run from the state [s], the computation [m] stops in a state with [I];
    it does not run out of fuel, it raises no exception but those of
    [allowed], and what it returns has [Q]. *)
Definition finishes_at {S A} (I : S -> Prop) (allowed : Exn -> Prop)
    (m : M S A) (Q : A -> Prop) (s : S) : Prop :=
  I (m s).1.2
  /\ match (m s).1.1 with
     | Returned a => Q a
     | Raised e => allowed e
     | Unfinished => False
     end.

Definition finishes {S A} (I : S -> Prop) (allowed : Exn -> Prop)
    (m : M S A) (Q : A -> Prop) : Prop :=
  forall s, I s -> finishes_at I allowed m Q s.

(** A plugin whose hooks raise [DiskVmError] and its subclasses only, as
    the hooks built on [run_process] do. *)
Definition raises_only_DiskVmError {W} (p : PluginSpec W) : Prop :=
  forall name kwargs w e w', p name kwargs w = (Raise e, w') -> e = DiskVmError.

(** A host on which [Path.exists] answers: the [stat] call behind it does
    not fail with an error that [exists] passes on. *)
Definition path_exists_answers {W} (host : Host W) : Prop :=
  forall m w, exists b w', path_exists host m w = (Ok b, w').

(** What the teardown may do to a volume object: set its mount points to
    [None]. *)
Definition cleared (v v' : VolumeInfo) : Prop :=
  parent v' = parent v /\ offset v' = offset v /\ size v' = size v
  /\ volume_type v' = volume_type v
  /\ (flat_mount v' = flat_mount v \/ flat_mount v' = None)
  /\ (filesystem_mount v' = filesystem_mount v \/ filesystem_mount v' = None).

(** Two volume objects that differ in [filesystem_mount] at most. *)
Definition same_but_filesystem_mount (v v' : VolumeInfo) : Prop :=
  flat_mount v' = flat_mount v /\ parent v' = parent v
  /\ offset v' = offset v /\ size v' = size v
  /\ volume_type v' = volume_type v.

(** A plugin whose [mount] finds filesystems only: it returns no volume
    and no list of volumes. *)
Definition mounts_filesystems_only {W} (p : PluginSpec W) : Prop :=
  forall kwargs w r w',
    p mount kwargs w = (Ok r, w') ->
    match r with
    | RVolume _ | RVolumes _ => False
    | _ => True
    end.

(** The volume [_add_partition_info] lists for a partition: a loop device
    over the byte range of the partition, no filesystem mounted, no
    parent. *)
Definition partition_volume (offset size : Z) (volume_type : VolumeType)
    (v : VolumeInfo) : Prop :=
  exists loop_dev,
    v = mkVolumeInfo (Some loop_dev) None None offset size (Some volume_type).

Definition gpt_volume (sector_size : Z) (p : GptPartition) (v : VolumeInfo)
  : Prop :=
  partition_volume (first_lba p * sector_size)
    ((last_lba p - first_lba p + 1) * sector_size) (GptGuid (guid p)) v.

Definition mbr_volume (sector_size : Z) (p : MbrPartition) (v : VolumeInfo)
  : Prop :=
  partition_volume (lba p * sector_size) (sectors p * sector_size)
    (MbrType (type p)) v.

(** A plugin that unmounts filesystems and finds every device busy. *)
Definition busy_plugin : PluginSpec unit :=
  fun name _ w =>
    match name with
    | unmount_filesystem => (Ok (RBool true), w)
    | unmount_volume => (Raise DiskVmError, w)
    | _ => (Ok RNone, w)
    end.

(** A disk with the partition table of [example_host], before its
    partitions are listed. *)
Definition mbr_state : State unit :=
  mkState tt
    (mkDiskInfo true "/tmp/tmpdisk"
       (mkPartitionsInfo None
          (Some (mkMbrInfo 512 [mkMbrPartition 2048 2048 131]))) []).

End Completion.

(* ===================================================================== *)
(** * The teardown of diskvm/runner.py: which volumes it deals with *)
(* ===================================================================== *)

Module TeardownOrder.
Import Data Exec PluginsBase Runner Completion.


(** A plugin that unmounts what it is asked to, except for the logical
    volume [/dev/vg/root], which it finds busy: its hooks answer [False]
    there, as those of [GenericMountPlugin] do when [umount] fails. *)
Definition root_busy_plugin : PluginSpec unit :=
  fun name kwargs w =>
    match name with
    | unmount_filesystem | unmount_volume =>
        (Ok (RBool (negb (bool_decide
                            (kw_volume kwargs ≫= flat_mount
                             = Some "/dev/vg/root")))), w)
    | _ => (Ok RNone, w)
    end.




End TeardownOrder.

(* ===================================================================== *)
(** * diskvm/plugins/veracrypt.py: the checksums of the header *)
(* ===================================================================== *)

Module VeraCryptChecksums.
Import StructureHelper VeraCrypt.

(** A value an item packs without changing it. *)
Definition fits (it : FormatItem) (v : Value) : Prop :=
  match it, v with
  | FmtS n, VBytes b => List.length b = n
  | FmtS _, VInt _ => False
  | _, VInt _ => True
  | _, VBytes _ => False
  end.

(** A value an item packs. *)
Definition packable (it : FormatItem) (v : Value) : Prop :=
  match it, v with
  | FmtS n, VBytes b => True
  | FmtS _, VInt _ => False
  | _, VInt z => 0 <= z < 2 ^ (8 * Z.of_nat (item_size it))
  | _, VBytes _ => False
  end.

Definition set_checksum_master_keys (c : Z) (h : VeraCryptHeader)
  : VeraCryptHeader :=
  mkHeader (signature h) (header_format_version h) (min_program_version h)
    c (reserved1 h) (size_hidden_volume h) (size_volume h) (offset h)
    (size_encrypted h) (flags h) (sector_size h) (reserved2 h)
    (checksum_header_fields h) (master_keys h).

Definition set_checksum_header_fields (c : Z) (h : VeraCryptHeader)
  : VeraCryptHeader :=
  mkHeader (signature h) (header_format_version h) (min_program_version h)
    (checksum_master_keys h) (reserved1 h) (size_hidden_volume h)
    (size_volume h) (offset h) (size_encrypted h) (flags h) (sector_size h)
    (reserved2 h) c (master_keys h).

Section Checksums.
(** [binascii.crc32] *)
Variable crc32 : bytes -> Z.

(** [VeraCryptHeader.update_checksums]: how the call ends, and the header
    object afterwards. *)
Definition update_checksums (self : VeraCryptHeader)
  : Result Error unit * VeraCryptHeader :=
  let self := set_checksum_master_keys (crc32 (master_keys self)) self in
  match pack self with
  | Ok header_data =>
      (Ok tt, set_checksum_header_fields (crc32 (take 188 header_data)) self)
  | Raise e => (Raise e, self)
  end.
End Checksums.

(** The fields in front of [checksum_header_fields], the first 188 bytes of
    a packed header. *)
Definition checked_items : list FormatItem :=
  [FmtS 4; FmtH; FmtH; FmtI; FmtS 16; FmtQ; FmtQ; FmtQ; FmtQ; FmtI; FmtI;
   FmtS 120].

Definition checked_values (h : VeraCryptHeader) : list Value :=
  [VBytes (signature h); VInt (header_format_version h);
   VInt (min_program_version h); VInt (checksum_master_keys h);
   VBytes (reserved1 h); VInt (size_hidden_volume h); VInt (size_volume h);
   VInt (offset h); VInt (size_encrypted h); VInt (flags h);
   VInt (sector_size h); VBytes (reserved2 h)].

(** The integer fields of a header lie in the ranges of their types. *)
Definition in_range (h : VeraCryptHeader) : Prop :=
  0 <= header_format_version h < 2 ^ 16
  /\ 0 <= min_program_version h < 2 ^ 16
  /\ 0 <= checksum_master_keys h < 2 ^ 32
  /\ 0 <= size_hidden_volume h < 2 ^ 64
  /\ 0 <= size_volume h < 2 ^ 64
  /\ 0 <= offset h < 2 ^ 64
  /\ 0 <= size_encrypted h < 2 ^ 64
  /\ 0 <= flags h < 2 ^ 32
  /\ 0 <= sector_size h < 2 ^ 32
  /\ 0 <= checksum_header_fields h < 2 ^ 32.

(** The byte-string fields of a header have the sizes of their fields. *)
Definition exact_sizes (h : VeraCryptHeader) : Prop :=
  List.length (signature h) = 4%nat
  /\ List.length (reserved1 h) = 16%nat
  /\ List.length (reserved2 h) = 120%nat
  /\ List.length (master_keys h) = 256%nat.

(** A stand-in for [crc32] in examples: the sum of the bytes, in 32 bits. *)
Definition example_crc32 (b : bytes) : Z :=
  foldr (fun x acc => (Z_of_byte x + acc) mod 2 ^ 32) 0 b.

(** The header of a system partition of 1 MiB at offset 1 MiB, as
    [create_encrypted_veracrypt_header] fills it in. *)
Definition example_header : VeraCryptHeader :=
  mkHeader [Byte.x56; Byte.x45; Byte.x52; Byte.x41] 5 267 0
    (replicate 16 Byte.x00) 0 1048576 1048576 1048576 1 512
    (replicate 120 Byte.x00) 0 (replicate 256 Byte.x2a).

Definition example_packed : bytes :=
  match pack example_header with
  | Ok b => b
  | Raise _ => []
  end.

End VeraCryptChecksums.

(* ===================================================================== *)
(** * diskvm/plugins/password_bypass.py: the lines of the shadow file *)
(* ===================================================================== *)

Module ShadowFile.
Import PasswordBypass.

(** A text in which every line ends with a line feed. *)
Fixpoint unlines (lines : list string) : string :=
  match lines with
  | [] => EmptyString
  | l :: lines' => l +:+ String "010" (unlines lines')
  end.

(** A string without a line boundary in it. *)
Fixpoint one_line (s : string) : bool :=
  match s with
  | EmptyString => true
  | String c s' => negb (is_line_boundary c) && one_line s'
  end.

(** A shadow file with locked accounts only. *)
Definition locked_lines : list string :=
  ["root:!:19000:0:99999:7:::"; "daemon:*:19000:0:99999:7:::"].

End ShadowFile.

(* ===================================================================== *)
(** * Theorems *)
(* ===================================================================== *)

Module UtilsFacts.

Section Sorting.
Context {A : Type} (key : A -> Z).

(** ** Stable sorting only permutes *)

Lemma insert_sorted_perm reverse x (l : list A) :
  Utils.insert_sorted key reverse x l ≡ₚ x :: l.
Proof.
  induction l as [|y l IH]; simpl; [done|].
  destruct (Utils.key_le key reverse x y); [done|].
  rewrite IH. apply Permutation_swap.
Qed.

Lemma sorted_perm reverse (l : list A) : Utils.sorted key reverse l ≡ₚ l.
Proof.
  induction l as [|x l IH]; simpl; [done|].
  rewrite insert_sorted_perm. by rewrite IH.
Qed.

(** ** Sorting with [reverse=True] gives descending keys *)

Lemma insert_sorted_descending x (l : list A) :
  StronglySorted (fun a b => key b <= key a) l ->
  StronglySorted (fun a b => key b <= key a) (Utils.insert_sorted key true x l).
Proof.
  induction l as [|y l IH]; simpl; intros Hl.
  - by repeat constructor.
  - apply StronglySorted_cons in Hl as [Hy Hl].
    unfold Utils.key_le. destruct (Z.leb_spec (key y) (key x)) as [Hle|Hgt].
    + apply StronglySorted_cons. split; [|by apply StronglySorted_cons].
      constructor; [done|]. eapply Forall_impl; [exact Hy|].
      intros z Hz. simpl in Hz. lia.
    + apply StronglySorted_cons. split; [|auto].
      rewrite insert_sorted_perm. constructor; [lia|done].
Qed.

Lemma sorted_descending (l : list A) :
  StronglySorted (fun a b => key b <= key a) (Utils.sorted key true l).
Proof.
  induction l as [|x l IH]; simpl; [constructor|].
  by apply insert_sorted_descending.
Qed.

(** ** Sorting without [reverse] gives ascending keys *)

Lemma insert_sorted_ascending x (l : list A) :
  StronglySorted (fun a b => key a <= key b) l ->
  StronglySorted (fun a b => key a <= key b) (Utils.insert_sorted key false x l).
Proof.
  induction l as [|y l IH]; simpl; intros Hl.
  - by repeat constructor.
  - apply StronglySorted_cons in Hl as [Hy Hl].
    unfold Utils.key_le. destruct (Z.leb_spec (key x) (key y)) as [Hle|Hgt].
    + apply StronglySorted_cons. split; [|by apply StronglySorted_cons].
      constructor; [done|]. eapply Forall_impl; [exact Hy|].
      intros z Hz. simpl in Hz. lia.
    + apply StronglySorted_cons. split; [|auto].
      rewrite insert_sorted_perm. constructor; [lia|done].
Qed.

Lemma sorted_ascending (l : list A) :
  StronglySorted (fun a b => key a <= key b) (Utils.sorted key false l).
Proof.
  induction l as [|x l IH]; simpl; [constructor|].
  by apply insert_sorted_ascending.
Qed.

(** ** Grouping *)

Lemma itertools_groupby_head (l : list A) k g gs :
  Utils.itertools_groupby key l = (k, g) :: gs ->
  exists y l', l = y :: l' /\ k = key y.
Proof.
  destruct l as [|y l]; simpl; [done|]. intros H. exists y, l. split; [done|].
  destruct (Utils.itertools_groupby key l) as [|[k' g'] gs']; [congruence|].
  destruct (Z.eqb_spec (key y) k'); congruence.
Qed.

Lemma itertools_groupby_concat (l : list A) :
  concat (snd <$> Utils.itertools_groupby key l) = l.
Proof.
  induction l as [|x l IH]; simpl; [done|].
  destruct (Utils.itertools_groupby key l) as [|[k g] gs].
  - simpl in *. by rewrite <- IH.
  - destruct (key x =? k); simpl in *; by rewrite <- IH.
Qed.

Lemma itertools_groupby_keys (l : list A) :
  Forall (fun kg => Forall (fun x => key x = kg.1) kg.2)
    (Utils.itertools_groupby key l).
Proof.
  induction l as [|x l IH]; simpl; [constructor|].
  destruct (Utils.itertools_groupby key l) as [|[k g] gs].
  - by repeat constructor.
  - apply Forall_cons in IH as [Hg Hgs].
    destruct (Z.eqb_spec (key x) k).
    + constructor; [|done]. by constructor.
    + constructor; [by repeat constructor|]. by constructor.
Qed.

(** The groups of a list with descending keys have strictly descending
    keys. *)
Lemma itertools_groupby_strict (l : list A) :
  StronglySorted (fun a b => key b <= key a) l ->
  StronglySorted (fun a b : Z * list A => b.1 < a.1)
    (Utils.itertools_groupby key l).
Proof.
  induction l as [|x l IH]; simpl; intros Hl; [constructor|].
  apply StronglySorted_cons in Hl as [Hx Hl]. specialize (IH Hl).
  destruct (Utils.itertools_groupby key l) as [|[k g] gs] eqn:Hgs.
  - by repeat constructor.
  - apply StronglySorted_cons in IH as [Hk IH].
    destruct (Z.eqb_spec (key x) k) as [Heq|Hne].
    + by apply StronglySorted_cons.
    + destruct (itertools_groupby_head l k g gs Hgs) as (y & l' & -> & ->).
      apply Forall_cons in Hx as [Hxy _].
      apply StronglySorted_cons. split; [|by apply StronglySorted_cons].
      constructor; [simpl; lia|].
      eapply Forall_impl; [exact Hk|]. intros b Hb. simpl in *. lia.
Qed.

Lemma groupby_elem_of reverse (l : list A) kg x :
  kg ∈ Utils.groupby key reverse l -> x ∈ kg.2 -> x ∈ l /\ key x = kg.1.
Proof.
  intros Hkg Hx. unfold Utils.groupby in Hkg. split.
  - rewrite <- (sorted_perm reverse l),
      <- (itertools_groupby_concat (Utils.sorted key reverse l)).
    apply list_elem_of_In, in_concat. exists kg.2.
    split; apply list_elem_of_In; [|done].
    by apply list_elem_of_fmap_2.
  - pose proof (itertools_groupby_keys (Utils.sorted key reverse l)) as Hkeys.
    rewrite Forall_forall in Hkeys. specialize (Hkeys kg Hkg).
    rewrite Forall_forall in Hkeys. by apply Hkeys.
Qed.

Lemma groupby_strict (l : list A) :
  StronglySorted (fun a b : Z * list A => b.1 < a.1) (Utils.groupby key true l).
Proof. apply itertools_groupby_strict, sorted_descending. Qed.
End Sorting.

End UtilsFacts.

Module VmBaseFacts.
Import VmBase UtilsFacts.

(** ** Overlap and the merge cases *)

Lemma overlap_sym p q : overlap p q -> overlap q p.
Proof. intros (off & Hp & Hq). by exists off. Qed.

Lemma covers_spec off p :
  covers off p = true <-> target_offset p <= off < target_offset p + length p.
Proof. unfold covers. rewrite andb_true_iff, Z.leb_le, Z.ltb_lt. tauto. Qed.

Lemma disjoint_merge_case p part :
  0 < length p -> 0 < length part -> ~ overlap p part ->
  merge_case p part = NoOverlap.
Proof.
  intros Hp Hpart Hno. unfold merge_case.
  destruct (((target_offset p <? target_offset part)
               && (target_offset p + length p <=? target_offset part))
            || (target_offset p >=? target_offset part + length part)) eqn:E;
    [done|].
  exfalso. apply Hno.
  apply orb_false_iff in E as [E1 E2].
  rewrite Z.geb_leb in E2. apply Z.leb_gt in E2.
  destruct (Z.ltb_spec (target_offset p) (target_offset part)) as [Hlt|Hge].
  - simpl in E1. apply Z.leb_gt in E1.
    exists (target_offset part). rewrite !covers_spec. lia.
  - exists (target_offset p). rewrite !covers_spec. lia.
Qed.

Lemma merge_fold_no_overlap part l kept added :
  Forall (fun p => merge_case p part = NoOverlap) l ->
  foldl (merge_step part) (kept, added) l = (kept ++ l, added).
Proof.
  revert kept. induction l as [|p l IH]; intros kept Hl; simpl.
  - by rewrite app_nil_r.
  - apply Forall_cons in Hl as [Hp Hl]. rewrite Hp.
    rewrite IH by done. by rewrite <- app_assoc.
Qed.

Lemma merge_no_overlap part l :
  Forall (fun p => merge_case p part = NoOverlap) l -> merge part l = l.
Proof.
  intros Hl. unfold merge. rewrite merge_fold_no_overlap by done.
  simpl. by rewrite app_nil_r.
Qed.

(** ** Pairwise disjointness does not depend on the order *)

Lemma non_overlapping_perm l l' :
  l ≡ₚ l' -> non_overlapping l -> non_overlapping l'.
Proof.
  induction 1 as [|x l l' Hperm IH|x y l|l l' l'' _ IH1 _ IH2]; intros Hl.
  - done.
  - inversion Hl as [|? ? Hx Hrest]; subst.
    constructor; [by rewrite <- Hperm | auto].
  - inversion Hl as [|? ? Hy Hrest]; subst.
    inversion Hrest as [|? ? Hx Hrest']; subst.
    apply Forall_cons in Hy as [Hyx Hy].
    constructor; [|by constructor].
    constructor; [|done]. intros Ho. by apply Hyx, overlap_sym.
  - auto.
Qed.

Lemma non_overlapping_app_inv l p l' :
  non_overlapping (l ++ p :: l') ->
  Forall (fun q => ~ overlap q p) l.
Proof.
  induction l as [|q l IH]; simpl; intros Hl; [done|].
  inversion Hl as [|? ? Hq Hrest]; subst.
  constructor; [|auto].
  rewrite Forall_app, Forall_cons in Hq. tauto.
Qed.

(** In a pairwise disjoint list at most one extent covers an offset, so
    the lookup does not depend on the order of the list. *)
Lemma find_covers_perm off l l' :
  l ≡ₚ l' -> non_overlapping l ->
  List.find (covers off) l = List.find (covers off) l'.
Proof.
  induction 1 as [|x l l' Hperm IH|x y l|l l' l'' H1 IH1 H2 IH2]; intros Hl.
  - done.
  - inversion Hl; subst. simpl. destruct (covers off x); auto.
  - inversion Hl as [|? ? Hy Hrest]; subst.
    apply Forall_cons in Hy as [Hyx _]. simpl.
    destruct (covers off y) eqn:Ey, (covers off x) eqn:Ex; try done.
    exfalso. apply Hyx. by exists off.
  - rewrite IH1 by done. apply IH2. by eapply non_overlapping_perm.
Qed.

Lemma byte_at_perm off l l' :
  l ≡ₚ l' -> non_overlapping l -> byte_at l off = byte_at l' off.
Proof.
  intros Hperm Hl. unfold byte_at. by rewrite (find_covers_perm off l l').
Qed.

(** ** Adding disjoint parts *)

Lemma add_part_disjoint fs sector_size l part :
  sector_size <> 0 ->
  valid_part fs sector_size part ->
  Forall (fun p => 0 < length p) l ->
  Forall (fun p => ~ overlap p part) l ->
  add_part fs sector_size l part
  = Ok (Utils.sorted target_offset false (l ++ [part])).
Proof.
  intros Hss ((f & Hf & Hkind) & Ha & Hb & Hlen) Hpos Hdis.
  unfold add_part, py_mod. rewrite Hf.
  apply orb_true_iff in Hkind.
  replace (negb (is_file (fs f)) && negb (is_block_device (fs f)))
    with false by (destruct Hkind as [-> | ->]; simpl; by rewrite ?andb_false_r).
  destruct (Z.eqb_spec sector_size 0) as [|_]; [done|].
  rewrite Ha, Hb. simpl.
  rewrite merge_no_overlap; [done|].
  rewrite Forall_forall in Hpos, Hdis. apply Forall_forall. intros p Hp.
  apply disjoint_merge_case; auto.
Qed.

Lemma add_parts_disjoint fs sector_size parts : forall acc,
  sector_size <> 0 ->
  Forall (valid_part fs sector_size) parts ->
  Forall (fun p => 0 < length p) acc ->
  non_overlapping (acc ++ parts) ->
  exists r, add_parts fs sector_size acc parts = Ok r /\ r ≡ₚ acc ++ parts.
Proof.
  induction parts as [|part parts IH]; intros acc Hss Hvalid Hpos Hdis; simpl.
  - exists acc. by rewrite app_nil_r.
  - apply Forall_cons in Hvalid as [Hpart Hvalid].
    rewrite (add_part_disjoint fs sector_size acc part); try done;
      [|by eapply non_overlapping_app_inv].
    set (acc' := Utils.sorted target_offset false (acc ++ [part])).
    assert (Hperm : acc' ≡ₚ acc ++ [part]) by apply sorted_perm.
    destruct (IH acc') as (r & Hr & Hrperm); try done.
    + rewrite Hperm. apply Forall_app. split; [done|].
      constructor; [|done]. destruct Hpart as (_ & _ & _ & ?). done.
    + eapply non_overlapping_perm; [|exact Hdis].
      rewrite Hperm, <- app_assoc. done.
    + exists r. split; [done|]. rewrite Hrperm, Hperm, <- app_assoc. done.
Qed.

(** ** When [add_part] accepts a part *)

Lemma add_part_accepts fs sector_size l part :
  sector_size <> 0 ->
  (exists l', add_part fs sector_size l part = Ok l')
  <-> (exists f, source_file part = Some f
                 /\ is_file (fs f) || is_block_device (fs f) = true)
      /\ target_offset part mod sector_size = 0
      /\ (target_offset part + length part) mod sector_size = 0.
Proof.
  intros Hss. unfold add_part, py_mod.
  destruct (Z.eqb_spec sector_size 0) as [|_]; [done|].
  destruct (source_file part) as [f|].
  2:{ split; [by intros [l' ?]|by intros [(f & ? & _) _]]. }
  destruct (is_file (fs f) || is_block_device (fs f)) eqn:Hkind.
  2:{ apply orb_false_iff in Hkind as [H1 H2]. rewrite H1, H2. simpl.
      split; [by intros [l' ?]|].
      intros [(f' & [= <-] & Hk) _].
      apply orb_true_iff in Hk as [Hk|Hk]; congruence. }
  replace (negb (is_file (fs f)) && negb (is_block_device (fs f)))
    with false
    by (apply orb_true_iff in Hkind as [-> | ->]; simpl;
        by rewrite ?andb_false_r).
  destruct (Z.eqb_spec (target_offset part mod sector_size) 0) as [Ha|Ha];
    simpl.
  2:{ split; [by intros [l' ?]|by intros (_ & ? & _)]. }
  destruct (Z.eqb_spec ((target_offset part + length part) mod sector_size) 0)
    as [Hb|Hb]; simpl.
  2:{ split; [by intros [l' ?]|by intros (_ & _ & ?)]. }
  split; [|by eexists]. intros _. split; [by exists f|done].
Qed.

Lemma add_part_misaligned fs sector_size l part f :
  sector_size <> 0 ->
  source_file part = Some f ->
  is_file (fs f) || is_block_device (fs f) = true ->
  target_offset part mod sector_size <> 0
  \/ (target_offset part + length part) mod sector_size <> 0 ->
  add_part fs sector_size l part
  = Raise (InvalidDiskPartError "Not aligned to sectors").
Proof.
  intros Hss Hf Hkind Hmis. unfold add_part, py_mod. rewrite Hf.
  destruct (Z.eqb_spec sector_size 0) as [|_]; [done|].
  apply orb_true_iff in Hkind.
  replace (negb (is_file (fs f)) && negb (is_block_device (fs f)))
    with false by (destruct Hkind as [-> | ->]; simpl; by rewrite ?andb_false_r).
  destruct (Z.eqb_spec (target_offset part mod sector_size) 0); simpl; [|done].
  destruct (Z.eqb_spec ((target_offset part + length part) mod sector_size) 0);
    simpl; [|done].
  by destruct Hmis.
Qed.

(** ** What [add_part] does keep: the order and the alignment *)

Lemma list_remove_first_Forall (P : VirtualDiskPart -> Prop) x l :
  Forall P l -> Forall P (list_remove_first x l).
Proof.
  induction 1 as [|y l Hy Hl IH]; simpl; [constructor|].
  destruct (decide (y = x)); [done|by constructor].
Qed.

Lemma merge_step_aligned sector_size part kept added p :
  aligned sector_size part -> aligned sector_size p ->
  Forall (aligned sector_size) kept -> Forall (aligned sector_size) added ->
  Forall (aligned sector_size) (merge_step part (kept, added) p).1
  /\ Forall (aligned sector_size) (merge_step part (kept, added) p).2.
Proof.
  intros [Hc Hd] [Ha Hb] Hkept Hadded. unfold merge_step.
  assert (Hkp : Forall (aligned sector_size) (kept ++ [p])).
  { apply Forall_app. split; [done|]. by repeat constructor. }
  destruct (merge_case p part); simpl; split; try done.
  - by apply list_remove_first_Forall.
  - apply Forall_app. split; [done|]. repeat constructor; simpl; [done|].
    replace (target_offset p
             + (length p - (target_offset p + length p - target_offset part)))
      with (target_offset part) by lia.
    done.
  - apply Forall_app. split; [done|]. repeat constructor; simpl.
    + apply Z.divide_add_r; [done|]. by apply Z.divide_sub_r.
    + replace (target_offset p
               + (target_offset p + length p - (target_offset part + length part))
               + (length p
                  - (target_offset p + length p
                     - (target_offset part + length part))))
        with (target_offset p + length p) by lia.
      done.
  - apply Forall_app. split; [done|]. repeat constructor; simpl; [done|].
    replace (target_offset p + (target_offset part - target_offset p))
      with (target_offset part) by lia.
    done.
  - apply Forall_app. split; [done|]. repeat constructor; simpl; [done|].
    replace (target_offset part + length part
             + (target_offset p + length p - (target_offset part + length part)))
      with (target_offset p + length p) by lia.
    done.
Qed.

Lemma merge_aligned sector_size part l :
  aligned sector_size part ->
  Forall (aligned sector_size) l ->
  Forall (aligned sector_size) (merge part l).
Proof.
  intros Hpart Hl. unfold merge.
  assert (H : forall kept added,
             Forall (aligned sector_size) kept ->
             Forall (aligned sector_size) added ->
             Forall (aligned sector_size) (foldl (merge_step part) (kept, added) l).1
             /\ Forall (aligned sector_size)
                  (foldl (merge_step part) (kept, added) l).2).
  { induction Hl as [|p l Hp Hl IH]; intros kept added Hk Ha; cbn [foldl];
      [done|].
    destruct (merge_step_aligned sector_size part kept added p) as [H1 H2];
      try done.
    destruct (merge_step part (kept, added) p) as [kept' added'].
    by apply IH. }
  destruct (H [] []) as [H1 H2]; try constructor.
  destruct (foldl (merge_step part) ([], []) l) as [kept added].
  by apply Forall_app.
Qed.

(** Whatever is inserted, the list stays sorted by target offset and every
    extent stays aligned to sectors. *)
Lemma add_part_sorted_aligned fs sector_size l part l' :
  Forall (aligned sector_size) l ->
  add_part fs sector_size l part = Ok l' ->
  sorted_by_target l' /\ Forall (aligned sector_size) l'.
Proof.
  intros Hl Hadd. unfold add_part, py_mod in Hadd.
  destruct (source_file part) as [f|]; [|done].
  destruct (negb (is_file (fs f)) && negb (is_block_device (fs f))); [done|].
  destruct (Z.eqb_spec sector_size 0) as [|Hss]; [done|].
  destruct (Z.eqb_spec (target_offset part mod sector_size) 0) as [Ha|];
    simpl in Hadd; [|done].
  destruct (Z.eqb_spec ((target_offset part + length part) mod sector_size) 0)
    as [Hb|]; simpl in Hadd; [|done].
  injection Hadd as <-.
  assert (Hpart : aligned sector_size part).
  { split; by apply Z.mod_divide. }
  split; [apply sorted_ascending|].
  rewrite sorted_perm. apply Forall_app.
  split; [by apply merge_aligned|]. constructor; [exact Hpart|constructor].
Qed.

Lemma add_parts_sorted_aligned fs sector_size parts : forall l l',
  sorted_by_target l -> Forall (aligned sector_size) l ->
  add_parts fs sector_size l parts = Ok l' ->
  sorted_by_target l' /\ Forall (aligned sector_size) l'.
Proof.
  induction parts as [|part parts IH]; intros l l' Hs Hl Hadd; simpl in Hadd.
  - by injection Hadd as <-.
  - destruct (add_part fs sector_size l part) as [l1|] eqn:H1; [|done].
    destruct (add_part_sorted_aligned _ _ _ _ _ Hl H1).
    by eapply IH.
Qed.

(** ** The claims about [add_part] *)

(** C1 (the builder invariant) fails on the code.  A part that starts where
    an existing, longer part starts matches none of the five conditions of
    the merge loop (the fourth asks for [part.target_offset <
    p.target_offset], strictly), so the existing part stays as it is and the
    two overlap. *)
Theorem add_part_same_start_keeps_overlap :
  let a := mkPart (Some "disk.img") 1024 0 0 in
  let b := mkPart (Some "plain.img") 512 0 0 in
  merge_case a b = Untouched
  /\ add_parts all_regular_files 512 [] [a; b] = Ok [a; b]
  /\ overlap a b
  /\ ~ builder_invariant 512 [a; b].
Proof.
  intros a b.
  assert (Ho : overlap a b) by (exists 0; done).
  repeat split; try done.
  intros (_ & Hno & _). inversion Hno as [|? ? Hab _]; subst.
  apply Forall_cons in Hab as [Hab _]. by apply Hab.
Qed.

(** What the fourth branch does in general: with [overlap] the length of
    the overlap and [rest] the length of what lies behind the new part, the
    offsets advance by [rest] and the length becomes [overlap]. *)
Lemma merge_step_head_overlap part kept added p :
  target_offset part < target_offset p < target_offset part + length part ->
  target_offset part + length part < target_offset p + length p ->
  let overlap := target_offset part + length part - target_offset p in
  let rest := target_offset p + length p - (target_offset part + length part) in
  merge_step part (kept, added) p
  = (kept ++ [mkPart (source_file p) overlap
                     (source_offset p + rest) (target_offset p + rest)],
     added).
Proof.
  intros [H1 H2] H3 overlap rest. unfold merge_step, merge_case.
  rewrite !Z.geb_leb.
  repeat match goal with
    | |- context [?a <=? ?b] => destruct (Z.leb_spec a b); try lia
    | |- context [?a <? ?b] => destruct (Z.ltb_spec a b); try lia
    end.
  simpl. subst overlap rest. do 3 f_equal. f_equal. lia.
Qed.

(** C2 (head overlap) fails on the code.  In the fourth branch
    [overlap_len] is computed as the distance between the two ends, which is
    the length of the part of [p] that is NOT overlapped; the offsets are
    advanced by it and the length becomes the length of the overlap.  Here
    the overlap is 1024 bytes, and the code advances by 512. *)
Theorem add_part_head_overlap_advances_by_remainder :
  let p := mkPart (Some "disk.img") 1536 0 512 in
  let new := mkPart (Some "plain.img") 1536 0 0 in
  let overlap_len := target_offset new + length new - target_offset p in
  (target_offset new < target_offset p < target_offset new + length new
   /\ target_offset new + length new < target_offset p + length p)
  /\ overlap_len = 1024
  /\ add_part all_regular_files 512 [p] new
     = Ok [new; mkPart (Some "disk.img") 1024 512 1024]
  /\ mkPart (Some "disk.img") 1024 512 1024
     <> mkPart (source_file p) (length p - overlap_len)
               (source_offset p + overlap_len) (target_offset p + overlap_len)
  /\ overlap new (mkPart (Some "disk.img") 1024 512 1024).
Proof.
  simpl. repeat split; try done. by exists 1024.
Qed.

(** C3 (what [add_part] accepts) fails on the code: a part without a source
    file, the zero region of the data model, ends in the attribute error of
    [None.is_file()], not in acceptance and not in [InvalidDiskPartError]. *)
Theorem add_part_null_source_attribute_error :
  let zero_region := mkPart None 512 0 0 in
  aligned 512 zero_region
  /\ add_part all_regular_files 512 [] zero_region = Raise AttributeError.
Proof.
  simpl. split; [|done]. split; simpl.
  - apply Z.divide_0_r.
  - apply Z.divide_refl.
Qed.

(** C4, counterexample: two valid parts on the same target range; the part
    inserted last wins, so the two orders give different byte maps. *)
Lemma reverse_order_changes_byte_map :
  let a := mkPart (Some "disk.img") 512 0 0 in
  let b := mkPart (Some "plain.img") 512 0 0 in
  Forall (valid_part all_regular_files 512) [a; b]
  /\ ~ reverse_order_same_map all_regular_files 512 [a; b].
Proof.
  intros a b. split.
  - repeat constructor; by eexists.
  - intros H. specialize (H [b] [a] eq_refl eq_refl 0). discriminate H.
Qed.

(** C4, amended: for valid parts with pairwise disjoint target ranges both
    orders are accepted and give the same byte map. *)
Theorem add_parts_reverse_disjoint fs sector_size parts :
  sector_size <> 0 ->
  Forall (valid_part fs sector_size) parts ->
  non_overlapping parts ->
  exists r1 r2,
    add_parts fs sector_size [] parts = Ok r1
    /\ add_parts fs sector_size [] (rev parts) = Ok r2
    /\ forall off, byte_at r1 off = byte_at r2 off.
Proof.
  intros Hss Hvalid Hdis.
  destruct (add_parts_disjoint fs sector_size parts []) as (r1 & Hr1 & Hp1);
    try done.
  destruct (add_parts_disjoint fs sector_size (rev parts) []) as (r2 & Hr2 & Hp2);
    try done.
  { by apply Forall_rev. }
  { simpl. eapply non_overlapping_perm; [|exact Hdis]. apply Permutation_rev. }
  exists r1, r2. repeat split; try done.
  intros off. apply byte_at_perm.
  - simpl in *. rewrite Hp1, Hp2. apply Permutation_rev.
  - eapply non_overlapping_perm; [|exact Hdis]. by rewrite Hp1.
Qed.

(** The same at two disjoint parts of a disk with sectors of 512 bytes. *)
Lemma add_parts_reverse_disjoint_witness :
  let a := mkPart (Some "disk.img") 1024 0 0 in
  let b := mkPart (Some "plain.img") 512 0 2048 in
  exists r1 r2,
    add_parts all_regular_files 512 [] [a; b] = Ok r1
    /\ add_parts all_regular_files 512 [] (rev [a; b]) = Ok r2
    /\ forall off, byte_at r1 off = byte_at r2 off.
Proof.
  intros a b.
  apply (add_parts_reverse_disjoint all_regular_files 512 [a; b]).
  - lia.
  - repeat constructor; by eexists.
  - repeat constructor.
    intros (off & Ha & Hb). rewrite !covers_spec in *. simpl in *. lia.
Defined.

End VmBaseFacts.

Module StructureFacts.
Import StructureHelper.

(** ** Integers and their byte encodings *)

Lemma Z_of_byte_range b : 0 <= Z_of_byte b < 256.
Proof.
  unfold Z_of_byte. pose proof (Byte.to_N_bounded b). lia.
Qed.

Lemma byte_of_Z_of_byte b : byte_of_Z (Z_of_byte b) = b.
Proof.
  unfold byte_of_Z, Z_of_byte. rewrite N2Z.id. by rewrite Byte.of_to_N.
Qed.

Lemma pow2_bytes_succ n :
  2 ^ (8 * Z.of_nat (S n)) = 256 * 2 ^ (8 * Z.of_nat n).
Proof.
  replace (8 * Z.of_nat (S n)) with (8 + 8 * Z.of_nat n) by lia.
  rewrite Z.pow_add_r by lia. done.
Qed.

Lemma decode_le_range bs :
  0 <= decode_le bs < 2 ^ (8 * Z.of_nat (List.length bs)).
Proof.
  induction bs as [|b bs IH].
  - simpl. lia.
  - cbn [decode_le List.length]. rewrite pow2_bytes_succ.
    pose proof (Z_of_byte_range b). lia.
Qed.

Lemma encode_decode_le bs : encode_le (List.length bs) (decode_le bs) = bs.
Proof.
  induction bs as [|b bs IH]; [done|].
  cbn [decode_le List.length encode_le].
  pose proof (Z_of_byte_range b) as Hb.
  replace ((Z_of_byte b + 256 * decode_le bs) mod 256) with (Z_of_byte b).
  2:{ apply (Z.mod_unique_pos _ _ (decode_le bs)); lia. }
  replace ((Z_of_byte b + 256 * decode_le bs) / 256) with (decode_le bs).
  2:{ apply (Z.div_unique_pos _ _ _ (Z_of_byte b)); lia. }
  by rewrite byte_of_Z_of_byte, IH.
Qed.

Lemma decode_int_range e bs :
  0 <= decode_int e bs < 2 ^ (8 * Z.of_nat (List.length bs)).
Proof.
  destruct e; simpl; [apply decode_le_range|].
  rewrite <- (length_rev bs). apply decode_le_range.
Qed.

Lemma encode_decode_int e bs :
  encode_int e (List.length bs) (decode_int e bs) = bs.
Proof.
  destruct e; simpl; [apply encode_decode_le|].
  rewrite <- (length_rev bs), encode_decode_le. apply rev_involutive.
Qed.

(** ** Items and formats *)

Lemma pack_unpack_item e it bs :
  List.length bs = item_size it ->
  pack_item e it (unpack_item e it bs) = Ok bs.
Proof.
  intros Hlen.
  assert (Hint : forall z,
            z = decode_int e bs ->
            (if (0 <=? z) && (z <? 2 ^ (8 * Z.of_nat (item_size it)))
             then Ok (encode_int e (item_size it) z)
             else Raise StructError) = Ok (E:=Error) bs).
  { intros z ->. pose proof (decode_int_range e bs) as Hr.
    rewrite Hlen in Hr.
    destruct (Z.leb_spec 0 (decode_int e bs)); [|lia].
    destruct (Z.ltb_spec (decode_int e bs) (2 ^ (8 * Z.of_nat (item_size it))));
      [|lia].
    simpl. by rewrite <- Hlen, encode_decode_int. }
  destruct it; try (by apply Hint).
  simpl in *. rewrite <- Hlen, Nat.sub_diag, firstn_all. simpl.
  by rewrite app_nil_r.
Qed.

Lemma pack_unpack_items e items : forall data,
  List.length data = calcsize (e, items) ->
  pack_items e items (unpack_items e items data) = Ok data.
Proof.
  unfold calcsize. simpl.
  induction items as [|it items IH]; intros data Hlen; simpl in *.
  - by destruct data.
  - rewrite pack_unpack_item.
    2:{ rewrite length_take. lia. }
    rewrite IH.
    2:{ rewrite length_drop. lia. }
    by rewrite take_drop.
Qed.

Lemma struct_pack_unpack fmt data :
  List.length data = calcsize fmt ->
  exists values,
    struct_unpack fmt data = Ok values /\ struct_pack fmt values = Ok data.
Proof.
  intros Hlen. exists (unpack_items fmt.1 fmt.2 data).
  unfold struct_unpack, struct_pack. rewrite Hlen, Nat.eqb_refl.
  split; [done|]. destruct fmt as [e items]. by apply pack_unpack_items.
Qed.

(** ** The VeraCrypt header *)

Import VeraCrypt.

Lemma VeraCryptHeader_struct_format :
  _get_struct_format VeraCryptHeader = Ok VeraCryptHeader_format.
Proof. reflexivity. Qed.

Lemma VeraCryptHeader_packed_size : packed_size = 448%nat.
Proof. reflexivity. Qed.

(** C7: every byte-string of the packed size of the header unpacks, and
    packing the result gives the byte-string back. *)
Theorem VeraCryptHeader_unpack_pack (x : bytes) :
  List.length x = packed_size ->
  exists h, unpack VeraCryptHeader x = Ok h /\ pack h = Ok x.
Proof.
  intros Hlen.
  destruct (struct_pack_unpack VeraCryptHeader_format x) as (values & Hu & Hp).
  { by rewrite Hlen. }
  unfold unpack, pack. rewrite VeraCryptHeader_struct_format, Hu.
  unfold struct_unpack in Hu. rewrite Hlen in Hu. simpl in Hu.
  injection Hu as <-.
  eexists. split; [reflexivity|]. exact Hp.
Qed.

(** The same at a byte-string of 448 bytes. *)
Lemma VeraCryptHeader_unpack_pack_witness :
  exists h,
    unpack VeraCryptHeader (replicate 448 Byte.x2a) = Ok h
    /\ pack h = Ok (replicate 448 Byte.x2a).
Proof.
  apply (VeraCryptHeader_unpack_pack (replicate 448 Byte.x2a)).
  reflexivity.
Defined.

End StructureFacts.

Module MainFacts.
Import Main.

Lemma elem_of_permutations2 {A} (pool : list A) x y :
  (x, y) ∈ permutations2 pool
  <-> exists i j, i <> j /\ pool !! i = Some x /\ pool !! j = Some y.
Proof.
  unfold permutations2. rewrite list_elem_of_bind. split.
  - intros ([i x'] & Hin & Hix).
    apply list_elem_of_bind in Hin as ([j y'] & Hin & Hjy).
    apply elem_of_lookup_imap in Hix as (i0 & x0 & [= -> ->] & Hx).
    apply elem_of_lookup_imap in Hjy as (j0 & y0 & [= -> ->] & Hy).
    simpl in Hin. destruct (decide (i0 = j0)); [by apply elem_of_nil in Hin|].
    apply list_elem_of_singleton in Hin as [= -> ->]. eauto.
  - intros (i & j & Hne & Hx & Hy).
    exists (i, x). split; [|by apply (elem_of_lookup_imap_2 pair)].
    apply list_elem_of_bind. exists (j, y).
    split; [|by apply (elem_of_lookup_imap_2 pair)].
    simpl. rewrite decide_False by done. by apply list_elem_of_singleton.
Qed.

(** On a pool without repetitions, as the iteration of a [set] is, the
    pairs are those of two different elements. *)
Lemma elem_of_permutations2_NoDup {A} (pool : list A) x y :
  NoDup pool ->
  (x, y) ∈ permutations2 pool <-> x ∈ pool /\ y ∈ pool /\ x <> y.
Proof.
  intros Hnd. rewrite elem_of_permutations2, !list_elem_of_lookup. split.
  - intros (i & j & Hne & Hx & Hy). repeat split; eauto.
    intros ->. apply Hne. by eapply NoDup_lookup.
  - intros ((i & Hx) & (j & Hy) & Hne). exists i, j.
    repeat split; try done. intros ->. congruence.
Qed.

(** What the final set holds when [--xts-combine-keys] is on. *)
Lemma elem_of_master_keys_xts master_key master_keys_file k :
  k ∈ master_keys master_key master_keys_file true
  <-> k ∈ supplied_keys master_key master_keys_file
      \/ exists k1 k2,
           k1 ∈ supplied_keys master_key master_keys_file
           /\ k2 ∈ supplied_keys master_key master_keys_file
           /\ k1 <> k2
           /\ List.length k1 = List.length k2
           /\ k = k1 ++ k2.
Proof.
  unfold master_keys.
  rewrite elem_of_union, elem_of_list_to_set, list_elem_of_fmap.
  apply or_iff_compat_l. split.
  - intros ([k1 k2] & -> & Hin).
    apply list_elem_of_filter in Hin as [Hlen Hin].
    apply elem_of_permutations2_NoDup in Hin as (H1 & H2 & Hne);
      [|apply NoDup_elements].
    rewrite !elem_of_elements in *. exists k1, k2. by repeat split.
  - intros (k1 & k2 & H1 & H2 & Hne & Hlen & ->).
    exists (k1, k2). split; [done|].
    apply list_elem_of_filter. split; [done|].
    apply elem_of_permutations2_NoDup; [apply NoDup_elements|].
    by rewrite !elem_of_elements.
Qed.

(** C9, counterexample: with the single key [01] supplied, the final set
    does not hold [01 01], the concatenation of the key with itself. *)
Lemma xts_key_not_combined_with_itself :
  ~ combines_every_pair [[Byte.x01]] None.
Proof.
  intros H.
  assert (Hk : [Byte.x01] ∈ supplied_keys [[Byte.x01]] None)
    by (apply elem_of_list_to_set, list_elem_of_singleton; done).
  specialize (H _ _ Hk Hk eq_refl).
  apply elem_of_master_keys_xts in H
      as [H | (k1 & k2 & H1 & H2 & Hne & _ & _)].
  - apply elem_of_list_to_set, list_elem_of_singleton in H. discriminate H.
  - apply elem_of_list_to_set, list_elem_of_singleton in H1, H2. congruence.
Qed.

(** C9, amended: the final set holds every supplied key and the
    concatenation of every ordered pair of two different supplied keys of
    equal length. *)
Theorem master_keys_xts_distinct_pairs master_key master_keys_file :
  supplied_keys master_key master_keys_file
    ⊆ master_keys master_key master_keys_file true
  /\ forall k1 k2,
       k1 ∈ supplied_keys master_key master_keys_file ->
       k2 ∈ supplied_keys master_key master_keys_file ->
       k1 <> k2 ->
       List.length k1 = List.length k2 ->
       k1 ++ k2 ∈ master_keys master_key master_keys_file true.
Proof.
  split.
  - intros k Hk. apply elem_of_master_keys_xts. by left.
  - intros k1 k2 H1 H2 Hne Hlen. apply elem_of_master_keys_xts.
    right. exists k1, k2. by repeat split.
Qed.

End MainFacts.

Module PluginsFacts.
Import Data Exec PluginsBase.

Section Dispatch.
Context {W : Type}.
Implicit Types (ps : list (PluginSpec W)) (name : Hook) (kwargs : Kwargs).

Lemma calls_cons name kwargs i n :
  calls name kwargs i (S n) = Call name i kwargs :: calls name kwargs (S i) n.
Proof. reflexivity. Qed.

(** One pass of the loop of [dispatch_until_result]. *)
Lemma dispatch_until_result_from_cons i p ps name kwargs (w : W) :
  dispatch_until_result_from i (p :: ps) name kwargs w
  = match p name kwargs w with
    | (Ok r, w0) =>
        if truthy r then (Returned r, w0, [Call name i kwargs])
        else
          let '(o, w', t) := dispatch_until_result_from (S i) ps name kwargs w0 in
          (o, w', Call name i kwargs :: t)
    | (Raise e, w0) => (Raised e, w0, [Call name i kwargs])
    end.
Proof.
  cbn [dispatch_until_result_from].
  unfold mbind, M_bind, bind, call, mbind, M_bind, bind, emit, host_op.
  destruct (p name kwargs w) as [[r|e] w0]; [|done].
  destruct (truthy r); [done|].
  by destruct (dispatch_until_result_from (S i) ps name kwargs w0) as [[o w'] t].
Qed.

(** The first truthy answer is returned, on the state its plugin left,
    after calls to the plugins up to it and to no other. *)
Lemma dispatch_until_result_from_first ps name kwargs : forall i (w : W) n r wn,
  answers ps name kwargs w !! n = Some (Ok r, wn) ->
  truthy r = true ->
  (forall m r' w'', (m < n)%nat ->
     answers ps name kwargs w !! m = Some (Ok r', w'') -> truthy r' = false) ->
  dispatch_until_result_from i ps name kwargs w
  = (Returned r, wn, calls name kwargs i (S n)).
Proof.
  induction ps as [|p ps IH]; intros i w n r wn Hn Hr Hbefore; [done|].
  rewrite dispatch_until_result_from_cons.
  cbn [answers] in Hn, Hbefore.
  destruct (p name kwargs w) as [[r0|e] w0].
  - destruct n as [|n].
    + injection Hn as -> ->. by rewrite Hr.
    + rewrite (Hbefore 0%nat r0 w0) by (done || lia).
      rewrite (IH (S i) w0 n r wn); try done.
      intros m r' w'' Hm. apply (Hbefore (S m)). lia.
  - destruct n; done.
Qed.

(** When no answer is truthy and no hook raises, every plugin is called
    and the result is null. *)
Lemma dispatch_until_result_from_none ps name kwargs : forall i (w : W),
  Forall (fun a => exists r, a.1 = Ok r /\ truthy r = false)
    (answers ps name kwargs w) ->
  exists w',
    dispatch_until_result_from i ps name kwargs w
    = (Returned RNone, w', calls name kwargs i (List.length ps)).
Proof.
  induction ps as [|p ps IH]; intros i w Hall.
  - by exists w.
  - rewrite dispatch_until_result_from_cons.
    cbn [answers] in Hall.
    destruct (p name kwargs w) as [[r0|e] w0].
    + apply Forall_cons in Hall as [(r & [= <-] & Hr) Hall]. rewrite Hr.
      destruct (IH (S i) w0 Hall) as (w' & ->). by exists w'.
    + apply Forall_cons in Hall as [(r & Hr & _) _]. done.
Qed.

(** A null result means that every plugin answered, and with a falsy
    value. *)
Lemma dispatch_until_result_from_null ps name kwargs : forall i (w : W) w' t,
  dispatch_until_result_from i ps name kwargs w = (Returned RNone, w', t) ->
  List.length (answers ps name kwargs w) = List.length ps
  /\ Forall (fun a => exists r, a.1 = Ok r /\ truthy r = false)
       (answers ps name kwargs w).
Proof.
  induction ps as [|p ps IH]; intros i w w' t Hd; [done|].
  rewrite dispatch_until_result_from_cons in Hd.
  cbn [answers].
  destruct (p name kwargs w) as [[r0|e] w0]; [|done].
  destruct (truthy r0) eqn:Hr0.
  - injection Hd as -> _ _. done.
  - destruct (dispatch_until_result_from (S i) ps name kwargs w0)
      as [[o w1] t1] eqn:Hrec.
    injection Hd as -> _ _.
    destruct (IH _ _ _ _ Hrec) as [Hlen Hall].
    split; [simpl; by rewrite Hlen|].
    constructor; [by exists r0|done].
Qed.

(** C5, amended: [dispatch_until_result] returns the first truthy answer
    in list order, on the state its plugin left, and has called the
    plugins up to that one and no other; a null result means that every
    plugin answered with a falsy value; and when every plugin answers
    with a falsy value the result is null and every plugin was called.
    For the values of the [mount] hook, falsy is null or the empty
    list. *)
Theorem dispatch_until_result_first_truthy (self : PluginManager W)
    name kwargs (w : W) :
  let rs := answers (all_plugins self) name kwargs w in
  (forall n r wn,
     rs !! n = Some (Ok r, wn) ->
     truthy r = true ->
     (forall m r' w'', (m < n)%nat ->
        rs !! m = Some (Ok r', w'') -> truthy r' = false) ->
     dispatch_until_result self name kwargs w
     = (Returned r, wn, calls name kwargs 0 (S n)))
  /\ (forall w' t,
        dispatch_until_result self name kwargs w = (Returned RNone, w', t) ->
        List.length rs = List.length (all_plugins self)
        /\ Forall (fun a => exists r, a.1 = Ok r /\ truthy r = false) rs)
  /\ (Forall (fun a => exists r, a.1 = Ok r /\ truthy r = false) rs ->
      exists w',
        dispatch_until_result self name kwargs w
        = (Returned RNone, w',
           calls name kwargs 0 (List.length (all_plugins self))))
  /\ (forall r, truthy r = false
                <-> r = RNone \/ r = RBool false \/ r = RVolumes []).
Proof.
  intros rs. split; [|split; [|split]].
  - intros n r wn. apply dispatch_until_result_from_first.
  - intros w' t Hd. by eapply dispatch_until_result_from_null.
  - apply dispatch_until_result_from_none.
  - intros r. split.
    + destruct r as [|[]| | |[]]; simpl; intros; auto; discriminate.
    + intros [->|[->| ->]]; done.
Qed.
End Dispatch.

(** C5, counterexample: the first plugin answers with the empty list,
    which is not null; the dispatch goes on, calls the second plugin and
    returns its mount point. *)
Lemma dispatch_skips_empty_list :
  let self := mkPluginManager [empty_container_plugin; filesystem_plugin] [] in
  let kwargs := KwVolume example_disk example_volume in
  dispatch_until_result self mount kwargs tt
  = (Returned (RPath "/tmp/mnt"), tt, calls mount kwargs 0 2)
  /\ ~ returns_first_non_null self mount kwargs tt.
Proof.
  intros self kwargs. split; [done|].
  intros [H _].
  destruct (H 0%nat (RVolumes []) tt) as [Ho _]; try done.
  intros m ? ? Hm. lia.
Qed.

End PluginsFacts.

Module PasswordBypassFacts.
Import PasswordBypass.

(** ** Splitting and joining *)

Lemma string_app_nil_r (s : string) : s +:+ EmptyString = s.
Proof.
  induction s as [|c s IH]; [done|].
  change (String c (s +:+ EmptyString) = String c s). by rewrite IH.
Qed.

Lemma string_app_assoc (s1 s2 s3 : string) :
  (s1 +:+ s2) +:+ s3 = s1 +:+ (s2 +:+ s3).
Proof.
  induction s1 as [|c s1 IH]; [done|].
  change (String c ((s1 +:+ s2) +:+ s3) = String c (s1 +:+ (s2 +:+ s3))).
  by rewrite IH.
Qed.

Lemma split_acc_not_nil sep field s : split_acc sep field s <> [].
Proof.
  revert field. induction s as [|c s IH]; intros field; simpl; [done|].
  destruct (Ascii.eqb c sep); [done|apply IH].
Qed.

Lemma join_cons sep x l :
  l <> [] -> join sep (x :: l) = x +:+ sep +:+ join sep l.
Proof. by destruct l. Qed.

Lemma join_split_acc (sep : ascii) field s :
  join (String sep EmptyString) (split_acc sep field s) = field +:+ s.
Proof.
  revert field. induction s as [|c s IH]; intros field; simpl.
  - by rewrite string_app_nil_r.
  - destruct (Ascii.eqb_spec c sep) as [->|Hne].
    + rewrite join_cons by apply split_acc_not_nil. by rewrite IH.
    + rewrite IH. unfold snoc. by rewrite string_app_assoc.
Qed.

(** Joining the fields of a line with the separator gives the line back. *)
Lemma join_split (sep : ascii) s :
  join (String sep EmptyString) (split sep s) = s.
Proof. apply join_split_acc. Qed.

(** ** The loop over the entries *)

Section Reset.
Context {Rng : Type}.
Variable crypt : string -> CryptMethod -> Rng -> string * Rng.
Variable hash_method : CryptMethod.

Lemma reset_entries_spec entries : forall rng,
  Forall2 (entry_reset crypt hash_method) entries
    (reset_entries crypt hash_method entries rng).1.
Proof.
  induction entries as [|e entries IH]; intros rng; simpl; [constructor|].
  unfold is_reset, entry_reset.
  destruct (e !! 1%nat) as [pw|] eqn:Hpw; simpl.
  - destruct (decide (pw = "!" \/ pw = "*")) as [Hlocked|Hfree].
    + rewrite bool_decide_eq_true_2 by done. simpl.
      specialize (IH rng).
      destruct (reset_entries crypt hash_method entries rng) as [rest rng2].
      constructor; [|done]. rewrite Hpw. by rewrite decide_True.
    + rewrite bool_decide_eq_false_2 by done. simpl.
      destruct (hash_password crypt hash_method NEW_PASSWORD rng)
        as [h rng1] eqn:Hh.
      specialize (IH rng1).
      destruct (reset_entries crypt hash_method entries rng1) as [rest rng2].
      constructor; [|done]. rewrite Hpw, decide_False by done.
      split; [apply length_insert|].
      split; [intros j Hj; by apply list_lookup_insert_ne|].
      exists rng. rewrite Hh. simpl. apply list_lookup_insert_eq.
      by eapply lookup_lt_Some.
  - specialize (IH rng).
    destruct (reset_entries crypt hash_method entries rng) as [rest rng2].
    constructor; [|done]. by rewrite Hpw.
Qed.
End Reset.

(** C8, counterexample: a line whose password field is empty gets a hash,
    where the claim leaves it as it is. *)
Lemma empty_password_field_is_reset :
  let files : Files := {[ "/mnt/etc/shadow" := "guest::19000" ]} in
  (modify_filesystem example_crypt METHOD_SHA256 "/mnt" (files, 0%nat)).1
    !! "/mnt/etc/shadow"
  = Some "guest:$5$0$newpwd:19000"
  /\ ~ resets_nonempty_unlocked example_crypt METHOD_SHA256 "/mnt" files 0%nat.
Proof.
  intros files.
  assert (Hout : (modify_filesystem example_crypt METHOD_SHA256 "/mnt"
                    (files, 0%nat)).1 !! "/mnt/etc/shadow"
                 = Some "guest:$5$0$newpwd:19000") by (vm_compute; reflexivity).
  split; [exact Hout|].
  intros H. destruct (H "guest::19000") as (lines' & Hlines & Hwritten).
  { vm_compute. reflexivity. }
  pose proof (eq_trans (eq_sym Hout) Hwritten) as Heq. clear Hout Hwritten.
  change (splitlines "guest::19000") with ["guest::19000"] in Hlines.
  inversion Hlines as [|? l' ? ? Hline Hrest]; subst.
  inversion Hrest; subst.
  vm_compute in Hline. subst l'. discriminate Heq.
Qed.

(** C8, amended: [modify_filesystem] of the plugin as [main] builds it
    (SHA-256 crypt) rewrites the shadow file line by line; in every line with
    at least two colon-separated fields whose second field is neither [!]
    nor [*] (an empty field included) the second field becomes a crypt of
    [newpwd]; every other field, and every other line, stays as it is; no
    other file changes. *)
Theorem modify_filesystem_resets_unlocked {Rng}
    (crypt : string -> CryptMethod -> Rng -> string * Rng)
    (filesystem_mount : Path) (files : Files) (rng : Rng) (content : string) :
  exists entries' rng',
    modify_filesystem crypt METHOD_SHA256 filesystem_mount
      (<[shadow_path filesystem_mount := content]> files, rng)
    = (<[shadow_path filesystem_mount :=
           join (String "010" EmptyString) (join ":" <$> entries')]> files, rng')
    /\ Forall2
         (fun line e' =>
            entry_reset crypt METHOD_SHA256 (split ":" line) e'
            /\ (e' = split ":" line -> join ":" e' = line))
         (splitlines content) entries'.
Proof.
  unfold modify_filesystem. cbv beta iota zeta. rewrite lookup_insert_eq.
  pose proof (reset_entries_spec crypt METHOD_SHA256
                (split ":" <$> splitlines content) rng) as Hspec.
  destruct (reset_entries crypt METHOD_SHA256
              (split ":" <$> splitlines content) rng) as [entries' rng'].
  exists entries', rng'. split; [by rewrite insert_insert_eq|].
  simpl in Hspec. rewrite Forall2_fmap_l in Hspec.
  eapply Forall2_impl; [exact Hspec|].
  intros line e' He. split; [done|].
  intros ->. apply (join_split ":").
Qed.

End PasswordBypassFacts.


Module ExecFacts.
Import Data Exec.

Section Rules.
Context {S : Type}.
Variable I : S -> Prop.
Variable E : Event -> Prop.

Lemma hoare_conseq {A} (P P' : S -> Prop) (Q Q' : A -> S -> Prop) (m : M S A) :
  hoare I E P' m Q' ->
  (forall s, P s -> P' s) ->
  (forall a s, Q' a s -> Q a s) ->
  hoare I E P m Q.
Proof.
  intros Hm HP HQ s Hs. destruct (Hm s (HP s Hs)) as (HI & HE & Ho).
  repeat split; try done. destruct ((m s).1.1); auto.
Qed.

Lemma hoare_pre {A} (P P' : S -> Prop) (Q : A -> S -> Prop) (m : M S A) :
  hoare I E P' m Q -> (forall s, P s -> P' s) -> hoare I E P m Q.
Proof. intros Hm HP. eapply hoare_conseq; eauto. Qed.

Lemma hoare_post_true {A} (P : S -> Prop) (Q : A -> S -> Prop) (m : M S A) :
  hoare I E P m Q -> hoare I E P m (fun _ _ => True).
Proof. intros Hm. eapply hoare_conseq; eauto. Qed.

(** The invariant holds wherever a computation stops, so it may be added
    to what is known after a return. *)
Lemma hoare_post_inv {A} (P : S -> Prop) (Q : A -> S -> Prop) (m : M S A) :
  hoare I E P m Q -> hoare I E P m (fun a s => I s /\ Q a s).
Proof.
  intros Hm s Hs. destruct (Hm s Hs) as (HI & HE & Ho).
  repeat split; try done. destruct ((m s).1.1); auto.
Qed.

Lemma hoare_ret {A} (P : S -> Prop) (Q : A -> S -> Prop) (a : A) :
  (forall s, P s -> I s /\ Q a s) -> hoare I E P (ret a) Q.
Proof. intros H s Hs. destruct (H s Hs). simpl. auto. Qed.

Lemma hoare_raise {A} (P : S -> Prop) (Q : A -> S -> Prop) e :
  (forall s, P s -> I s) -> hoare I E P (raise e) Q.
Proof. intros H s Hs. simpl. auto. Qed.

Lemma hoare_unfinished {A} (P : S -> Prop) (Q : A -> S -> Prop) :
  (forall s, P s -> I s) -> hoare I E P (@unfinished S A) Q.
Proof. intros H s Hs. simpl. auto. Qed.

Lemma hoare_bind {A B} (P : S -> Prop) (Q : A -> S -> Prop) (R : B -> S -> Prop)
    (m : M S A) (k : A -> M S B) :
  hoare I E P m Q ->
  (forall a, hoare I E (Q a) (k a) R) ->
  hoare I E P (m ≫= k) R.
Proof.
  intros Hm Hk s Hs. unfold mbind, M_bind, bind.
  destruct (Hm s Hs) as (HI & HE & Ho).
  destruct (m s) as [[[a|e|] s'] t]; simpl in *; try done.
  destruct (Hk a s' Ho) as (HI' & HE' & Ho').
  destruct (k a s') as [[o s''] t']; simpl in *.
  repeat split; try done. by apply Forall_app.
Qed.

(** The state read by [get] is known to the rest of the computation. *)
Lemma hoare_bind_get {B} (P : S -> Prop) (R : B -> S -> Prop) (k : S -> M S B) :
  (forall s0, P s0 -> hoare I E (fun s => s = s0) (k s0) R) ->
  hoare I E P (get ≫= k) R.
Proof.
  intros Hk s Hs. unfold mbind, M_bind, bind, get.
  destruct (Hk s Hs s eq_refl) as (HI & HE & Ho).
  destruct (k s s) as [[o s'] t]; simpl in *. done.
Qed.

Lemma hoare_try_except {A} (P : S -> Prop) (Q : A -> S -> Prop)
    (m handler : M S A) :
  hoare I E P m Q ->
  hoare I E I handler Q ->
  hoare I E P (try_except m handler) Q.
Proof.
  intros Hm Hh s Hs. unfold try_except.
  destruct (Hm s Hs) as (HI & HE & Ho).
  destruct (m s) as [[[a|[]|] s'] t]; simpl in *; try done.
  destruct (Hh s' HI) as (HI' & HE' & Ho').
  destruct (handler s') as [[o s''] t']; simpl in *.
  repeat split; try done. by apply Forall_app.
Qed.

Lemma hoare_try_finally {A} (P : S -> Prop) (Q : A -> S -> Prop)
    (m : M S A) (fin : M S unit) :
  hoare I E P m Q ->
  hoare I E I fin (fun _ _ => True) ->
  hoare I E P (try_finally m fin) (fun _ _ => True).
Proof.
  intros Hm Hf s Hs. unfold try_finally.
  destruct (Hm s Hs) as (HI & HE & Ho).
  destruct (m s) as [[o s'] t]; simpl in *.
  destruct (Hf s' HI) as (HI' & HE' & _).
  destruct (fin s') as [[o' s''] t']; simpl in *.
  assert (Forall E (t ++ t')) by (by apply Forall_app).
  destruct o, o'; simpl; repeat split; done.
Qed.

Lemma hoare_for_each {X} (l : list X) (body : X -> M S unit) :
  (forall x, x ∈ l -> hoare I E I (body x) (fun _ _ => True)) ->
  hoare I E I (for_each l body) (fun _ _ => True).
Proof.
  induction l as [|x l IH]; intros Hbody; simpl.
  - by apply hoare_ret.
  - eapply hoare_bind.
    + apply hoare_post_inv, Hbody. by left.
    + intros u. eapply hoare_pre; [apply IH|by intros s [? _]].
      intros y Hy. apply Hbody. by right.
Qed.
End Rules.

(** ** Computations on the world and on the disk under analysis *)

Section Disk.
Context {W : Type}.
Variable ID : DiskInfo -> Prop.
Variable E : Event -> Prop.

Lemma hoareD_bind_get_disk {B} (PD : DiskInfo -> Prop) (R : B -> DiskInfo -> Prop)
    (k : DiskInfo -> M (State W) B) :
  (forall d, PD d -> hoareD ID E (fun d' => d' = d) (k d) R) ->
  hoareD ID E PD (get_disk ≫= k) R.
Proof.
  intros Hk s Hs. unfold mbind, M_bind, bind, get_disk.
  destruct (Hk (disk s) Hs s eq_refl) as (HI & HE & Ho).
  destruct (k (disk s) s) as [[o s'] t]; simpl in *. done.
Qed.

Lemma hoareD_bind_get {B} (PD : DiskInfo -> Prop) (R : B -> DiskInfo -> Prop)
    (k : State W -> M (State W) B) :
  (forall s0, PD (disk s0) -> hoareD ID E (fun d' => d' = disk s0) (k s0) R) ->
  hoareD ID E PD (get ≫= k) R.
Proof.
  intros Hk s Hs. unfold mbind, M_bind, bind, get.
  destruct (Hk s Hs s eq_refl) as (HI & HE & Ho).
  destruct (k s s) as [[o s'] t]; simpl in *. done.
Qed.

Lemma hoareD_on_world {A} (PD : DiskInfo -> Prop) (m : M W A) :
  (forall d, PD d -> ID d) ->
  (forall w, Forall E (m w).2) ->
  hoareD ID E PD (on_world m) (fun _ d => PD d).
Proof.
  intros HP Hm s Hs. unfold on_world. specialize (Hm (world s)).
  destruct (m (world s)) as [[o w'] t]; simpl in *.
  repeat split; auto. by destruct o.
Qed.

Lemma hoareD_modify_disk_info (PD : DiskInfo -> Prop) (QD : unit -> DiskInfo -> Prop)
    (f : DiskInfo -> DiskInfo) :
  (forall d, PD d -> ID (f d) /\ QD tt (f d)) ->
  hoareD ID E PD (@modify_disk_info W f) QD.
Proof. intros Hf s Hs. destruct (Hf _ Hs). simpl. auto. Qed.

(** What a computation on a fresh [DiskInfo] object adds to the calls made
    on the world. *)
Lemma with_disk_info_events {A} (PD : DiskInfo -> Prop) (QD : A -> DiskInfo -> Prop)
    (d : DiskInfo) (m : M (State W) A) (w : W) :
  hoareD ID E PD m QD -> PD d -> Forall E (with_disk_info d m w).2.
Proof.
  intros Hm Hd. unfold with_disk_info.
  destruct (Hm (mkState w d) Hd) as (_ & HE & _).
  by destruct (m (mkState w d)) as [[o s'] t].
Qed.

Lemma host_op_events {A} (f : W -> Result Exn A * W) (w : W) :
  (host_op f w).2 = [].
Proof. unfold host_op. by destruct (f w) as [[a|e] w']. Qed.
Lemma hoareD_conseq {A} (PD PD' : DiskInfo -> Prop) (QD QD' : A -> DiskInfo -> Prop)
    (m : M (State W) A) :
  hoareD ID E PD' m QD' ->
  (forall d, PD d -> PD' d) ->
  (forall a d, QD' a d -> QD a d) ->
  hoareD ID E PD m QD.
Proof. intros Hm HP HQ. eapply hoare_conseq; [exact Hm| |]; simpl; auto. Qed.

Lemma hoareD_post_inv {A} (PD : DiskInfo -> Prop) (QD : A -> DiskInfo -> Prop)
    (m : M (State W) A) :
  hoareD ID E PD m QD -> hoareD ID E PD m (fun a d => ID d /\ QD a d).
Proof. intros Hm. by apply hoare_post_inv in Hm. Qed.

Lemma hoareD_ret {A} (PD : DiskInfo -> Prop) (QD : A -> DiskInfo -> Prop) (a : A) :
  (forall d, PD d -> ID d /\ QD a d) ->
  hoareD ID E PD (ret a : M (State W) A) QD.
Proof. intros H. apply hoare_ret. intros s. apply H. Qed.

Lemma hoareD_raise {A} (PD : DiskInfo -> Prop) (QD : A -> DiskInfo -> Prop) e :
  (forall d, PD d -> ID d) ->
  hoareD ID E PD (raise e : M (State W) A) QD.
Proof. intros H. apply hoare_raise. intros s. apply H. Qed.

Lemma hoareD_unfinished {A} (PD : DiskInfo -> Prop) (QD : A -> DiskInfo -> Prop) :
  (forall d, PD d -> ID d) -> hoareD ID E PD (@unfinished (State W) A) QD.
Proof. intros H. apply hoare_unfinished. intros s. apply H. Qed.

Lemma hoareD_bind {A B} (PD : DiskInfo -> Prop) (QD : A -> DiskInfo -> Prop)
    (RD : B -> DiskInfo -> Prop) (m : M (State W) A) (k : A -> M (State W) B) :
  hoareD ID E PD m QD ->
  (forall a, hoareD ID E (QD a) (k a) RD) ->
  hoareD ID E PD (m ≫= k) RD.
Proof. intros Hm Hk. eapply hoare_bind; [exact Hm|exact Hk]. Qed.

Lemma hoareD_try_except {A} (PD : DiskInfo -> Prop) (QD : A -> DiskInfo -> Prop)
    (m handler : M (State W) A) :
  hoareD ID E PD m QD ->
  hoareD ID E ID handler QD ->
  hoareD ID E PD (try_except m handler) QD.
Proof. intros Hm Hh. by apply hoare_try_except. Qed.

Lemma hoareD_try_finally {A} (PD : DiskInfo -> Prop) (QD : A -> DiskInfo -> Prop)
    (m : M (State W) A) (fin : M (State W) unit) :
  hoareD ID E PD m QD ->
  hoareD ID E ID fin (fun _ _ => True) ->
  hoareD ID E PD (try_finally m fin) (fun _ _ => True).
Proof. intros Hm Hf. by eapply (hoare_try_finally _ _ _ (fun a s => QD a (disk s))). Qed.

Lemma hoareD_for_each {X} (l : list X) (body : X -> M (State W) unit) :
  (forall x, x ∈ l -> hoareD ID E ID (body x) (fun _ _ => True)) ->
  hoareD ID E ID (for_each l body) (fun _ _ => True).
Proof. intros Hbody. by apply hoare_for_each. Qed.
End Disk.

End ExecFacts.

Module RunnerFacts.
Import Data Exec PluginsBase Runner ExecFacts.

(** ** The calls a dispatch makes *)

Section DispatchEvents.
Context {W : Type}.
Variable E : Event -> Prop.

Lemma dispatch_all_from_events (ps : list (PluginSpec W)) name kwargs :
  (forall i, E (Call name i kwargs)) ->
  forall i w, Forall E (dispatch_all_from i ps name kwargs w).2.
Proof.
  intros HE. induction ps as [|p ps IH]; intros i w; [by constructor|].
  cbn [dispatch_all_from].
  unfold mbind, M_bind, bind, call, mbind, M_bind, bind, emit, host_op.
  destruct (p name kwargs w) as [[r|e] w0]; simpl.
  - specialize (IH (S i) w0).
    destruct (dispatch_all_from (S i) ps name kwargs w0) as [[o w'] t].
    simpl in *. by constructor.
  - by repeat constructor.
Qed.

Lemma dispatch_all_events (self : PluginManager W) name kwargs :
  (forall i, E (Call name i kwargs)) ->
  forall w, Forall E (dispatch_all self name kwargs w).2.
Proof. intros HE w. by apply dispatch_all_from_events. Qed.

Lemma dispatch_until_result_from_events (ps : list (PluginSpec W)) name kwargs :
  (forall i, E (Call name i kwargs)) ->
  forall i w, Forall E (dispatch_until_result_from i ps name kwargs w).2.
Proof.
  intros HE. induction ps as [|p ps IH]; intros i w; [by constructor|].
  rewrite PluginsFacts.dispatch_until_result_from_cons.
  destruct (p name kwargs w) as [[r|e] w0]; simpl.
  - destruct (truthy r); [by repeat constructor|].
    specialize (IH (S i) w0).
    destruct (dispatch_until_result_from (S i) ps name kwargs w0) as [[o w'] t].
    simpl in *. by constructor.
  - by repeat constructor.
Qed.

Lemma dispatch_until_result_events (self : PluginManager W) name kwargs :
  (forall i, E (Call name i kwargs)) ->
  forall w, Forall E (dispatch_until_result self name kwargs w).2.
Proof. intros HE w. by apply dispatch_until_result_from_events. Qed.
End DispatchEvents.

(** ** The helpers of the runner *)

Section Helpers.
Context {W : Type}.
Variable host : Host W.
Variable plugins : PluginManager W.
Variable ID : DiskInfo -> Prop.
Variable E : Event -> Prop.

(** The volume read by [volume_at], and the disk it is read from, are
    known to the rest of the computation. *)
Lemma hoareD_bind_volume_at {B} (PD : DiskInfo -> Prop) (R : B -> DiskInfo -> Prop)
    idx (k : VolumeInfo -> M (State W) B) :
  (forall d, PD d -> ID d) ->
  (forall d v, PD d -> volumes d !! idx = Some v ->
     hoareD ID E (fun d' => d' = d) (k v) R) ->
  hoareD ID E PD (volume_at idx ≫= k) R.
Proof.
  intros HP Hk s Hs.
  unfold volume_at, mbind, M_bind, bind, get_disk.
  destruct (volumes (disk s) !! idx) as [v|] eqn:Hv; simpl.
  - destruct (Hk (disk s) v Hs Hv s eq_refl) as (HI & HE & Ho).
    destruct (k v s) as [[o s'] t]; simpl in *. done.
  - repeat split; auto.
Qed.

Lemma hoareD_dispatch_all_volume (PD : DiskInfo -> Prop) name idx :
  (forall d, PD d -> ID d) ->
  (forall d v i, PD d -> volumes d !! idx = Some v ->
     E (Call name i (KwVolume d v))) ->
  hoareD ID E PD (dispatch_all_volume plugins name idx) (fun _ d => PD d).
Proof.
  intros HP HE. unfold dispatch_all_volume.
  apply hoareD_bind_get_disk. intros d Hd.
  apply hoareD_bind_volume_at; [by intros d' ->; auto|].
  intros d' v -> Hv.
  eapply hoareD_conseq.
  - apply (hoareD_on_world ID E (fun d' => d' = d)).
    + intros d' ->. auto.
    + apply dispatch_all_events. intros i. by apply HE.
  - done.
  - by intros _ d' ->.
Qed.

Lemma hoareD_dispatch_until_result_volume (PD : DiskInfo -> Prop) name idx :
  (forall d, PD d -> ID d) ->
  (forall d v i, PD d -> volumes d !! idx = Some v ->
     E (Call name i (KwVolume d v))) ->
  hoareD ID E PD (dispatch_until_result_volume plugins name idx)
    (fun _ d => PD d).
Proof.
  intros HP HE. unfold dispatch_until_result_volume.
  apply hoareD_bind_get_disk. intros d Hd.
  apply hoareD_bind_volume_at; [by intros d' ->; auto|].
  intros d' v -> Hv.
  eapply hoareD_conseq.
  - apply (hoareD_on_world ID E (fun d' => d' = d)).
    + intros d' ->. auto.
    + apply dispatch_until_result_events. intros i. by apply HE.
  - done.
  - by intros _ d' ->.
Qed.

Lemma hoareD_dispatch_all_disk (PD : DiskInfo -> Prop) name :
  (forall d, PD d -> ID d) ->
  (forall d i, PD d -> E (Call name i (KwDisk d))) ->
  hoareD ID E PD (dispatch_all_disk plugins name) (fun _ d => PD d).
Proof.
  intros HP HE. unfold dispatch_all_disk.
  apply hoareD_bind_get_disk. intros d Hd.
  eapply hoareD_conseq.
  - apply (hoareD_on_world ID E (fun d' => d' = d)).
    + intros d' ->. auto.
    + apply dispatch_all_events. intros i. by apply HE.
  - done.
  - by intros _ d' ->.
Qed.

Lemma hoareD_host_op {A} (PD : DiskInfo -> Prop) (f : W -> Result Exn A * W) :
  (forall d, PD d -> ID d) ->
  hoareD ID E PD (on_world (host_op f)) (fun _ d => PD d).
Proof.
  intros HP. apply hoareD_on_world; [done|].
  intros w. rewrite host_op_events. constructor.
Qed.

Lemma hoareD_append_volume (PD : DiskInfo -> Prop) (QD : nat -> DiskInfo -> Prop) v :
  (forall d, PD d ->
     ID (set_volumes (volumes d ++ [v]) d)
     /\ QD (List.length (volumes d)) (set_volumes (volumes d ++ [v]) d)) ->
  hoareD ID E PD (@append_volume W v) QD.
Proof.
  intros H. unfold append_volume.
  apply hoareD_bind_get_disk. intros d Hd.
  eapply hoareD_bind.
  - apply (hoareD_modify_disk_info ID E _
             (fun _ d' => d' = set_volumes (volumes d ++ [v]) d)).
    intros d' ->. split; [apply H, Hd|done].
  - intros []. apply hoareD_ret. intros d' ->. by apply H.
Qed.

Lemma hoareD_update_volume (PD : DiskInfo -> Prop) (QD : unit -> DiskInfo -> Prop)
    idx f :
  (forall d, PD d ->
     ID (set_volumes (alter f idx (volumes d)) d)
     /\ QD tt (set_volumes (alter f idx (volumes d)) d)) ->
  hoareD ID E PD (@update_volume W idx f) QD.
Proof. intros H. by apply hoareD_modify_disk_info. Qed.

Lemma hoareD_refresh_disk_info (PD : DiskInfo -> Prop) :
  (forall d, PD d -> ID d) ->
  (forall d i, PD d -> ID (set_disk_info i d) /\ PD (set_disk_info i d)) ->
  hoareD ID E PD (refresh_disk_info host) (fun _ d => PD d).
Proof.
  intros HP H. unfold refresh_disk_info.
  apply hoareD_bind_get_disk. intros d Hd.
  eapply hoareD_bind.
  - apply (hoareD_host_op (fun d' => d' = d)). by intros d' ->; auto.
  - intros i. apply hoareD_modify_disk_info. intros d' ->. by apply H.
Qed.


(** ** Teardown of one group *)

Lemma unmount_filesystems_of_ok (group : list (nat * VolumeInfo)) :
  (forall iv d v i, iv ∈ group -> ID d -> volumes d !! iv.1 = Some v ->
     E (Call unmount_filesystem i (KwVolume d v))) ->
  (forall idx d, ID d ->
     ID (set_volumes (alter (set_filesystem_mount None) idx (volumes d)) d)) ->
  hoareD ID E ID (unmount_filesystems_of host plugins group) (fun _ _ => True).
Proof.
  intros HE Hupd. unfold unmount_filesystems_of.
  apply hoareD_for_each. intros iv Hiv.
  apply hoareD_bind_volume_at; [done|]. intros d v Hd Hv.
  destruct (filesystem_mount v) as [m|];
    [|apply hoareD_ret; by intros d' ->].
  eapply hoareD_bind;
    [apply (hoareD_host_op (fun d' => d' = d)); by intros d' ->|].
  intros [|]; [|apply hoareD_ret; by intros d' ->].
  apply hoareD_try_except; [|by apply hoareD_ret].
  eapply hoareD_bind.
  - apply (hoareD_dispatch_until_result_volume (fun d' => d' = d)).
    + by intros d' ->.
    + intros d' v' i -> Hv'. by apply (HE iv).
  - intros res. destruct (truthy res).
    + apply hoareD_update_volume. intros d' ->. auto.
    + apply hoareD_ret. by intros d' ->.
Qed.

Lemma unmount_volumes_of_ok (group : list (nat * VolumeInfo)) :
  (forall iv d v i, iv ∈ group -> ID d -> volumes d !! iv.1 = Some v ->
     E (Call unmount_volume i (KwVolume d v))) ->
  (forall idx d, ID d ->
     ID (set_volumes (alter (set_flat_mount None) idx (volumes d)) d)) ->
  hoareD ID E ID (unmount_volumes_of host plugins group) (fun _ _ => True).
Proof.
  intros HE Hupd. unfold unmount_volumes_of.
  apply hoareD_for_each. intros iv Hiv.
  apply hoareD_bind_volume_at; [done|]. intros d v Hd Hv.
  destruct (flat_mount v) as [m|];
    [|apply hoareD_ret; by intros d' ->].
  eapply hoareD_bind;
    [apply (hoareD_host_op (fun d' => d' = d)); by intros d' ->|].
  intros [|]; [|apply hoareD_ret; by intros d' ->].
  apply hoareD_try_except; [|by apply hoareD_ret].
  eapply hoareD_bind.
  - apply (hoareD_dispatch_until_result_volume (fun d' => d' = d)).
    + by intros d' ->.
    + intros d' v' i -> Hv'. by apply (HE iv).
  - intros res. destruct (truthy res).
    + apply hoareD_update_volume. intros d' ->. auto.
    + apply hoareD_ret. by intros d' ->.
Qed.

End Helpers.

(** ** Read-only disks *)

Section ReadOnly.
Context {W : Type}.
Variable host : Host W.
Variable plugins : PluginManager W.
Variable ro : bool.

(** The flag of the [DiskInfo] object is the one it was created with. *)
Let ID (d : DiskInfo) : Prop := readonly d = ro.
Let E : Event -> Prop := modify_only_writable ro.

Lemma not_modify_ok name i kwargs :
  is_modify name = false -> E (Call name i kwargs).
Proof. intros Hname Hm. simpl in Hm. congruence. Qed.

Lemma modify_writable_ok name i kwargs :
  ro = false -> readonly (kw_disk kwargs) = false -> E (Call name i kwargs).
Proof. intros Hro Hd _. done. Qed.

Lemma hoareD_seq {A B} (m : M (State W) A) (k : A -> M (State W) B)
    (Q : A -> DiskInfo -> Prop) (R : B -> DiskInfo -> Prop) :
  hoareD ID E ID m Q ->
  (forall a, hoareD ID E ID (k a) R) ->
  hoareD ID E ID (m ≫= k) R.
Proof.
  intros Hm Hk. eapply hoareD_bind; [apply hoareD_post_inv, Hm|].
  intros a. eapply hoareD_conseq; [apply Hk| |done]. by intros d [? _].
Qed.

(** The guarded dispatch of a [modify_*] hook for a volume. *)
Lemma guarded_modify_volume_ok name idx :
  hoareD ID E ID
    (d ← get_disk;
     if negb (readonly d) then dispatch_all_volume plugins name idx else ret tt)
    (fun _ _ => True).
Proof.
  apply hoareD_bind_get_disk. intros d Hd.
  destruct (readonly d) eqn:Hro; simpl.
  - apply hoareD_ret. by intros d' ->.
  - eapply hoareD_conseq.
    + apply (hoareD_dispatch_all_volume plugins ID E (fun d' => d' = d)).
      * by intros d' ->.
      * intros d' v i -> _. apply modify_writable_ok; [|done].
        unfold ID in Hd. congruence.
    + done.
    + done.
Qed.

Lemma unmount_partitions_and_filesystems_ro :
  hoareD ID E ID (unmount_partitions_and_filesystems host plugins)
    (fun _ _ => True).
Proof.
  unfold unmount_partitions_and_filesystems.
  apply hoareD_bind_get_disk. intros d Hd.
  eapply hoareD_conseq; [apply hoareD_for_each| |done]; [|by intros d' ->].
  intros g _. eapply hoareD_seq.
  - apply unmount_filesystems_of_ok; [|done].
    intros. by apply not_modify_ok.
  - intros []. apply unmount_volumes_of_ok; [|done].
    intros. by apply not_modify_ok.
Qed.

Lemma _add_partition_info_ro offset size volume_type :
  hoareD ID E ID (_add_partition_info host plugins offset size volume_type)
    (fun _ _ => True).
Proof.
  unfold _add_partition_info.
  apply hoareD_bind_get_disk. intros d Hd.
  eapply hoareD_bind.
  { apply (hoareD_host_op ID E (fun d' => d' = d)). by intros d' ->. }
  intros loop_dev. eapply hoareD_bind.
  { apply (hoareD_append_volume ID E _ (fun _ d' => ID d')).
    by intros d' ->. }
  intros idx. eapply hoareD_seq.
  { apply (hoareD_dispatch_all_volume plugins ID E ID); [done|].
    intros. by apply not_modify_ok. }
  intros []. apply guarded_modify_volume_ok.
Qed.

Lemma _mount_partitions_ro :
  hoareD ID E ID (_mount_partitions host plugins) (fun _ _ => True).
Proof.
  unfold _mount_partitions.
  apply hoareD_bind_get_disk. intros d Hd.
  destruct (partition_scheme d).
  - eapply hoareD_conseq; [apply hoareD_for_each| |done]; [|by intros d' ->].
    intros p _. apply hoareD_bind_get_disk. intros d' Hd'.
    eapply hoareD_conseq; [apply _add_partition_info_ro| |done].
    by intros d'' ->.
  - eapply hoareD_conseq; [apply hoareD_for_each| |done]; [|by intros d' ->].
    intros p _. apply hoareD_bind_get_disk. intros d' Hd'.
    eapply hoareD_conseq; [apply _add_partition_info_ro| |done].
    by intros d'' ->.
  - apply hoareD_ret. by intros d' ->.
Qed.

Lemma add_new_volume_ro idx new_p :
  hoareD ID E ID (add_new_volume host plugins idx new_p) (fun _ _ => True).
Proof.
  unfold add_new_volume.
  apply hoareD_bind_volume_at; [done|]. intros d p Hd Hp.
  eapply hoareD_bind.
  { instantiate (1 := fun _ d' => d' = d).
    destruct (size _ =? 0).
    - eapply hoareD_bind.
      + apply (hoareD_host_op ID E (fun d' => d' = d)). by intros d' ->.
      + intros n. apply hoareD_ret. by intros d' ->.
    - apply hoareD_ret. by intros d' ->. }
  intros new_p'. eapply hoareD_bind.
  { apply (hoareD_append_volume ID E _ (fun _ d' => ID d')).
    by intros d' ->. }
  intros new_idx. eapply hoareD_seq.
  { apply (hoareD_dispatch_all_volume plugins ID E ID); [done|].
    intros. by apply not_modify_ok. }
  intros []. apply guarded_modify_volume_ok.
Qed.

Lemma mount_volume_ro idx :
  hoareD ID E ID (mount_volume host plugins idx) (fun _ _ => True).
Proof.
  unfold mount_volume.
  apply hoareD_bind_volume_at; [done|]. intros d p Hd Hp.
  destruct (flat_mount p); [|apply hoareD_ret; by intros d' ->].
  eapply hoareD_bind.
  { apply (hoareD_dispatch_until_result_volume plugins ID E (fun d' => d' = d)).
    - by intros d' ->.
    - intros. by apply not_modify_ok. }
  intros res.
  assert (Hvols : forall l,
             hoareD ID E (fun d' => d' = d)
               (for_each l (add_new_volume host plugins idx)) (fun _ _ => True)).
  { intros l. eapply hoareD_conseq; [apply hoareD_for_each| |done].
    - intros new_p _. apply add_new_volume_ro.
    - by intros d' ->. }
  destruct res as [|b|m|v|l]; cbv beta iota.
  - apply hoareD_ret. by intros d' ->.
  - apply hoareD_ret. by intros d' ->.
  - eapply hoareD_bind.
    { apply (hoareD_update_volume ID E _ (fun _ d' => ID d')). by intros d' ->. }
    intros []. eapply hoareD_seq.
    { apply (hoareD_dispatch_all_volume plugins ID E ID); [done|].
      intros. by apply not_modify_ok. }
    intros []. apply guarded_modify_volume_ok.
  - apply Hvols.
  - apply Hvols.
Qed.

Lemma _mount_filesystems_from_ro fuel : forall idx,
  hoareD ID E ID (_mount_filesystems_from host plugins fuel idx) (fun _ _ => True).
Proof.
  induction fuel as [|fuel IH]; intros idx; simpl.
  - by apply hoareD_unfinished.
  - apply hoareD_bind_get_disk. intros d Hd.
    destruct (idx <? List.length (volumes d))%nat.
    + eapply hoareD_conseq; [|by intros d' -> |done].
      eapply hoareD_seq; [apply mount_volume_ro|]. intros []. apply IH.
    + apply hoareD_ret. by intros d' ->.
Qed.

Lemma mount_partitions_and_filesystems_ro {A} fuel (body : M (State W) A)
    (Q : A -> DiskInfo -> Prop) :
  hoareD ID E ID body Q ->
  hoareD ID E ID (mount_partitions_and_filesystems host plugins fuel body)
    (fun _ _ => True).
Proof.
  intros Hbody. unfold mount_partitions_and_filesystems.
  eapply hoareD_try_finally; [|apply unmount_partitions_and_filesystems_ro].
  eapply hoareD_seq; [apply _mount_partitions_ro|]. intros [].
  eapply hoareD_seq; [apply _mount_filesystems_from_ro|]. intros [].
  exact Hbody.
Qed.

(** On the world, before and after the life time of the [DiskInfo]
    object, only the calls matter. *)
#[local] Abbreviation calls_ok m :=
  (hoare (fun _ : W => True) E (fun _ => True) m (fun _ _ => True)).

Lemma calls_ok_bind {A B} (m : M W A) (k : A -> M W B) :
  calls_ok m -> (forall a, calls_ok (k a)) -> calls_ok (m ≫= k).
Proof.
  intros Hm Hk. eapply hoare_bind; [exact Hm|].
  intros a. eapply hoare_pre; [apply Hk|done].
Qed.

Lemma calls_ok_host_op {A} (f : W -> Result Exn A * W) : calls_ok (host_op f).
Proof.
  intros w _. rewrite host_op_events.
  split; [done|]. split; [constructor|]. by destruct ((host_op f w).1.1).
Qed.

Lemma calls_ok_ret {A} (a : A) : calls_ok (ret a : M W A).
Proof. by apply hoare_ret. Qed.

Lemma calls_ok_with_disk_info {A} (d : DiskInfo) (m : M (State W) A)
    (Q : A -> DiskInfo -> Prop) :
  ID d -> hoareD ID E ID m Q -> calls_ok (with_disk_info d m).
Proof.
  intros Hd Hm w _.
  split; [done|]. split; [by eapply with_disk_info_events|].
  by destruct ((with_disk_info d m w).1.1).
Qed.

Lemma mount_disk_ro {A} vdisk (body : M (State W) A) (Q : A -> DiskInfo -> Prop) :
  hoareD ID E ID body Q ->
  calls_ok (mount_disk host plugins vdisk ro body).
Proof.
  intros Hbody. unfold mount_disk.
  apply calls_ok_bind; [apply calls_ok_host_op|]. intros flat.
  apply calls_ok_bind; [apply calls_ok_host_op|]. intros info.
  eapply calls_ok_with_disk_info; [done|].
  eapply hoareD_try_finally.
  - eapply hoareD_seq.
    { apply (hoareD_dispatch_all_disk plugins ID E ID); [done|].
      intros. by apply not_modify_ok. }
    intros []. apply hoareD_bind_get_disk. intros d Hd.
    eapply hoareD_conseq; [|by intros d' -> |done].
    eapply (hoareD_seq _ _ (fun _ _ => True)); [|intros []; exact Hbody].
    destruct (readonly d) eqn:Hro; simpl.
    + by apply hoareD_ret.
    + eapply hoareD_seq.
      * apply (hoareD_dispatch_all_disk plugins ID E ID); [done|].
        intros d' i Hd'. unfold ID in *.
        apply modify_writable_ok; simpl; congruence.
      * intros []. eapply hoareD_conseq;
          [apply (hoareD_refresh_disk_info host ID E ID)| |]; done.
  - apply hoareD_bind_get_disk. intros d Hd.
    eapply hoareD_bind;
      [apply (hoareD_host_op ID E (fun d' => d' = d)); by intros d' ->|].
    intros [|].
    + eapply hoareD_bind.
      * apply (hoareD_host_op ID E (fun d' => d' = d)). by intros d' ->.
      * intros []. eapply hoareD_conseq;
          [apply (hoareD_host_op ID E (fun d' => d' = d))| |]; try done.
        by intros d' ->.
    + apply hoareD_ret. by intros d' ->.
Qed.

End ReadOnly.

Section ReadOnlyImage.
Context {W : Type}.
Variable host : Host W.
Variable plugins : PluginManager W.

#[local] Abbreviation E := (modify_only_writable true).
#[local] Abbreviation ID := (fun d : DiskInfo => readonly d = true).
#[local] Abbreviation calls_ok m :=
  (hoare (fun _ : W => True) E (fun _ => True) m (fun _ _ => True)).

Lemma mount_disk_image_ro {A} disk_image (body : M (State W) A)
    (Q : A -> DiskInfo -> Prop) :
  hoareD ID E ID body Q ->
  calls_ok (mount_disk_image host plugins disk_image body).
Proof.
  intros Hbody. unfold mount_disk_image.
  apply calls_ok_bind; [apply calls_ok_host_op|]. intros mount_point.
  eapply hoare_try_finally.
  - apply calls_ok_bind; [apply calls_ok_host_op|]. intros [].
    apply calls_ok_bind; [apply calls_ok_host_op|]. intros info.
    eapply (calls_ok_with_disk_info true); [done|].
    eapply hoareD_seq; [|intros []; exact Hbody].
    apply (hoareD_dispatch_all_disk plugins ID E ID); [done|].
    intros. by apply not_modify_ok.
  - apply calls_ok_bind; [apply calls_ok_host_op|].
    intros [|]; [|by apply hoare_ret].
    apply calls_ok_bind; [|intros []; apply calls_ok_host_op].
    apply hoare_try_except; [apply calls_ok_host_op|apply calls_ok_ret].
Qed.
End ReadOnlyImage.

(** The hooks called for a written disk with one partition that holds a
    filesystem, opened writable and opened read-only. *)
Example hooks_of_writable_disk :
  ev_hook
    <$> (mount_disk example_host (mkPluginManager [] [generic_plugin])
           (mkVirtualDisk "/out/vm-disk1.vmdk") false
           (mount_partitions_and_filesystems example_host
              (mkPluginManager [] [generic_plugin]) 3 (ret tt)) tt).2
  = [mounted_disk; modify_disk; mounted_volume; modify_volume; mount;
     mounted_filesystem; modify_filesystem; unmount_filesystem; unmount_volume].
Proof. vm_compute. reflexivity. Qed.

Example hooks_of_readonly_disk :
  ev_hook
    <$> (mount_disk example_host (mkPluginManager [] [generic_plugin])
           (mkVirtualDisk "/out/vm-disk1.vmdk") true
           (mount_partitions_and_filesystems example_host
              (mkPluginManager [] [generic_plugin]) 3 (ret tt)) tt).2
  = [mounted_disk; mounted_volume; mount; mounted_filesystem;
     unmount_filesystem; unmount_volume].
Proof. vm_compute. reflexivity. Qed.

(** C10: in the record of hook calls of a disk that is opened, has its
    partitions and filesystems mounted, and is torn down again, a [modify_*]
    hook is called only when the disk was opened writable and is writable at
    the call; for a disk opened read-only, through [mount_disk] with
    [readonly=True] or through [mount_disk_image], no [modify_*] hook is
    called at all.  This holds for every number of passes of the mount
    loop. *)
Theorem readonly_disk_never_modified {W} (host : Host W)
    (plugins : PluginManager W) (vdisk : VirtualDisk) (disk_image : Path)
    (readonly : bool) (fuel : nat) (w : W) :
  Forall (modify_only_writable readonly)
    (mount_disk host plugins vdisk readonly
       (mount_partitions_and_filesystems host plugins fuel (ret tt)) w).2
  /\ Forall (fun e => is_modify (ev_hook e) = false)
       (mount_disk host plugins vdisk true
          (mount_partitions_and_filesystems host plugins fuel (ret tt)) w).2
  /\ Forall (fun e => is_modify (ev_hook e) = false)
       (mount_disk_image host plugins disk_image
          (mount_partitions_and_filesystems host plugins fuel (ret tt)) w).2.
Proof.
  assert (Hpipe : forall ro,
            hoareD (fun d => Data.readonly d = ro) (modify_only_writable ro)
              (fun d => Data.readonly d = ro)
              (mount_partitions_and_filesystems host plugins fuel (ret tt))
              (fun _ _ => True)).
  { intros ro. eapply mount_partitions_and_filesystems_ro.
    by apply (hoareD_ret _ _ _ (fun _ _ => True)). }
  assert (Hnone : forall t,
            Forall (modify_only_writable true) t ->
            Forall (fun e => is_modify (ev_hook e) = false) t).
  { intros t Ht. eapply Forall_impl; [exact Ht|]. intros e He.
    destruct (is_modify (ev_hook e)) eqn:Hm; [|done].
    by destruct (He Hm). }
  repeat split.
  - by apply (mount_disk_ro host plugins readonly vdisk _ _ (Hpipe readonly)).
  - apply Hnone.
    by apply (mount_disk_ro host plugins true vdisk _ _ (Hpipe true)).
  - apply Hnone.
    by apply (mount_disk_image_ro host plugins disk_image _ _ (Hpipe true)).
Qed.

End RunnerFacts.


Module TeardownFacts.
Import Data Exec PluginsBase Runner ExecFacts UtilsFacts RunnerFacts.






Section Teardown.
Context {W : Type}.
Variable host : Host W.
Variable plugins : PluginManager W.
(** The depths of the listed volumes, when the teardown starts. *)
Variable ds : list Z.

Let ID (d : DiskInfo) : Prop := volume_depth <$> volumes d = ds.




End Teardown.


(** The teardown of scenario E3: the logical volumes, then the LUKS mapper
    device, then the partitions. *)
Example teardown_e3 :
  ev_summary
    <$> (unmount_partitions_and_filesystems example_host
           (mkPluginManager [] [generic_plugin]) e3_state).2
  = [(unmount_filesystem, Some "/dev/vg/root");
     (unmount_volume, Some "/dev/vg/swap");
     (unmount_volume, Some "/dev/vg/root");
     (unmount_volume, Some "/dev/mapper/luks");
     (unmount_filesystem, Some "/dev/loop0");
     (unmount_volume, Some "/dev/loop0");
     (unmount_volume, Some "/dev/loop1")].
Proof. vm_compute. reflexivity. Qed.

End TeardownFacts.

(* ===================================================================== *)
(** * More about the extent builder: insertion as an overlay *)
(* ===================================================================== *)

Module OverlayFacts.
Import VmBase Overlay UtilsFacts VmBaseFacts.

(** ** The merge cases, for parts of positive length *)

Lemma merge_case_pos p part :
  0 < length p -> 0 < length part ->
  let a := target_offset p in
  let b := target_offset p + length p in
  let c := target_offset part in
  let d := target_offset part + length part in
  match merge_case p part with
  | NoOverlap => b <= c \/ d <= a
  | Replace => c <= a /\ b <= d
  | TruncateTail => a < c < b /\ b <= d
  | AdvanceHead => c < a < d /\ d < b
  | Split => a < c /\ d < b
  | Untouched => a = c /\ d < b
  end.
Proof.
  intros Hp Hpart a b c d. subst a b c d. unfold merge_case.
  rewrite ?Z.geb_leb, ?Z.gtb_ltb.
  repeat (match goal with
          | |- context [Z.leb ?x ?y] => destruct (Z.leb_spec x y)
          | |- context [Z.ltb ?x ?y] => destruct (Z.ltb_spec x y)
          end; simpl); lia.
Qed.

Lemma list_remove_first_snoc x kept :
  list_remove_first x (kept ++ [x]) ≡ₚ kept.
Proof.
  induction kept as [|y kept IH]; simpl.
  - by rewrite decide_True.
  - destruct (decide (y = x)) as [->|].
    + by rewrite <- Permutation_cons_append.
    + by rewrite IH.
Qed.

(** One pass of the loop adds the entries for [p] to the list. *)
Lemma merge_step_pieces part kept added p :
  (merge_step part (kept, added) p).1 ++ (merge_step part (kept, added) p).2
  ≡ₚ kept ++ added ++ pieces part p.
Proof.
  unfold pieces, merge_step.
  destruct (merge_case p part); simpl;
    rewrite ?decide_True by done; simpl; rewrite ?app_nil_r;
    try solve [rewrite <- !app_assoc;
               apply Permutation_app_head, Permutation_app_comm].
  - by rewrite list_remove_first_snoc.
  - rewrite <- !app_assoc. apply Permutation_app_head. simpl.
    match goal with
    | |- _ ≡ₚ added ++ ?ht => rewrite (Permutation_app_comm added ht)
    end.
    simpl. apply Permutation_skip. symmetry. apply Permutation_cons_append.
Qed.

Lemma merge_pieces part l : merge part l ≡ₚ l ≫= pieces part.
Proof.
  unfold merge.
  assert (H : forall kept added,
    (foldl (merge_step part) (kept, added) l).1
      ++ (foldl (merge_step part) (kept, added) l).2
    ≡ₚ kept ++ added ++ (l ≫= pieces part)).
  { induction l as [|p l IH]; intros kept added; cbn [foldl].
    - simpl. by rewrite app_nil_r.
    - pose proof (merge_step_pieces part kept added p) as Hstep.
      destruct (merge_step part (kept, added) p) as [kept' added'].
      rewrite IH. simpl in Hstep. rewrite app_assoc, Hstep.
      cbn [mbind list_bind]. by rewrite <- !app_assoc. }
  specialize (H [] []).
  destruct (foldl (merge_step part) ([], []) l) as [kept added]. exact H.
Qed.

Lemma byte_at_cons p l off :
  byte_at (p :: l) off
  = if covers off p then source_at p off else byte_at l off.
Proof. unfold byte_at, source_at. simpl. by destruct (covers off p). Qed.

Lemma covers_false off p :
  covers off p = false
  <-> off < target_offset p \/ target_offset p + length p <= off.
Proof. rewrite <- not_true_iff_false, covers_spec. lia. Qed.

Ltac covers_arith :=
  repeat match goal with
    | H : covers _ _ = true |- _ => apply covers_spec in H; simpl in H
    | H : covers _ _ = false |- _ => apply covers_false in H; simpl in H
    | |- covers _ _ = true => apply covers_spec; simpl
    | |- covers _ _ = false => apply covers_false; simpl
    end.

Ltac part_eq :=
  repeat match goal with
    | |- Ok _ = Ok _ => f_equal
    | |- _ :: _ = _ :: _ => f_equal
    | |- mkPart _ _ _ _ = mkPart _ _ _ _ => f_equal
    end; lia.

(** The entries for [p], case by case, when the two parts have positive
    lengths. *)
Lemma pieces_cases part p :
  0 < length p -> 0 < length part ->
  let a := target_offset p in
  let b := target_offset p + length p in
  let c := target_offset part in
  let d := target_offset part + length part in
  (pieces part p = [p] /\ (b <= c \/ d <= a))
  \/ (pieces part p = [] /\ c <= a /\ b <= d)
  \/ (pieces part p = [mkPart (source_file p) (c - a) (source_offset p) a]
      /\ a < c < b /\ b <= d)
  \/ (pieces part p
      = [mkPart (source_file p) (c - a) (source_offset p) a;
         mkPart (source_file p) (b - d) (source_offset p + (d - a)) d]
      /\ a < c /\ d < b)
  \/ (pieces part p
      = [mkPart (source_file p) (d - a) (source_offset p + (b - d)) (a + (b - d))]
      /\ c < a < d /\ d < b)
  \/ (pieces part p = [p] /\ a = c /\ d < b).
Proof.
  intros Hp Hpart a b c d. pose proof (merge_case_pos p part Hp Hpart) as H.
  cbv zeta in H. subst a b c d. unfold pieces, merge_step.
  destruct (merge_case p part); simpl; rewrite ?decide_True by done.
  - left. done.
  - right; left. done.
  - right; right; left. split; [|done]. part_eq.
  - do 4 right; left. split; [|done]. part_eq.
  - do 3 right; left. split; [|done]. part_eq.
  - do 5 right. done.
Qed.

Lemma pieces_positive part p :
  0 < length p -> 0 < length part ->
  Forall (fun q => 0 < length q) (pieces part p).
Proof.
  intros Hp Hpart.
  destruct (pieces_cases part p Hp Hpart)
    as [[-> H]|[[-> H]|[[-> H]|[[-> H]|[[-> H]|[-> H]]]]]];
    repeat constructor; simpl; lia.
Qed.

(** ** What is left of a part that does not outlast the new one *)

Section Good.
Variables part p : VirtualDiskPart.
Hypothesis Hp : 0 < length p.
Hypothesis Hpart : 0 < length part.
Hypothesis Hgood : ~ starts_inside_and_outlasts part p.

Lemma pieces_byte_at R off :
  covers off part = false ->
  byte_at (pieces part p ++ R) off
  = if covers off p then source_at p off else byte_at R off.
Proof using Hp Hpart Hgood.
  intros Hoff. unfold starts_inside_and_outlasts in Hgood.
  destruct (pieces_cases part p Hp Hpart)
    as [[-> H]|[[-> H]|[[-> H]|[[-> H]|[[-> H]|[-> H]]]]]];
    simpl; rewrite ?byte_at_cons; try lia.
  all: repeat match goal with
         | |- context [covers ?o ?q] =>
             let E := fresh "E" in destruct (covers o q) eqn:E
         end;
       try done; try (covers_arith; lia);
       unfold source_at; simpl; destruct (source_file p); try done; f_equal; lia.
Qed.

Lemma pieces_inside q off :
  q ∈ pieces part p -> covers off q = true ->
  covers off p = true /\ covers off part = false.
Proof using Hp Hpart Hgood.
  unfold starts_inside_and_outlasts in Hgood.
  destruct (pieces_cases part p Hp Hpart)
    as [[-> H]|[[-> H]|[[-> H]|[[-> H]|[[-> H]|[-> H]]]]]];
    intros Hq Hoff; try lia;
    repeat (apply elem_of_cons in Hq as [->|Hq]);
    try (by apply elem_of_nil in Hq);
    split; covers_arith; lia.
Qed.

Lemma pieces_non_overlapping : non_overlapping (pieces part p).
Proof using Hp Hpart Hgood.
  unfold starts_inside_and_outlasts in Hgood.
  destruct (pieces_cases part p Hp Hpart)
    as [[-> H]|[[-> H]|[[-> H]|[[-> H]|[[-> H]|[-> H]]]]]];
    try lia; repeat constructor.
  intros (off & H1 & H2). covers_arith. lia.
Qed.
End Good.

Lemma non_overlapping_app l1 l2 :
  non_overlapping l1 -> non_overlapping l2 ->
  (forall x y, x ∈ l1 -> y ∈ l2 -> ~ overlap x y) ->
  non_overlapping (l1 ++ l2).
Proof.
  induction 1 as [|x l1 Hx Hl1 IH]; intros Hl2 Hcross; simpl; [done|].
  constructor.
  - apply Forall_app. split; [done|].
    apply Forall_forall. intros y Hy. apply Hcross; [left|done].
  - apply IH; [done|]. intros x' y Hx' Hy. apply Hcross; [by right|done].
Qed.

(** ** The list after an insertion, up to its order *)

Section Insertion.
Variable part : VirtualDiskPart.
Hypothesis Hpart : 0 < length part.

Lemma bind_pieces_positive l :
  Forall (fun p => 0 < length p) l ->
  Forall (fun q => 0 < length q) (l ≫= pieces part).
Proof using Hpart.
  induction 1 as [|p l Hp Hl IH]; cbn [mbind list_bind]; [constructor|].
  apply Forall_app. split; [by apply pieces_positive|done].
Qed.

Lemma bind_pieces_inside l q off :
  Forall (fun p => 0 < length p) l ->
  Forall (fun p => ~ starts_inside_and_outlasts part p) l ->
  q ∈ l ≫= pieces part -> covers off q = true ->
  (exists p, p ∈ l /\ covers off p = true) /\ covers off part = false.
Proof using Hpart.
  intros Hpos Hgood Hq Hoff.
  apply list_elem_of_bind in Hq as (p & Hq & Hp).
  rewrite Forall_forall in Hpos. rewrite Forall_forall in Hgood.
  destruct (pieces_inside part p (Hpos p Hp) Hpart (Hgood p Hp) q off Hq Hoff).
  split; [by exists p|done].
Qed.

Lemma bind_pieces_non_overlapping l :
  Forall (fun p => 0 < length p) l ->
  Forall (fun p => ~ starts_inside_and_outlasts part p) l ->
  non_overlapping l ->
  non_overlapping (l ≫= pieces part).
Proof using Hpart.
  intros Hpos Hgood Hl. induction Hl as [|p l Hp Hl IH];
    cbn [mbind list_bind]; [constructor|].
  apply Forall_cons in Hpos as [Hppos Hpos].
  apply Forall_cons in Hgood as [Hpgood Hgood].
  apply non_overlapping_app; [by apply pieces_non_overlapping|by apply IH|].
  intros x y Hx Hy (off & Hox & Hoy).
  destruct (pieces_inside part p Hppos Hpart Hpgood x off Hx Hox) as [Hcp _].
  destruct (bind_pieces_inside l y off Hpos Hgood Hy Hoy)
    as [(p' & Hp' & Hcp') _].
  rewrite Forall_forall in Hp. apply (Hp p' Hp'). by exists off.
Qed.

Lemma bind_pieces_byte_at l off :
  Forall (fun p => 0 < length p) l ->
  Forall (fun p => ~ starts_inside_and_outlasts part p) l ->
  covers off part = false ->
  byte_at (l ≫= pieces part) off = byte_at l off.
Proof using Hpart.
  intros Hpos Hgood Hoff. induction l as [|p l IH];
    cbn [mbind list_bind]; [done|].
  apply Forall_cons in Hpos as [Hppos Hpos].
  apply Forall_cons in Hgood as [Hpgood Hgood].
  rewrite pieces_byte_at, byte_at_cons by done.
  by rewrite IH.
Qed.

Lemma inserted_non_overlapping l :
  Forall (fun p => 0 < length p) l ->
  Forall (fun p => ~ starts_inside_and_outlasts part p) l ->
  non_overlapping l ->
  non_overlapping (part :: (l ≫= pieces part)).
Proof using Hpart.
  intros Hpos Hgood Hl. constructor; [|by apply bind_pieces_non_overlapping].
  apply Forall_forall. intros q Hq (off & H1 & H2).
  destruct (bind_pieces_inside l q off Hpos Hgood Hq H2) as [_ H3]. congruence.
Qed.

Lemma inserted_byte_at l off :
  Forall (fun p => 0 < length p) l ->
  Forall (fun p => ~ starts_inside_and_outlasts part p) l ->
  byte_at (part :: (l ≫= pieces part)) off
  = if covers off part then byte_at [part] off else byte_at l off.
Proof using Hpart.
  intros Hpos Hgood. rewrite !byte_at_cons.
  destruct (covers off part) eqn:Hoff; [done|].
  by apply bind_pieces_byte_at.
Qed.
End Insertion.

Lemma add_part_Ok fs sector_size l part l' :
  add_part fs sector_size l part = Ok l' ->
  l' = Utils.sorted target_offset false (merge part l ++ [part])
  /\ aligned sector_size part.
Proof.
  intros Hadd. unfold add_part, py_mod in Hadd.
  destruct (source_file part) as [f|]; [|done].
  destruct (negb (is_file (fs f)) && negb (is_block_device (fs f))); [done|].
  destruct (Z.eqb_spec sector_size 0) as [|Hss]; [done|].
  destruct (Z.eqb_spec (target_offset part mod sector_size) 0) as [Ha|];
    simpl in Hadd; [|done].
  destruct (Z.eqb_spec ((target_offset part + length part) mod sector_size) 0)
    as [Hb|]; simpl in Hadd; [|done].
  injection Hadd as <-. split; [done|]. split; by apply Z.mod_divide.
Qed.

Lemma add_part_perm fs sector_size l part l' :
  add_part fs sector_size l part = Ok l' ->
  l' ≡ₚ part :: (l ≫= pieces part).
Proof.
  intros Hadd. apply add_part_Ok in Hadd as [-> _].
  rewrite sorted_perm, merge_pieces. symmetry. apply Permutation_cons_append.
Qed.

Lemma add_part_positive fs sector_size l part l' :
  Forall (fun p => 0 < length p) l -> 0 < length part ->
  add_part fs sector_size l part = Ok l' ->
  Forall (fun p => 0 < length p) l'.
Proof.
  intros Hl Hpart Hadd. rewrite (add_part_perm _ _ _ _ _ Hadd).
  constructor; [done|]. by apply bind_pieces_positive.
Qed.

Lemma add_part_non_overlapping fs sector_size l part l' :
  non_overlapping l ->
  Forall (fun p => 0 < length p) l ->
  0 < length part ->
  Forall (fun p => ~ starts_inside_and_outlasts part p) l ->
  add_part fs sector_size l part = Ok l' ->
  non_overlapping l'.
Proof.
  intros Hl Hpos Hpart Hgood Hadd.
  eapply non_overlapping_perm;
    [symmetry; by eapply add_part_perm|by apply inserted_non_overlapping].
Qed.

(** Adding to an empty builder. *)
Lemma add_part_first fs sector_size part f :
  sector_size <> 0 ->
  source_file part = Some f ->
  is_file (fs f) || is_block_device (fs f) = true ->
  target_offset part mod sector_size = 0 ->
  (target_offset part + length part) mod sector_size = 0 ->
  add_part fs sector_size [] part = Ok [part].
Proof.
  intros Hss Hf Hkind Ha Hb. unfold add_part, py_mod. rewrite Hf.
  apply orb_true_iff in Hkind.
  replace (negb (is_file (fs f)) && negb (is_block_device (fs f)))
    with false by (destruct Hkind as [-> | ->]; simpl; by rewrite ?andb_false_r).
  destruct (Z.eqb_spec sector_size 0) as [|_]; [done|].
  by rewrite Ha, Hb.
Qed.

(** ** The properties of [add_part] *)

(** X1: [add_part] returns exactly for the parts whose source is a file or
    a block device and whose two ends lie on sector boundaries; it raises
    for every other part. *)
Theorem add_part_accepts_exactly fs sector_size l part :
  sector_size <> 0 ->
  (exists l', add_part fs sector_size l part = Ok l')
  <-> (exists f, source_file part = Some f
                 /\ is_file (fs f) || is_block_device (fs f) = true)
      /\ target_offset part mod sector_size = 0
      /\ (target_offset part + length part) mod sector_size = 0.
Proof.
  intros Hss. split.
  - intros [l' Hadd]. apply (add_part_accepts fs sector_size l part Hss).
    by exists l'.
  - intros H. by apply (add_part_accepts fs sector_size l part Hss).
Qed.

(** The same at a part of one sector in a builder with sectors of 512
    bytes. *)
Lemma add_part_accepts_exactly_witness :
  (exists l',
     add_part all_regular_files 512 [] (mkPart (Some "disk.img") 512 0 0) = Ok l')
  <-> (exists f, Some "disk.img" = Some f
                 /\ is_file (all_regular_files f)
                    || is_block_device (all_regular_files f) = true)
      /\ 0 mod 512 = 0
      /\ (0 + 512) mod 512 = 0.
Proof.
  apply (add_part_accepts_exactly all_regular_files 512 []
           (mkPart (Some "disk.img") 512 0 0)).
  lia.
Defined.

(** X2: whatever parts of positive length are added to an empty builder,
    in whatever order and however they overlap: the list is sorted by target
    offset, and every extent in it is aligned to sectors and has a positive
    length. *)
Theorem add_parts_keeps_shape fs sector_size parts l :
  Forall (fun p => 0 < length p) parts ->
  add_parts fs sector_size [] parts = Ok l ->
  sorted_by_target l
  /\ Forall (aligned sector_size) l
  /\ Forall (fun p => 0 < length p) l.
Proof.
  intros Hparts Hadd.
  destruct (add_parts_sorted_aligned fs sector_size parts [] l) as [Hs Ha];
    try done; [constructor|].
  split; [done|]. split; [done|].
  assert (H : forall acc,
             Forall (fun p => 0 < length p) acc ->
             add_parts fs sector_size acc parts = Ok l ->
             Forall (fun p => 0 < length p) l); [|by apply (H [])].
  clear Hadd Hs Ha.
  induction Hparts as [|part parts Hpart Hparts IH]; intros acc Hacc Hadd;
    simpl in Hadd.
  - by injection Hadd as <-.
  - destruct (add_part fs sector_size acc part) as [acc'|] eqn:Hacc'; [|done].
    apply (IH acc'); [|done]. by eapply add_part_positive.
Qed.

(** The same at two parts, the second in the middle of the first. *)
Lemma add_parts_keeps_shape_witness :
  sorted_by_target Pipeline.example_parts
  /\ Forall (aligned 512) Pipeline.example_parts
  /\ Forall (fun p => 0 < length p) Pipeline.example_parts.
Proof.
  apply (add_parts_keeps_shape all_regular_files 512
           [Pipeline.example_image; Pipeline.example_plain]).
  - repeat constructor.
  - reflexivity.
Defined.

(** X3: insertion is an overlay.  When no part of the list starts inside
    the new part and ends behind it, the new part decides the bytes of its
    range and every other byte keeps its source. *)
Theorem add_part_overlays fs sector_size l part l' :
  non_overlapping l ->
  Forall (fun p => 0 < length p) l ->
  0 < length part ->
  Forall (fun p => ~ starts_inside_and_outlasts part p) l ->
  add_part fs sector_size l part = Ok l' ->
  forall off,
    byte_at l' off
    = if covers off part then byte_at [part] off else byte_at l off.
Proof.
  intros Hl Hpos Hpart Hgood Hadd off.
  pose proof (add_part_perm _ _ _ _ _ Hadd) as Hperm.
  rewrite <- (byte_at_perm off _ _ (symmetry Hperm))
    by by apply inserted_non_overlapping.
  by apply inserted_byte_at.
Qed.

(** The same at a byte of the decrypted partition of the example. *)
Lemma add_part_overlays_witness :
  byte_at Pipeline.example_parts 1536
  = if covers 1536 Pipeline.example_plain
    then byte_at [Pipeline.example_plain] 1536
    else byte_at [Pipeline.example_image] 1536.
Proof.
  apply (add_part_overlays all_regular_files 512 [Pipeline.example_image]
           Pipeline.example_plain Pipeline.example_parts).
  - repeat constructor.
  - repeat constructor.
  - reflexivity.
  - repeat constructor. unfold starts_inside_and_outlasts. simpl. lia.
  - reflexivity.
Defined.

(** X4: such an insertion keeps the invariant of the builder: the list
    stays sorted, pairwise disjoint and aligned, and its extents keep
    positive lengths. *)
Theorem add_part_keeps_invariant fs sector_size l part l' :
  builder_invariant sector_size l ->
  Forall (fun p => 0 < length p) l ->
  0 < length part ->
  Forall (fun p => ~ starts_inside_and_outlasts part p) l ->
  add_part fs sector_size l part = Ok l' ->
  builder_invariant sector_size l' /\ Forall (fun p => 0 < length p) l'.
Proof.
  intros (Hs & Hl & Hal) Hpos Hpart Hgood Hadd.
  destruct (add_part_sorted_aligned _ _ _ _ _ Hal Hadd) as [Hs' Hal'].
  split; [split; [done|split; [|done]]|].
  - by eapply add_part_non_overlapping.
  - by eapply add_part_positive.
Qed.

(** The same at the example. *)
Lemma add_part_keeps_invariant_witness :
  builder_invariant 512 Pipeline.example_parts
  /\ Forall (fun p => 0 < length p) Pipeline.example_parts.
Proof.
  apply (add_part_keeps_invariant all_regular_files 512
           [Pipeline.example_image] Pipeline.example_plain).
  - split; [repeat constructor|]. split; [repeat constructor|].
    repeat constructor; simpl; [by exists 0|by exists 8].
  - repeat constructor.
  - reflexivity.
  - repeat constructor. unfold starts_inside_and_outlasts. simpl. lia.
  - reflexivity.
Defined.

End OverlayFacts.

(* ===================================================================== *)
(** * The descriptor writer *)
(* ===================================================================== *)

Module VmdkFacts.
Import VmBase Vmdk Pipeline VmBaseFacts OverlayFacts.

Section Write.
Variable absolute : Path -> Path.
Variable rel : Path -> bool.
Variable ss : Z.
Hypothesis Hss : 0 < ss.

Lemma sectors_byte_at_cons start e es off :
  sectors_byte_at ss start (e :: es) off
  = if (start * ss <=? off) && (off <? (start + sectors e) * ss)
    then match e with
         | ZERO _ => ZeroFill
         | FLAT _ path offset =>
             FromFile path (offset * ss + (off - start * ss))
         end
    else sectors_byte_at ss (start + sectors e) es off.
Proof. reflexivity. Qed.

Lemma byte_at_before l off :
  Forall (fun p => off < target_offset p) l -> byte_at l off = ZeroFill.
Proof.
  induction 1 as [|p l Hp Hl IH]; [done|].
  unfold byte_at in *. simpl.
  destruct (covers off p) eqn:E; [|done].
  apply covers_spec in E. lia.
Qed.

(** The loop of the writer, from any sector on: the lines it adds denote
    the byte map of the parts it walks. *)
Lemma write_parts_denotes l : forall cur acc,
  sorted_by_target l -> non_overlapping l ->
  Forall (aligned ss) l ->
  Forall (fun p => 0 < length p) l ->
  Forall (fun p => cur * ss <= target_offset p) l ->
  Forall (fun p => (ss | source_offset p)) l ->
  Forall (fun p => forall f, source_file p = Some f -> rel f = false) l ->
  exists total new,
    write_parts absolute rel ss (cur, acc) l = Ok (total, acc ++ new)
    /\ cur <= total
    /\ Forall (fun e => 0 < sectors e) new
    /\ Forall (fun p => target_offset p + length p <= total * ss) l
    /\ forall off,
         sectors_byte_at ss cur new off
         = absolute_source absolute (byte_at l off).
Proof using Hss.
  induction l as [|p l IH];
    intros cur acc Hsorted Hno Hal Hpos Hcur Hsrc Hrel.
  { exists cur, []. simpl. rewrite app_nil_r. repeat split; (done || lia). }
  apply StronglySorted_cons in Hsorted as [Hple Hsorted].
  inversion Hno as [|? ? Hpno Hno']; subst.
  apply Forall_cons in Hal as [[[k Hk] [m Hm]] Hal].
  apply Forall_cons in Hpos as [Hppos Hpos].
  apply Forall_cons in Hcur as [Hpcur Hcur].
  apply Forall_cons in Hsrc as [[o Ho] Hsrc].
  apply Forall_cons in Hrel as [Hprel Hrel].
  assert (Hk' : target_offset p / ss = k) by (rewrite Hk; apply Z.div_mul; lia).
  assert (Hlen : length p = (m - k) * ss) by lia.
  assert (Hlen' : length p / ss = m - k) by (rewrite Hlen; apply Z.div_mul; lia).
  assert (Ho' : source_offset p / ss = o) by (rewrite Ho; apply Z.div_mul; lia).
  assert (Hmk : 0 < m - k) by nia.
  assert (Hck : cur <= k) by nia.
  (* the parts that follow start behind [p] *)
  assert (Hnext : Forall (fun q => m * ss <= target_offset q) l).
  { rewrite Forall_forall in Hple, Hpno, Hpos. apply Forall_forall.
    intros q Hq. specialize (Hple q Hq). simpl in Hple.
    destruct (Z.le_gt_cases (m * ss) (target_offset q)) as [|Hlt]; [done|].
    exfalso. apply (Hpno q Hq). exists (target_offset q).
    rewrite !covers_spec. specialize (Hpos q Hq). simpl in Hpos. lia. }
  destruct (IH m (acc ++ (if cur * ss =? target_offset p then []
                          else [ZERO (k - cur)])
                    ++ [match source_file p with
                        | Some f => FLAT (m - k) (absolute f) o
                        | None => ZERO (m - k)
                        end]))
    as (total & new & Hw & Htot & Hnew & Hend & Hden); try done.
  exists total,
    ((if cur * ss =? target_offset p then [] else [ZERO (k - cur)])
       ++ [match source_file p with
           | Some f => FLAT (m - k) (absolute f) o
           | None => ZERO (m - k)
           end] ++ new).
  split; [|split; [lia|split; [|split]]].
  - cbn [write_parts]. unfold write_part, py_floordiv.
    destruct (Z.eqb_spec ss 0) as [|_]; [lia|].
    rewrite Hk', Hlen', Ho'.
    destruct (Z.eqb_spec (cur * ss) (target_offset p)) as [Heq|Hne];
      cbn [negb app] in *.
    + assert (cur = k) as -> by nia.
      replace (k + (m - k)) with m by lia.
      destruct (source_file p) as [f|] eqn:Hf.
      * rewrite (Hprel f) by done. by rewrite Hw, <- !app_assoc.
      * by rewrite Hw, <- !app_assoc.
    + replace (cur + (k - cur) + (m - k)) with m by lia.
      destruct (source_file p) as [f|] eqn:Hf.
      * rewrite (Hprel f) by done. rewrite <- !app_assoc. cbn [app].
        by rewrite Hw, <- !app_assoc.
      * rewrite <- !app_assoc. cbn [app]. by rewrite Hw, <- !app_assoc.
  - apply Forall_app. split.
    + destruct (Z.eqb_spec (cur * ss) (target_offset p)); [constructor|].
      repeat constructor. simpl. nia.
    + constructor; [|done]. destruct (source_file p); simpl; lia.
  - constructor; [nia|done].
  - intros off.
    assert (Hflat : forall start,
      start = k ->
      sectors_byte_at ss start
        (match source_file p with
         | Some f => FLAT (m - k) (absolute f) o
         | None => ZERO (m - k)
         end :: new) off
      = if covers off p
        then absolute_source absolute (byte_at (p :: l) off)
        else sectors_byte_at ss m new off).
    { intros start ->. cbn [sectors_byte_at].
      replace (sectors match source_file p with
                       | Some f => FLAT (m - k) (absolute f) o
                       | None => ZERO (m - k)
                       end) with (m - k) by (by destruct (source_file p)).
      replace (k + (m - k)) with m by lia.
      unfold byte_at. simpl. unfold covers.
      replace (target_offset p + length p) with (m * ss) by lia.
      rewrite Hk.
      destruct ((k * ss <=? off) && (off <? m * ss)); [|done].
      destruct (source_file p); [|done]. simpl. f_equal. lia. }
    assert (Hrest : covers off p = false ->
      absolute_source absolute (byte_at (p :: l) off)
      = absolute_source absolute (byte_at l off)).
    { intros E. unfold byte_at. simpl. by rewrite E. }
    destruct (Z.eqb_spec (cur * ss) (target_offset p)) as [Heq|Hne]; cbn [app].
    + rewrite Hflat by nia.
      destruct (covers off p) eqn:E; [done|]. by rewrite Hden, Hrest.
    + rewrite sectors_byte_at_cons. cbn [sectors].
      replace (cur + (k - cur)) with k by lia.
      destruct ((cur * ss <=? off) && (off <? k * ss)) eqn:Epad.
      * apply andb_true_iff in Epad as [E1 E2].
        apply Z.leb_le in E1. apply Z.ltb_lt in E2.
        rewrite byte_at_before; [done|].
        constructor; [lia|]. eapply Forall_impl; [exact Hnext|].
        intros q Hq. simpl in Hq. nia.
      * rewrite Hflat by done.
        destruct (covers off p) eqn:E; [done|]. by rewrite Hden, Hrest.
Qed.

End Write.

(** X5: with the sector size of the descriptor format, 512 bytes, as the
    sector size of the disk, the extent description [VmdkBuilder.write]
    produces denotes the byte map of the extent list, with its gaps filled
    by zero runs: for a list that is sorted, pairwise disjoint and aligned,
    with extents of positive length at offsets from 0 on, source offsets on
    sector boundaries and no source file under the output directory.  Every
    run has a positive number of sectors, and the disk is long enough for
    every extent. *)
Theorem write_extents_denotes absolute rel sector_size l :
  sector_size = BYTES_PER_SECTOR ->
  sorted_by_target l -> non_overlapping l ->
  Forall (aligned sector_size) l ->
  Forall (fun p => 0 < length p) l ->
  Forall (fun p => 0 <= target_offset p) l ->
  Forall (fun p => (sector_size | source_offset p)) l ->
  Forall (fun p => forall f, source_file p = Some f -> rel f = false) l ->
  exists total extents,
    write_extents absolute rel sector_size l = Ok (total, extents)
    /\ Forall (fun e => 0 < sectors e) extents
    /\ Forall (fun p => target_offset p + length p
                        <= total * BYTES_PER_SECTOR) l
    /\ forall off,
         extents_byte_at extents off
         = absolute_source absolute (byte_at l off).
Proof.
  intros -> Hsorted Hno Hal Hpos Hnonneg Hsrc Hrel.
  destruct (write_parts_denotes absolute rel BYTES_PER_SECTOR eq_refl l 0 [])
    as (total & new & Hw & _ & H1 & H2 & H3); try done.
  exists total, new. done.
Qed.

Lemma example_parts_non_overlapping : non_overlapping example_parts.
Proof.
  repeat constructor; intros (off & H1 & H2);
    apply covers_spec in H1; apply covers_spec in H2; simpl in *; lia.
Qed.

(** The same at the example. *)
Lemma write_extents_denotes_witness :
  exists total extents,
    write_extents (fun f => f) (fun _ => false) 512 example_parts
    = Ok (total, extents)
    /\ Forall (fun e => 0 < sectors e) extents
    /\ Forall (fun p => target_offset p + length p
                        <= total * BYTES_PER_SECTOR) example_parts
    /\ forall off,
         extents_byte_at extents off
         = absolute_source (fun f => f) (byte_at example_parts off).
Proof.
  apply (write_extents_denotes (fun f => f) (fun _ => false) 512).
  - reflexivity.
  - repeat constructor; simpl; lia.
  - exact example_parts_non_overlapping.
  - repeat constructor; simpl;
      [by exists 0|by exists 2|by exists 2|by exists 4|by exists 4|by exists 8].
  - repeat constructor.
  - repeat constructor; simpl; lia.
  - repeat constructor; simpl; [by exists 0|by exists 0|by exists 4].
  - repeat constructor.
Defined.

Lemma write_parts_source_under_out_dir absolute rel ss l : forall acc,
  ss <> 0 ->
  Exists (fun p => exists f, source_file p = Some f /\ rel f = true) l ->
  write_parts absolute rel ss acc l = Raise AttributeError.
Proof.
  intros acc Hss Hex. revert acc.
  induction Hex as [p l (f & Hf & Hrel)|p l Hex IH]; intros [cur vmdk];
    cbn [write_parts]; unfold write_part, py_floordiv;
    destruct (Z.eqb_spec ss 0) as [|_]; try done.
  - rewrite Hf, Hrel. by destruct (negb _).
  - destruct (negb _), (source_file p) as [g|]; try apply IH;
      destruct (rel g); try done; apply IH.
Qed.

(** X6: a source file under the output directory ends [write] with an
    attribute error: the loop variable is rebound to the relative path,
    which has no [source_offset]. *)
Theorem write_extents_source_under_out_dir absolute rel ss l :
  ss <> 0 ->
  Exists (fun p => exists f, source_file p = Some f /\ rel f = true) l ->
  write_extents absolute rel ss l = Raise AttributeError.
Proof.
  intros Hss Hex. unfold write_extents.
  by apply write_parts_source_under_out_dir.
Qed.

(** The same at an image that lies in the output directory. *)
Lemma write_extents_source_under_out_dir_witness :
  write_extents (fun f => f) (fun f => String.prefix "/out/" f) 512
    [image_part "/out/disk.img" 4096]
  = Raise AttributeError.
Proof.
  apply (write_extents_source_under_out_dir (fun f => f)
           (fun f => String.prefix "/out/" f) 512).
  - lia.
  - constructor. by exists "/out/disk.img".
Defined.

End VmdkFacts.

(* ===================================================================== *)
(** * From the image to the descriptor *)
(* ===================================================================== *)

Module PipelineFacts.
Import VmBase Vmdk Overlay Pipeline.
Import UtilsFacts VmBaseFacts OverlayFacts VmdkFacts.

(** X7: the image is accepted as the first part of a disk exactly when its
    size is a multiple of the sector size of the disk; otherwise
    [_add_virtual_disk] ends with the error for a part that is not
    aligned. *)
Theorem image_part_accepted fs sector_size disk_image size :
  sector_size <> 0 ->
  is_file (fs disk_image) || is_block_device (fs disk_image) = true ->
  add_part fs sector_size [] (image_part disk_image size)
  = if decide (size mod sector_size = 0)
    then Ok [image_part disk_image size]
    else Raise (InvalidDiskPartError "Not aligned to sectors").
Proof.
  intros Hss Hkind.
  destruct (decide (size mod sector_size = 0)) as [Heq|Hne].
  - by apply (add_part_first fs sector_size _ disk_image).
  - apply (add_part_misaligned fs sector_size [] _ disk_image); try done.
    by right.
Qed.

(** The same at an image of 1000 bytes on a disk with sectors of 512
    bytes. *)
Lemma image_part_accepted_witness :
  add_part all_regular_files 512 [] (image_part "disk.img" 1000)
  = if decide (1000 mod 512 = 0)
    then Ok [image_part "disk.img" 1000]
    else Raise (InvalidDiskPartError "Not aligned to sectors").
Proof.
  apply (image_part_accepted all_regular_files 512 "disk.img" 1000).
  - lia.
  - reflexivity.
Defined.

(** X8: the decrypted device laid over a partition inside the image: the
    image is cut in two around it, and the part behind it is read from the
    image at the offset where it lies. *)
Theorem decrypted_part_splits_image fs sector_size disk_image image_size
    flat_mount parent_offset size :
  sector_size <> 0 ->
  is_file (fs disk_image) || is_block_device (fs disk_image) = true ->
  is_file (fs flat_mount) || is_block_device (fs flat_mount) = true ->
  image_size mod sector_size = 0 ->
  parent_offset mod sector_size = 0 ->
  (parent_offset + size) mod sector_size = 0 ->
  0 < parent_offset -> 0 < size -> parent_offset + size < image_size ->
  add_parts fs sector_size []
    [image_part disk_image image_size;
     decrypted_part flat_mount parent_offset size]
  = Ok [mkPart (Some disk_image) parent_offset 0 0;
        decrypted_part flat_mount parent_offset size;
        mkPart (Some disk_image) (image_size - (parent_offset + size))
          (parent_offset + size) (parent_offset + size)].
Proof.
  intros Hss Himg Hdev Hsize Hoff Hend Hpos Hlen Hin.
  cbn [add_parts].
  rewrite (add_part_first fs sector_size _ disk_image)
    by (done || by apply Z.mod_0_l).
  unfold add_part, py_mod, decrypted_part. cbn [source_file target_offset length].
  apply orb_true_iff in Hdev.
  replace (negb (is_file (fs flat_mount)) && negb (is_block_device (fs flat_mount)))
    with false by (destruct Hdev as [-> | ->]; simpl; by rewrite ?andb_false_r).
  destruct (Z.eqb_spec sector_size 0) as [|_]; [done|].
  rewrite Hoff, Hend. simpl negb. cbv iota.
  unfold merge, image_part. cbn [foldl]. unfold merge_step, merge_case.
  cbn [source_file target_offset length source_offset].
  rewrite ?Z.geb_leb, ?Z.gtb_ltb.
  repeat match goal with
    | |- context [Z.leb ?a ?b] => destruct (Z.leb_spec a b); try lia
    | |- context [Z.ltb ?a ?b] => destruct (Z.ltb_spec a b); try lia
    end.
  cbn [andb orb app]. unfold Utils.sorted. cbn [foldr].
  repeat (cbn [Utils.insert_sorted Utils.key_le target_offset];
          match goal with
          | |- context [Z.leb ?a ?b] => destruct (Z.leb_spec a b); try lia
          end).
  part_eq.
Qed.

(** The same at the example. *)
Lemma decrypted_part_splits_image_witness :
  add_parts all_regular_files 512 []
    [image_part "disk.img" 4096; decrypted_part "/dev/mapper/plain" 1024 1024]
  = Ok [mkPart (Some "disk.img") 1024 0 0;
        decrypted_part "/dev/mapper/plain" 1024 1024;
        mkPart (Some "disk.img") (4096 - (1024 + 1024))
          (1024 + 1024) (1024 + 1024)].
Proof.
  apply (decrypted_part_splits_image all_regular_files 512 "disk.img" 4096
           "/dev/mapper/plain" 1024 1024);
    (reflexivity || lia).
Defined.

Lemma pieces_describable rel sector_size part p :
  aligned sector_size p -> aligned sector_size part ->
  describable rel sector_size p ->
  0 < length part -> 0 <= target_offset part ->
  ~ starts_inside_and_outlasts part p ->
  Forall (describable rel sector_size) (pieces part p).
Proof.
  intros [Ha Hb] [Hc Hd] (Hlen & Hnonneg & Hsrc & Hrel) Hpart Hpartnn Hgood.
  unfold starts_inside_and_outlasts in Hgood.
  destruct (pieces_cases part p Hlen Hpart)
    as [[-> H]|[[-> H]|[[-> H]|[[-> H]|[[-> H]|[-> H]]]]]];
    try lia; repeat constructor; simpl; try done; try lia.
  apply Z.divide_add_r; [done|]. by apply Z.divide_sub_r.
Qed.

(** X9: insertion and the descriptor writer, one after the other, for a
    disk with sectors of 512 bytes, the sector of the descriptor format:
    the extent description written after [add_part] denotes the old byte
    map with the new part laid over it. *)
Theorem add_part_then_write fs absolute rel sector_size l part l' :
  sector_size = BYTES_PER_SECTOR ->
  builder_invariant sector_size l ->
  Forall (describable rel sector_size) l ->
  describable rel sector_size part ->
  Forall (fun p => ~ starts_inside_and_outlasts part p) l ->
  add_part fs sector_size l part = Ok l' ->
  exists total extents,
    write_extents absolute rel sector_size l' = Ok (total, extents)
    /\ forall off,
         extents_byte_at extents off
         = absolute_source absolute
             (if covers off part then byte_at [part] off else byte_at l off).
Proof.
  intros Hss (Hs & Hno & Hal) Hl Hpart Hgood Hadd.
  assert (Hpos512 : 0 < sector_size) by (by rewrite Hss).
  assert (Hpos : Forall (fun p => 0 < length p) l).
  { eapply Forall_impl; [exact Hl|]. by intros p (? & _). }
  pose proof Hpart as (Hplen & Hpnn & Hpsrc & Hprel).
  pose proof (add_part_perm _ _ _ _ _ Hadd) as Hperm.
  destruct (add_part_sorted_aligned _ _ _ _ _ Hal Hadd) as [Hs' Hal'].
  destruct (add_part_Ok _ _ _ _ _ Hadd) as [_ Hpal].
  assert (Hno' : non_overlapping l') by (by eapply add_part_non_overlapping).
  assert (Hl' : Forall (describable rel sector_size) l').
  { rewrite Hperm. constructor; [done|].
    apply Forall_forall. intros q Hq.
    apply list_elem_of_bind in Hq as (p & Hq & Hp).
    rewrite Forall_forall in Hl. rewrite Forall_forall in Hal.
    rewrite Forall_forall in Hgood.
    pose proof (pieces_describable rel sector_size part p
                  (Hal p Hp) Hpal (Hl p Hp) Hplen Hpnn (Hgood p Hp)) as Hall.
    rewrite Forall_forall in Hall. by apply Hall. }
  destruct (write_parts_denotes absolute rel sector_size Hpos512 l' 0 [])
    as (total & extents & Hw & _ & _ & _ & Hden); try done.
  - eapply Forall_impl; [exact Hl'|]. by intros p (? & _).
  - eapply Forall_impl; [exact Hl'|]. intros p (_ & ? & _). simpl. lia.
  - eapply Forall_impl; [exact Hl'|]. by intros p (_ & _ & ? & _).
  - eapply Forall_impl; [exact Hl'|]. by intros p (_ & _ & _ & ?).
  - exists total, extents. split; [done|]. intros off.
    unfold extents_byte_at. rewrite <- Hss, Hden. f_equal.
    rewrite <- (byte_at_perm off _ _ (symmetry Hperm))
      by by apply inserted_non_overlapping.
    by apply inserted_byte_at.
Qed.

(** The same at the example. *)
Lemma add_part_then_write_witness :
  exists total extents,
    write_extents (fun f => f) (fun _ => false) 512 example_parts
    = Ok (total, extents)
    /\ forall off,
         extents_byte_at extents off
         = absolute_source (fun f => f)
             (if covers off example_plain
              then byte_at [example_plain] off
              else byte_at [example_image] off).
Proof.
  apply (add_part_then_write all_regular_files (fun f => f) (fun _ => false)
           512 [example_image] example_plain example_parts).
  - reflexivity.
  - split; [repeat constructor|]. split; [repeat constructor|].
    repeat constructor; simpl; [by exists 0|by exists 8].
  - constructor; [|constructor].
    repeat split; simpl; try lia; try done. by exists 0.
  - repeat split; simpl; try lia; try done. by exists 0.
  - repeat constructor. unfold starts_inside_and_outlasts. simpl. lia.
  - reflexivity.
Defined.

End PipelineFacts.

(* ===================================================================== *)
(** * More about diskvm/utils.py: grouping and retrying *)
(* ===================================================================== *)

Module GroupbyFacts.
Import UtilsFacts.

Section Grouping.
Context {A : Type} (key : A -> Z).

(** The sort is stable: the elements with one key keep their order. *)
Lemma filter_insert_sorted reverse k x (l : list A) :
  filter (fun y => key y = k) (Utils.insert_sorted key reverse x l)
  = filter (fun y => key y = k) (x :: l).
Proof.
  induction l as [|y l IH]; simpl; [done|].
  destruct (Utils.key_le key reverse x y) eqn:Hle; [done|].
  rewrite filter_cons, IH, !filter_cons.
  destruct (decide (key y = k)) as [Hy|Hy], (decide (key x = k)) as [Hx|Hx];
    try done.
  exfalso. unfold Utils.key_le in Hle.
  destruct reverse; apply Z.leb_gt in Hle; lia.
Qed.

Lemma filter_sorted reverse k (l : list A) :
  filter (fun y => key y = k) (Utils.sorted key reverse l)
  = filter (fun y => key y = k) l.
Proof.
  induction l as [|x l IH]; simpl; [done|].
  by rewrite filter_insert_sorted, !filter_cons, IH.
Qed.

Lemma itertools_groupby_nonempty (l : list A) :
  Forall (fun kg => kg.2 <> []) (Utils.itertools_groupby key l).
Proof.
  induction l as [|x l IH]; simpl; [constructor|].
  destruct (Utils.itertools_groupby key l) as [|[k g] gs].
  - by repeat constructor.
  - apply Forall_cons in IH as [Hg Hgs].
    destruct (key x =? k); by repeat constructor.
Qed.

(** The groups of a list with ascending keys have strictly ascending keys. *)
Lemma itertools_groupby_strict_ascending (l : list A) :
  StronglySorted (fun a b => key a <= key b) l ->
  StronglySorted (fun a b : Z * list A => a.1 < b.1)
    (Utils.itertools_groupby key l).
Proof.
  induction l as [|x l IH]; simpl; intros Hl; [constructor|].
  apply StronglySorted_cons in Hl as [Hx Hl]. specialize (IH Hl).
  destruct (Utils.itertools_groupby key l) as [|[k g] gs] eqn:Hgs.
  - by repeat constructor.
  - apply StronglySorted_cons in IH as [Hk IH].
    destruct (Z.eqb_spec (key x) k) as [Heq|Hne].
    + by apply StronglySorted_cons.
    + destruct (itertools_groupby_head key l k g gs Hgs) as (y & l' & -> & ->).
      apply Forall_cons in Hx as [Hxy _].
      apply StronglySorted_cons. split; [|by apply StronglySorted_cons].
      constructor; [simpl; lia|].
      eapply Forall_impl; [exact Hk|]. intros b Hb. simpl in *. lia.
Qed.

Lemma filter_all (P : A -> Prop) `{!forall x, Decision (P x)} (l : list A) :
  Forall P l -> filter P l = l.
Proof.
  induction 1 as [|x l Hx Hl IH]; [done|].
  by rewrite filter_cons_True, IH.
Qed.

Lemma filter_none (P : A -> Prop) `{!forall x, Decision (P x)} (l : list A) :
  Forall (fun x => ~ P x) l -> filter P l = [].
Proof.
  induction 1 as [|x l Hx Hl IH]; [done|].
  by rewrite filter_cons_False.
Qed.

(** In a list of groups with different keys, each holding elements of its
    key only, a group is what the filter for its key finds. *)
Lemma group_is_filter (gs : list (Z * list A)) k g :
  NoDup gs.*1 ->
  Forall (fun kg => Forall (fun x => key x = kg.1) kg.2) gs ->
  (k, g) ∈ gs ->
  filter (fun x => key x = k) (concat gs.*2) = g.
Proof.
  induction gs as [|[k' g'] gs IH]; intros Hnd Hkeys Hin.
  - by apply elem_of_nil in Hin.
  - rewrite fmap_cons in Hnd. rewrite fmap_cons. cbn [concat fst snd] in *.
    apply NoDup_cons in Hnd as [Hk' Hnd].
    apply Forall_cons in Hkeys as [Hg' Hkeys]. simpl in Hg'.
    rewrite filter_app. apply elem_of_cons in Hin as [[= -> ->]|Hin].
    + rewrite filter_all by done. rewrite filter_none; [apply app_nil_r|].
      apply Forall_concat, Forall_fmap, Forall_forall. intros [k g] Hkg.
      rewrite Forall_forall in Hkeys. specialize (Hkeys _ Hkg). simpl in *.
      eapply Forall_impl; [exact Hkeys|]. intros x Hx1 Hx2.
      apply Hk'. apply list_elem_of_fmap. exists (k, g).
      split; [simpl; congruence|done].
    + rewrite filter_none, IH; try done.
      eapply Forall_impl; [exact Hg'|]. intros x Hx1 Hx2.
      apply Hk'. apply list_elem_of_fmap. exists (k, g).
      split; [simpl; congruence|done].
Qed.

Lemma strict_keys_NoDup (R : Z * list A -> Z * list A -> Prop)
    (gs : list (Z * list A)) :
  (forall a b, R a b -> a.1 <> b.1) ->
  StronglySorted R gs -> NoDup gs.*1.
Proof.
  intros Hirr. induction 1 as [|kg gs Hgs IH Hkg]; simpl; constructor; [|done].
  intros Hin. apply list_elem_of_fmap in Hin as (kg' & Heq & Hin).
  rewrite Forall_forall in Hkg. by apply (Hirr _ _ (Hkg kg' Hin)).
Qed.

(** X10: [groupby] gives one group for every key that occurs, the keys
    strictly ascending (descending with [reverse=True]); no group is empty,
    and a group holds the elements of its key in the order they have in
    the list. *)
Theorem groupby_groups (reverse : bool) (lst : list A) :
  StronglySorted
    (fun a b : Z * list A => if reverse then b.1 < a.1 else a.1 < b.1)
    (Utils.groupby key reverse lst)
  /\ (forall k g,
        (k, g) ∈ Utils.groupby key reverse lst ->
        g <> [] /\ g = filter (fun x => key x = k) lst)
  /\ (forall x, x ∈ lst -> exists g, (key x, g) ∈ Utils.groupby key reverse lst).
Proof.
  assert (Hstrict : StronglySorted
    (fun a b : Z * list A => if reverse then b.1 < a.1 else a.1 < b.1)
    (Utils.groupby key reverse lst)).
  { destruct reverse.
    - apply groupby_strict.
    - apply itertools_groupby_strict_ascending, sorted_ascending. }
  assert (Hnd : NoDup (Utils.groupby key reverse lst).*1).
  { eapply strict_keys_NoDup; [|exact Hstrict].
    intros a b. simpl. destruct reverse; lia. }
  split; [done|split].
  - intros k g Hin. split.
    + pose proof (itertools_groupby_nonempty (Utils.sorted key reverse lst)) as Hne.
      rewrite Forall_forall in Hne. apply (Hne _ Hin).
    + rewrite <- (filter_sorted reverse k lst).
      rewrite <- (itertools_groupby_concat key (Utils.sorted key reverse lst)) at 1.
      symmetry. apply group_is_filter; try done.
      apply itertools_groupby_keys.
  - intros x Hx.
    rewrite <- (sorted_perm key reverse lst),
      <- (itertools_groupby_concat key (Utils.sorted key reverse lst)) in Hx.
    apply list_elem_of_In, in_concat in Hx as (g & Hg & Hxg).
    apply list_elem_of_In, list_elem_of_fmap in Hg as ([k g'] & -> & Hkg).
    pose proof (itertools_groupby_keys key (Utils.sorted key reverse lst)) as Hkeys.
    rewrite Forall_forall in Hkeys. specialize (Hkeys _ Hkg).
    rewrite Forall_forall in Hkeys. simpl in *.
    apply list_elem_of_In in Hxg. rewrite (Hkeys x Hxg). by exists g'.
Qed.
End Grouping.
End GroupbyFacts.

Module RetryFacts.
Import Retry.

Section Retry.
Context {W E A : Type}.
Variable sleep : W -> W.
Variable func : W -> Result E A * W.

Lemma _wrapped_from_outcome n : forall w,
  exists k wk,
    (k <= n)%nat
    /\ state_before sleep func k w = Some wk
    /\ _wrapped_from sleep func (S n) w = passed_on (func wk)
    /\ ((exists e w', func wk = (Raise e, w')) -> k = n).
Proof.
  induction n as [|n IH]; intros w.
  - exists 0%nat, w. by repeat split.
  - destruct (func w) as [[a|e] w'] eqn:Hf.
    + exists 0%nat, w. repeat split; try lia; try done.
      * cbn [_wrapped_from]. by rewrite Hf.
      * intros (e & w'' & He). congruence.
    + destruct (IH (sleep w')) as (k & wk & Hk & Hst & Hw & Hlast).
      exists (S k), wk. repeat split; try lia.
      * cbn [state_before]. by rewrite Hf.
      * rewrite <- Hw. cbn [_wrapped_from]. by rewrite Hf.
      * intros H. f_equal. by apply Hlast.
Qed.

(** X11: [retry] calls the function until it returns, [num + 1] times at
    most, with a sleep after every call that raised but the last; what the
    last call made returns or raises is the outcome. *)
Theorem retry_outcome num w :
  0 <= num ->
  exists k wk,
    (k <= Z.to_nat num)%nat
    /\ state_before sleep func k w = Some wk
    /\ retry sleep func num w = passed_on (func wk)
    /\ ((exists e w', func wk = (Raise e, w')) -> k = Z.to_nat num).
Proof.
  intros Hnum. unfold retry.
  replace (Z.to_nat (1 + num)) with (S (Z.to_nat num)) by lia.
  apply _wrapped_from_outcome.
Qed.

End Retry.

(** The same at an unmount that succeeds at its third call, retried as
    [unmount_bitlocker] does. *)
Lemma retry_outcome_witness :
  exists k wk,
    (k <= Z.to_nat 10)%nat
    /\ state_before sleep_one busy_twice k (0%nat, 0%nat) = Some wk
    /\ retry sleep_one busy_twice 10 (0%nat, 0%nat) = passed_on (busy_twice wk)
    /\ ((exists e w', busy_twice wk = (Raise e, w')) -> k = Z.to_nat 10).
Proof.
  apply (retry_outcome sleep_one busy_twice 10 (0%nat, 0%nat)).
  lia.
Defined.


End RetryFacts.

(* ===================================================================== *)
(** * More about the plugin host: broadcast and exceptions *)
(* ===================================================================== *)

Module DispatchFacts.
Import Data Exec PluginsBase PluginsFacts.

Section Dispatch.
Context {W : Type}.
Implicit Types (ps : list (PluginSpec W)) (name : Hook) (kwargs : Kwargs).

Lemma dispatch_all_from_cons i p ps name kwargs (w : W) :
  dispatch_all_from i (p :: ps) name kwargs w
  = match p name kwargs w with
    | (Ok r, w0) =>
        let '(o, w', t) := dispatch_all_from (S i) ps name kwargs w0 in
        (o, w', Call name i kwargs :: t)
    | (Raise e, w0) => (Raised e, w0, [Call name i kwargs])
    end.
Proof.
  cbn [dispatch_all_from].
  unfold mbind, M_bind, bind, call, mbind, M_bind, bind, emit, host_op.
  destruct (p name kwargs w) as [[r|e] w0]; [|done].
  by destruct (dispatch_all_from (S i) ps name kwargs w0) as [[o w'] t].
Qed.

Lemma dispatch_all_from_answers ps name kwargs : forall i (w : W),
  let rs := answers ps name kwargs w in
  dispatch_all_from i ps name kwargs w
  = (match last rs with
     | Some (Raise e, _) => Raised e
     | _ => Returned tt
     end,
     match last rs with
     | Some (_, w') => w'
     | None => w
     end,
     calls name kwargs i (List.length rs))
  /\ (Forall (fun a => exists r, a.1 = Ok r) rs ->
      List.length rs = List.length ps).
Proof.
  induction ps as [|p ps IH]; intros i w; [done|].
  cbn zeta. rewrite dispatch_all_from_cons. cbn [answers].
  destruct (p name kwargs w) as [[r|e] w0].
  - destruct (IH (S i) w0) as [-> Hlen]. cbn zeta in Hlen. split.
    + cbn [List.length]. rewrite calls_cons.
      destruct (answers ps name kwargs w0) as [|a rs] eqn:Hrs; [done|].
      rewrite last_cons_cons.
      destruct (last (a :: rs)) as [[? ?]|] eqn:Hlast; [done|].
      by apply last_None in Hlast.
    + intros Hall. apply Forall_cons in Hall as [_ Hall]. simpl.
      by rewrite Hlen.
  - split; [done|]. intros Hall. apply Forall_cons in Hall as [(r & Hr) _].
    done.
Qed.

(** X12: [dispatch_all] calls the hook of every plugin, the added plugins
    before the fallback plugins, each on the state the one before left, and
    drops what the hooks return; the first exception ends the round and is
    passed on, and when no hook raises every plugin is called. *)
Theorem dispatch_all_calls_in_order (self : PluginManager W) name kwargs (w : W) :
  let rs := answers (plugins self ++ fallback_plugins self) name kwargs w in
  dispatch_all self name kwargs w
  = (match last rs with
     | Some (Raise e, _) => Raised e
     | _ => Returned tt
     end,
     match last rs with
     | Some (_, w') => w'
     | None => w
     end,
     calls name kwargs 0 (List.length rs))
  /\ (Forall (fun a => exists r, a.1 = Ok r) rs ->
      List.length rs
      = (List.length (plugins self) + List.length (fallback_plugins self))%nat).
Proof.
  intros rs. destruct (dispatch_all_from_answers (all_plugins self) name kwargs 0%nat w)
    as [H1 H2].
  split; [exact H1|]. intros Hall. rewrite <- length_app. by apply H2.
Qed.

Lemma dispatch_until_result_from_raises ps name kwargs : forall i (w : W) n e wn,
  answers ps name kwargs w !! n = Some (Raise e, wn) ->
  (forall m r' w'', (m < n)%nat ->
     answers ps name kwargs w !! m = Some (Ok r', w'') -> truthy r' = false) ->
  dispatch_until_result_from i ps name kwargs w
  = (Raised e, wn, calls name kwargs i (S n)).
Proof.
  induction ps as [|p ps IH]; intros i w n e wn Hn Hbefore; [done|].
  rewrite dispatch_until_result_from_cons.
  cbn [answers] in Hn, Hbefore.
  destruct (p name kwargs w) as [[r0|e0] w0].
  - destruct n as [|n]; [done|].
    rewrite (Hbefore 0%nat r0 w0) by (done || lia).
    rewrite (IH (S i) w0 n e wn); try done.
    intros m r' w'' Hm. apply (Hbefore (S m)). lia.
  - destruct n as [|n]; [|done]. by injection Hn as -> ->.
Qed.

(** X13: a hook that raises ends [dispatch_until_result]: when the
    answers before it are falsy, its exception is passed on, on the state
    the hook left, and no plugin after it is called. *)
Theorem dispatch_until_result_raises (self : PluginManager W) name kwargs
    (w : W) n e wn :
  answers (all_plugins self) name kwargs w !! n = Some (Raise e, wn) ->
  (forall m r' w'', (m < n)%nat ->
     answers (all_plugins self) name kwargs w !! m = Some (Ok r', w'') ->
     truthy r' = false) ->
  dispatch_until_result self name kwargs w
  = (Raised e, wn, calls name kwargs 0 (S n)).
Proof. apply dispatch_until_result_from_raises. Qed.
End Dispatch.

(** The same at a plugin that finds the device busy, in front of the
    generic plugin. *)
Lemma dispatch_until_result_raises_witness :
  dispatch_until_result
    (mkPluginManager [Completion.busy_plugin] [Runner.generic_plugin])
    unmount_volume (KwVolume example_disk example_volume) tt
  = (Raised DiskVmError, tt,
     calls unmount_volume (KwVolume example_disk example_volume) 0 1).
Proof.
  apply (dispatch_until_result_raises
           (mkPluginManager [Completion.busy_plugin] [Runner.generic_plugin])
           unmount_volume (KwVolume example_disk example_volume) tt 0%nat).
  - reflexivity.
  - intros m r' w'' Hm. lia.
Defined.

End DispatchFacts.

(* ===================================================================== *)
(** * More about the runner: how teardown and mounting end, and what they
      leave *)
(* ===================================================================== *)

Module CompletionFacts.
Import Data Exec PluginsBase Runner Completion.
Import ExecFacts UtilsFacts RunnerFacts PluginsFacts.

Section Finishes.
Context {S : Type}.
Variable I : S -> Prop.

Lemma finishes_ret {A} allowed (a : A) (Q : A -> Prop) :
  Q a -> finishes I allowed (ret a : M S A) Q.
Proof. intros Ha s Hs. by split. Qed.

Lemma finishes_bind {A B} allowed (m : M S A) (k : A -> M S B)
    (Q : A -> Prop) (R : B -> Prop) :
  finishes I allowed m Q ->
  (forall a, Q a -> finishes I allowed (k a) R) ->
  finishes I allowed (m ≫= k) R.
Proof.
  intros Hm Hk s Hs. unfold finishes_at, mbind, M_bind, bind.
  destruct (Hm s Hs) as [HI Ho].
  destruct (m s) as [[[a|e|] s'] t]; simpl in *; try done.
  destruct (Hk a Ho s' HI) as [HI' Ho'].
  by destruct (k a s') as [[o s''] t'].
Qed.

Lemma finishes_bind_get {B} allowed (k : S -> M S B) (R : B -> Prop) :
  (forall s, I s -> finishes_at I allowed (k s) R s) ->
  finishes I allowed (get ≫= k) R.
Proof.
  intros Hk s Hs. unfold finishes_at, mbind, M_bind, bind, get.
  destruct (Hk s Hs) as [HI Ho].
  by destruct (k s s) as [[o s'] t].
Qed.

Lemma finishes_try_except {A} allowed (m handler : M S A) (Q : A -> Prop) :
  finishes I (fun e => e = DiskVmError \/ allowed e) m Q ->
  finishes I allowed handler Q ->
  finishes I allowed (try_except m handler) Q.
Proof.
  intros Hm Hh s Hs. unfold finishes_at, try_except.
  destruct (Hm s Hs) as [HI Ho].
  destruct (m s) as [[[a|[]|] s'] t]; simpl in *; try done.
  - destruct (Hh s' HI) as [HI' Ho'].
    by destruct (handler s') as [[o s''] t'].
  - by destruct Ho.
Qed.

Lemma finishes_for_each {X} allowed (l : list X) (body : X -> M S unit) :
  (forall x, x ∈ l -> finishes I allowed (body x) (fun _ => True)) ->
  finishes I allowed (for_each l body) (fun _ => True).
Proof.
  induction l as [|x l IH]; intros Hbody; simpl.
  - by apply finishes_ret.
  - eapply finishes_bind; [apply Hbody; by left|].
    intros u _. apply IH. intros y Hy. apply Hbody. by right.
Qed.
End Finishes.

Section Teardown.
Context {W : Type}.
Variable host : Host W.
Variable plugins : PluginManager W.
Hypothesis Hplugins : Forall raises_only_DiskVmError (all_plugins plugins).
Hypothesis Hexists : path_exists_answers host.
(** The number of listed volumes. *)
Variable n : nat.

Let I (s : State W) : Prop := List.length (volumes (disk s)) = n.

Lemma path_exists_finishes allowed m :
  finishes I allowed (on_world (host_op (path_exists host m))) (fun _ => True).
Proof using Hexists.
  intros s Hs. unfold finishes_at, on_world, host_op.
  destruct (Hexists m (world s)) as (b & w' & ->). by split.
Qed.

Lemma dispatch_until_result_from_finishes (ps : list (PluginSpec W)) name kwargs :
  Forall raises_only_DiskVmError ps ->
  forall i w,
    match (dispatch_until_result_from i ps name kwargs w).1.1 with
    | Returned _ => True
    | Raised e => e = DiskVmError
    | Unfinished => False
    end.
Proof.
  induction 1 as [|p ps Hp Hps IH]; intros i w; [done|].
  rewrite dispatch_until_result_from_cons.
  destruct (p name kwargs w) as [[r|e] w0] eqn:Hpw; simpl.
  - destruct (truthy r); [done|].
    specialize (IH (S i) w0).
    by destruct (dispatch_until_result_from (S i) ps name kwargs w0)
      as [[o w'] t].
  - by eapply Hp.
Qed.

Lemma dispatch_until_result_volume_finishes allowed name idx :
  (idx < n)%nat ->
  finishes I (fun e => e = DiskVmError \/ allowed e)
    (dispatch_until_result_volume plugins name idx) (fun _ => True).
Proof using Hplugins.
  intros Hidx s Hs. unfold I in Hs.
  destruct (lookup_lt_is_Some_2 (volumes (disk s)) idx) as [v Hv]; [lia|].
  unfold finishes_at, dispatch_until_result_volume, volume_at, on_world,
    mbind, M_bind, bind, get_disk, ret.
  rewrite Hv. simpl.
  pose proof (dispatch_until_result_from_finishes (all_plugins plugins) name
                (KwVolume (disk s) v) Hplugins 0%nat (world s)) as Ho.
  unfold dispatch_until_result.
  destruct (dispatch_until_result_from 0 (all_plugins plugins) name
              (KwVolume (disk s) v) (world s)) as [[o w'] t].
  simpl in *. split; [done|]. destruct o; auto.
Qed.

Lemma update_volume_finishes allowed idx f :
  finishes I allowed (@update_volume W idx f) (fun _ => True).
Proof.
  intros s Hs. unfold finishes_at, update_volume, modify_disk_info, I in *.
  simpl. by rewrite length_alter.
Qed.

Lemma unmount_filesystems_of_finishes (group : list (nat * VolumeInfo)) :
  (forall iv, iv ∈ group -> (iv.1 < n)%nat) ->
  finishes I (fun _ => False) (unmount_filesystems_of host plugins group)
    (fun _ => True).
Proof using Hplugins Hexists.
  intros Hgroup. apply finishes_for_each. intros iv Hiv s Hs.
  destruct (lookup_lt_is_Some_2 (volumes (disk s)) iv.1) as [v Hv];
    [unfold I in Hs; rewrite Hs; by apply Hgroup|].
  assert (Hat : forall k : VolumeInfo -> M (State W) unit,
            (volume_at iv.1 ≫= k) s = k v s).
  { intros k. unfold volume_at, mbind, M_bind, bind, get_disk, ret.
    rewrite Hv. simpl. by destruct (k v s) as [[o s'] t]. }
  unfold finishes_at. rewrite Hat.
  destruct (filesystem_mount v) as [m|]; [|by split].
  revert s Hs Hv Hat. intros s Hs _ _. revert s Hs.
  eapply finishes_bind; [apply path_exists_finishes|].
  intros [|] _; [|by apply finishes_ret].
  apply finishes_try_except; [|by apply finishes_ret].
  eapply finishes_bind.
  - apply dispatch_until_result_volume_finishes. by apply Hgroup.
  - intros res _. destruct (truthy res);
      [apply update_volume_finishes|by apply finishes_ret].
Qed.

Lemma unmount_volumes_of_finishes (group : list (nat * VolumeInfo)) :
  (forall iv, iv ∈ group -> (iv.1 < n)%nat) ->
  finishes I (fun _ => False) (unmount_volumes_of host plugins group)
    (fun _ => True).
Proof using Hplugins Hexists.
  intros Hgroup. apply finishes_for_each. intros iv Hiv s Hs.
  destruct (lookup_lt_is_Some_2 (volumes (disk s)) iv.1) as [v Hv];
    [unfold I in Hs; rewrite Hs; by apply Hgroup|].
  assert (Hat : forall k : VolumeInfo -> M (State W) unit,
            (volume_at iv.1 ≫= k) s = k v s).
  { intros k. unfold volume_at, mbind, M_bind, bind, get_disk, ret.
    rewrite Hv. simpl. by destruct (k v s) as [[o s'] t]. }
  unfold finishes_at. rewrite Hat.
  destruct (flat_mount v) as [m|]; [|by split].
  revert s Hs Hv Hat. intros s Hs _ _. revert s Hs.
  eapply finishes_bind; [apply path_exists_finishes|].
  intros [|] _; [|by apply finishes_ret].
  apply finishes_try_except; [|by apply finishes_ret].
  eapply finishes_bind.
  - apply dispatch_until_result_volume_finishes. by apply Hgroup.
  - intros res _. destruct (truthy res);
      [apply update_volume_finishes|by apply finishes_ret].
Qed.
End Teardown.

(** The loop of the teardown neither raises nor stops short, and keeps the
    number of listed volumes. *)
Lemma teardown_loop_finishes {W} (host : Host W) (plugins : PluginManager W)
    (d : DiskInfo) :
  Forall raises_only_DiskVmError (all_plugins plugins) ->
  path_exists_answers host ->
  finishes
    (fun s' : State W =>
       List.length (volumes (disk s')) = List.length (volumes d))
    (fun _ => False)
    (for_each
       (Utils.groupby (fun iv : nat * VolumeInfo => volume_depth iv.2)
          true (imap pair (volumes d)))
       (fun g => unmount_filesystems_of host plugins g.2;;
                 unmount_volumes_of host plugins g.2))
    (fun _ => True).
Proof.
  intros Hplugins Hexists.
  apply finishes_for_each. intros [k g] Hkg.
  assert (Hg : forall iv, iv ∈ g -> (iv.1 < List.length (volumes d))%nat).
  { intros iv Hiv.
    destruct (groupby_elem_of _ _ _ _ _ Hkg Hiv) as [Hin _].
    apply elem_of_lookup_imap in Hin as (i & v & -> & Hv).
    simpl. by eapply lookup_lt_Some. }
  eapply finishes_bind.
  - by apply unmount_filesystems_of_finishes.
  - intros u _. by apply unmount_volumes_of_finishes.
Qed.

(** X14: the teardown completes.  When the hooks raise nothing but
    [DiskVmError] and [Path.exists] answers for every path, without an
    error of its own, [unmount_partitions_and_filesystems] returns, whatever
    the hooks answer and whichever of them fail. *)
Theorem teardown_returns {W} (host : Host W) (plugins : PluginManager W)
    (s : State W) :
  Forall raises_only_DiskVmError (all_plugins plugins) ->
  path_exists_answers host ->
  (unmount_partitions_and_filesystems host plugins s).1.1 = Returned tt.
Proof.
  intros Hplugins Hexists.
  destruct (teardown_loop_finishes host plugins (disk s) Hplugins Hexists
              s eq_refl) as [_ Ho].
  unfold unmount_partitions_and_filesystems, mbind, M_bind, bind, get_disk.
  destruct (for_each _ _ s) as [[[[]|e|] s'] t]; done.
Qed.

(** The same at the volumes of scenario E3, with a plugin that finds every
    device busy in front of the generic plugin. *)
Lemma teardown_returns_witness :
  (unmount_partitions_and_filesystems example_host
     (mkPluginManager [busy_plugin] [generic_plugin]) e3_state).1.1
  = Returned tt.
Proof.
  apply (teardown_returns example_host
           (mkPluginManager [busy_plugin] [generic_plugin]) e3_state).
  - repeat constructor; intros name kwargs w e w' H; destruct name;
      simpl in H; congruence.
  - intros m w. by exists true, w.
Defined.

(** X25: the context manager cleans up and passes the outcome on.  When
    the hooks raise nothing but [DiskVmError], [Path.exists] answers for
    every path without an error of its own, and mounting and the body come
    to an end, [mount_partitions_and_filesystems] ends as they did, with
    the same result or the same exception, after the teardown has run from
    the state they left: the hook calls of the teardown follow theirs. *)
Theorem mount_context_cleans_up {W A} (host : Host W)
    (plugins : PluginManager W) (fuel : nat) (body : M (State W) A)
    (s : State W) :
  Forall raises_only_DiskVmError (all_plugins plugins) ->
  path_exists_answers host ->
  let mounted :=
    (_mount_partitions host plugins;;
     _mount_filesystems host plugins fuel;;
     body) s in
  let teardown :=
    unmount_partitions_and_filesystems host plugins mounted.1.2 in
  mounted.1.1 <> Unfinished ->
  mount_partitions_and_filesystems host plugins fuel body s
  = (mounted.1.1, teardown.1.2, mounted.2 ++ teardown.2).
Proof.
  intros Hplugins Hexists mounted teardown Hended.
  unfold mount_partitions_and_filesystems, try_finally.
  fold mounted. subst teardown.
  destruct mounted as [[o s'] t] eqn:Hm. cbn [fst snd] in *.
  destruct (teardown_loop_finishes host plugins (disk s') Hplugins Hexists
              s' eq_refl) as [_ Ho].
  unfold unmount_partitions_and_filesystems, mbind, M_bind, bind, get_disk
    in *.
  destruct (for_each _ _ s') as [[[[]|e|] s''] t']; try done.
  by destruct o.
Qed.

(** The same on the MBR disk with two partitions, a plugin that finds every
    device busy in front of the generic plugin, and an empty body. *)
Lemma mount_context_cleans_up_witness :
  mount_partitions_and_filesystems example_host
    (mkPluginManager [busy_plugin] [generic_plugin]) 4 (ret tt) mbr_state
  = (((_mount_partitions example_host
         (mkPluginManager [busy_plugin] [generic_plugin]);;
       _mount_filesystems example_host
         (mkPluginManager [busy_plugin] [generic_plugin]) 4;;
       ret tt) mbr_state).1.1,
     (unmount_partitions_and_filesystems example_host
        (mkPluginManager [busy_plugin] [generic_plugin])
        ((_mount_partitions example_host
            (mkPluginManager [busy_plugin] [generic_plugin]);;
          _mount_filesystems example_host
            (mkPluginManager [busy_plugin] [generic_plugin]) 4;;
          ret tt) mbr_state).1.2).1.2,
     ((_mount_partitions example_host
         (mkPluginManager [busy_plugin] [generic_plugin]);;
       _mount_filesystems example_host
         (mkPluginManager [busy_plugin] [generic_plugin]) 4;;
       ret tt) mbr_state).2
     ++ (unmount_partitions_and_filesystems example_host
          (mkPluginManager [busy_plugin] [generic_plugin])
          ((_mount_partitions example_host
              (mkPluginManager [busy_plugin] [generic_plugin]);;
            _mount_filesystems example_host
              (mkPluginManager [busy_plugin] [generic_plugin]) 4;;
            ret tt) mbr_state).1.2).2).
Proof.
  apply (mount_context_cleans_up example_host
           (mkPluginManager [busy_plugin] [generic_plugin]) 4 (ret tt)
           mbr_state).
  - repeat constructor; intros name kwargs w e w' H; destruct name;
      simpl in H; congruence.
  - intros m w. by exists true, w.
  - vm_compute. discriminate.
Defined.

Section Cleared.
Context {W : Type}.
Variable host : Host W.
Variable plugins : PluginManager W.
(** The disk when the teardown starts. *)
Variable d0 : DiskInfo.

Let ID (d : DiskInfo) : Prop :=
  readonly d = readonly d0
  /\ flat_mounted_disk d = flat_mounted_disk d0
  /\ disk_info d = disk_info d0
  /\ Forall2 cleared (volumes d0) (volumes d).

Lemma cleared_alter f idx d :
  (forall v v', cleared v v' -> cleared v (f v')) ->
  ID d -> ID (set_volumes (alter f idx (volumes d)) d).
Proof.
  intros Hf (H1 & H2 & H3 & H4). repeat split; try done. simpl.
  apply Forall2_alter_r; [done|]. intros v v' _ _. apply Hf.
Qed.

Lemma cleared_set_filesystem_mount v v' :
  cleared v v' -> cleared v (set_filesystem_mount None v').
Proof. intros (?&?&?&?&?&?). repeat split; simpl; auto. Qed.

Lemma cleared_set_flat_mount v v' :
  cleared v v' -> cleared v (set_flat_mount None v').
Proof. intros (?&?&?&?&?&?). repeat split; simpl; auto. Qed.

Lemma teardown_cleared :
  hoareD ID (fun _ => True) (fun d => d = d0)
    (unmount_partitions_and_filesystems host plugins) (fun _ _ => True).
Proof.
  assert (H0 : ID d0).
  { repeat split. apply Forall_Forall2_diag, Forall_forall.
    intros v _. repeat split; auto. }
  unfold unmount_partitions_and_filesystems.
  apply hoareD_bind_get_disk. intros d ->.
  eapply hoareD_conseq; [|by intros d ->; exact H0|done].
  apply hoareD_for_each. intros [k g] _. eapply hoareD_bind.
  - apply hoareD_post_inv. apply unmount_filesystems_of_ok; [done|].
    intros idx d. apply cleared_alter, cleared_set_filesystem_mount.
  - intros []. eapply hoareD_conseq;
      [apply unmount_volumes_of_ok| by intros d [? _] | done]; [done|].
    intros idx d. apply cleared_alter, cleared_set_flat_mount.
Qed.
End Cleared.

(** X15: the teardown removes and reorders nothing: wherever it stops, it
    leaves the disk and the list of its volumes as they are, but for mount
    points it has set to [None]. *)
Theorem teardown_only_clears_mounts {W} (host : Host W)
    (plugins : PluginManager W) (s : State W) :
  let d' := disk (unmount_partitions_and_filesystems host plugins s).1.2 in
  readonly d' = readonly (disk s)
  /\ flat_mounted_disk d' = flat_mounted_disk (disk s)
  /\ disk_info d' = disk_info (disk s)
  /\ Forall2 cleared (volumes (disk s)) (volumes d').
Proof.
  intros d'. by destruct (teardown_cleared host plugins (disk s) s eq_refl) as [H _].
Qed.
End CompletionFacts.

Module MountLoopFacts.
Import Data Exec PluginsBase Runner Completion CompletionFacts.
Import ExecFacts RunnerFacts PluginsFacts.

Section Grows.
Context {W : Type}.
Variable host : Host W.
Variable plugins : PluginManager W.
(** The volumes listed when the loop starts. *)
Variable vols0 : list VolumeInfo.

Let ID (d : DiskInfo) : Prop :=
  exists olds news,
    volumes d = olds ++ news
    /\ Forall2 same_but_filesystem_mount vols0 olds
    /\ Forall (fun v => is_Some (parent v)) news.
Let E (e : Event) : Prop := True.

Lemma grows_update idx m d :
  ID d ->
  ID (set_volumes (alter (set_filesystem_mount (Some m)) idx (volumes d)) d).
Proof.
  intros (olds & news & Hd & Holds & Hnews). simpl. rewrite Hd, alter_app.
  destruct (decide (idx < List.length olds)%nat).
  - exists (alter (set_filesystem_mount (Some m)) idx olds), news.
    repeat split; try done. apply Forall2_alter_r; [done|].
    intros v v' _ _ (?&?&?&?&?). by repeat split.
  - exists olds, (alter (set_filesystem_mount (Some m)) (idx - List.length olds)%nat news).
    repeat split; try done. apply Forall_alter; [done|]. by intros v _.
Qed.

Lemma grows_append v d :
  is_Some (parent v) -> ID d -> ID (set_volumes (volumes d ++ [v]) d).
Proof.
  intros Hv (olds & news & Hd & Holds & Hnews). simpl.
  exists olds, (news ++ [v]). rewrite Hd, <- app_assoc.
  repeat split; try done. apply Forall_app. by repeat constructor.
Qed.

Lemma hoareD_grows_seq {A B} (m : M (State W) A) (k : A -> M (State W) B)
    (Q : A -> DiskInfo -> Prop) (R : B -> DiskInfo -> Prop) :
  hoareD ID E ID m Q ->
  (forall a, hoareD ID E ID (k a) R) ->
  hoareD ID E ID (m ≫= k) R.
Proof.
  intros Hm Hk. eapply hoareD_bind; [apply hoareD_post_inv, Hm|].
  intros a. eapply hoareD_conseq; [apply Hk| |done]. by intros d [? _].
Qed.

Lemma grows_guarded name idx :
  hoareD ID E ID
    (d ← get_disk;
     if negb (readonly d) then dispatch_all_volume plugins name idx else ret tt)
    (fun _ _ => True).
Proof.
  apply hoareD_bind_get_disk. intros d Hd.
  destruct (negb (readonly d)).
  - eapply hoareD_conseq;
      [apply (hoareD_dispatch_all_volume plugins ID E (fun d' => d' = d))
      |done|done]; [by intros d' ->|done].
  - apply hoareD_ret. by intros d' ->.
Qed.

Lemma add_new_volume_grows idx new_p :
  hoareD ID E ID (add_new_volume host plugins idx new_p) (fun _ _ => True).
Proof.
  unfold add_new_volume.
  apply hoareD_bind_volume_at; [done|]. intros d p Hd Hp.
  set (v := match parent new_p with
            | Some _ => new_p
            | None => set_parent (Some p) new_p
            end).
  assert (Hv : is_Some (parent v)).
  { subst v. destruct (parent new_p) eqn:Hparent; [by rewrite Hparent|done]. }
  eapply hoareD_bind.
  { instantiate (1 := fun v' d' => d' = d /\ is_Some (parent v')).
    destruct (size v =? 0).
    - eapply hoareD_bind.
      + apply (hoareD_host_op ID E (fun d' => d' = d)). by intros d' ->.
      + intros n. apply hoareD_ret. by intros d' ->.
    - apply hoareD_ret. by intros d' ->. }
  intros v'. eapply hoareD_bind.
  { apply (hoareD_append_volume ID E _ (fun _ d' => ID d')).
    intros d' [-> Hv']. split; by apply grows_append. }
  intros new_idx. eapply hoareD_grows_seq.
  { apply (hoareD_dispatch_all_volume plugins ID E ID); done. }
  intros []. apply grows_guarded.
Qed.

Lemma mount_volume_grows idx :
  hoareD ID E ID (mount_volume host plugins idx) (fun _ _ => True).
Proof.
  unfold mount_volume.
  apply hoareD_bind_volume_at; [done|]. intros d p Hd Hp.
  destruct (flat_mount p); [|apply hoareD_ret; by intros d' ->].
  eapply hoareD_bind.
  { apply (hoareD_dispatch_until_result_volume plugins ID E (fun d' => d' = d));
      [by intros d' ->|done]. }
  intros res.
  assert (Hvols : forall l,
             hoareD ID E (fun d' => d' = d)
               (for_each l (add_new_volume host plugins idx)) (fun _ _ => True)).
  { intros l. eapply hoareD_conseq; [apply hoareD_for_each| |done].
    - intros new_p _. apply add_new_volume_grows.
    - by intros d' ->. }
  destruct res as [|b|m|v|l]; cbv beta iota.
  - apply hoareD_ret. by intros d' ->.
  - apply hoareD_ret. by intros d' ->.
  - eapply hoareD_bind.
    { apply (hoareD_update_volume ID E _ (fun _ d' => ID d')).
      intros d' ->. split; by apply grows_update. }
    intros []. eapply hoareD_grows_seq.
    { apply (hoareD_dispatch_all_volume plugins ID E ID); done. }
    intros []. apply grows_guarded.
  - apply Hvols.
  - apply Hvols.
Qed.

Lemma _mount_filesystems_from_grows fuel : forall idx,
  hoareD ID E ID (_mount_filesystems_from host plugins fuel idx)
    (fun _ _ => True).
Proof.
  induction fuel as [|fuel IH]; intros idx; simpl.
  - by apply hoareD_unfinished.
  - apply hoareD_bind_get_disk. intros d Hd.
    destruct (idx <? List.length (volumes d))%nat.
    + eapply hoareD_conseq; [|by intros d' -> |done].
      eapply hoareD_grows_seq; [apply mount_volume_grows|]. intros []. apply IH.
    + apply hoareD_ret. by intros d' ->.
Qed.
End Grows.

(** X16: the mount loop only adds.  Wherever [_mount_filesystems] stops,
    the volumes listed before are in their places and differ in
    [filesystem_mount] at most, and every volume listed behind them has a
    parent. *)
Theorem _mount_filesystems_grows {W} (host : Host W) (plugins : PluginManager W)
    (fuel : nat) (s : State W) :
  exists olds news,
    volumes (disk (_mount_filesystems host plugins fuel s).1.2) = olds ++ news
    /\ Forall2 same_but_filesystem_mount (volumes (disk s)) olds
    /\ Forall (fun v => is_Some (parent v)) news.
Proof.
  destruct (_mount_filesystems_from_grows host plugins (volumes (disk s)) fuel
              0%nat s) as [H _]; [|exact H].
  exists (volumes (disk s)), []. rewrite app_nil_r. repeat split; [|done].
  apply Forall_Forall2_diag, Forall_forall. by intros v _.
Qed.

Section Fuel.
Context {W : Type}.
Variable host : Host W.
Variable plugins : PluginManager W.
Hypothesis Hplugins : Forall mounts_filesystems_only (all_plugins plugins).
Variable n : nat.

Let I (s : State W) : Prop := List.length (volumes (disk s)) = n.
Let any (e : Exn) : Prop := True.

Lemma dispatch_all_from_finishes (ps : list (PluginSpec W)) name kwargs :
  forall i w, (dispatch_all_from i ps name kwargs w).1.1 <> Unfinished.
Proof.
  induction ps as [|p ps IH]; intros i w; [done|].
  cbn [dispatch_all_from].
  unfold mbind, M_bind, bind, call, mbind, M_bind, bind, emit, host_op.
  destruct (p name kwargs w) as [[r|e] w0]; [|done].
  specialize (IH (S i) w0).
  by destruct (dispatch_all_from (S i) ps name kwargs w0) as [[o w'] t].
Qed.

Lemma dispatch_all_volume_finishes name idx :
  (idx < n)%nat ->
  finishes I any (dispatch_all_volume plugins name idx) (fun _ => True).
Proof.
  intros Hidx s Hs. unfold I in Hs.
  destruct (lookup_lt_is_Some_2 (volumes (disk s)) idx) as [v Hv]; [lia|].
  unfold finishes_at, dispatch_all_volume, volume_at, on_world,
    mbind, M_bind, bind, get_disk, ret.
  rewrite Hv. simpl.
  pose proof (dispatch_all_from_finishes (all_plugins plugins) name
                (KwVolume (disk s) v) 0%nat (world s)) as Ho.
  unfold dispatch_all.
  destruct (dispatch_all_from 0 (all_plugins plugins) name
              (KwVolume (disk s) v) (world s)) as [[o w'] t].
  simpl in *. split; [done|]. by destruct o.
Qed.

Lemma guarded_finishes name idx :
  (idx < n)%nat ->
  finishes I any
    (d ← get_disk;
     if negb (readonly d) then dispatch_all_volume plugins name idx else ret tt)
    (fun _ => True).
Proof.
  intros Hidx s Hs. unfold finishes_at, mbind, M_bind, bind, get_disk.
  destruct (negb (readonly (disk s))).
  - destruct (dispatch_all_volume_finishes name idx Hidx s Hs) as [HI Ho].
    by destruct (dispatch_all_volume plugins name idx s) as [[o s'] t].
  - by split.
Qed.

(** What [dispatch_until_result] returns for [mount] is a mount point or
    nothing. *)
Lemma dispatch_mount_result (ps : list (PluginSpec W)) kwargs :
  Forall mounts_filesystems_only ps ->
  forall i w,
    match (dispatch_until_result_from i ps mount kwargs w).1.1 with
    | Returned (RVolume _) | Returned (RVolumes _) | Unfinished => False
    | _ => True
    end.
Proof.
  induction 1 as [|p ps Hp Hps IH]; intros i w; [done|].
  rewrite dispatch_until_result_from_cons.
  destruct (p mount kwargs w) as [[r|e] w0] eqn:Hpw; simpl; [|done].
  destruct (truthy r) eqn:Hr.
  - simpl. specialize (Hp _ _ _ _ Hpw). by destruct r.
  - specialize (IH (S i) w0).
    by destruct (dispatch_until_result_from (S i) ps mount kwargs w0)
      as [[o w'] t].
Qed.

Lemma dispatch_mount_finishes idx :
  (idx < n)%nat ->
  finishes I any (dispatch_until_result_volume plugins mount idx)
    (fun r => match r with
              | RVolume _ | RVolumes _ => False
              | _ => True
              end).
Proof using Hplugins.
  intros Hidx s Hs. unfold I in Hs.
  destruct (lookup_lt_is_Some_2 (volumes (disk s)) idx) as [v Hv]; [lia|].
  unfold finishes_at, dispatch_until_result_volume, volume_at, on_world,
    mbind, M_bind, bind, get_disk, ret.
  rewrite Hv. simpl.
  pose proof (dispatch_mount_result (all_plugins plugins)
                (KwVolume (disk s) v) Hplugins 0%nat (world s)) as Ho.
  unfold dispatch_until_result.
  destruct (dispatch_until_result_from 0 (all_plugins plugins) mount
              (KwVolume (disk s) v) (world s)) as [[o w'] t].
  simpl in *. split; [done|]. by destruct o as [[]| |].
Qed.

Lemma mount_volume_finishes idx :
  (idx < n)%nat ->
  finishes I any (mount_volume host plugins idx) (fun _ => True).
Proof using Hplugins.
  intros Hidx s Hs.
  destruct (lookup_lt_is_Some_2 (volumes (disk s)) idx) as [p Hp];
    [unfold I in Hs; lia|].
  assert (Hat : forall k : VolumeInfo -> M (State W) unit,
            (volume_at idx ≫= k) s = k p s).
  { intros k. unfold volume_at, mbind, M_bind, bind, get_disk, ret.
    rewrite Hp. simpl. by destruct (k p s) as [[o s'] t]. }
  unfold mount_volume. unfold finishes_at. rewrite Hat.
  destruct (flat_mount p); [|by split].
  assert (Hk : finishes I any
    (res ← dispatch_until_result_volume plugins mount idx;
     match match res with RVolume v => RVolumes [v] | _ => res end with
     | RPath m =>
         update_volume idx (set_filesystem_mount (Some m));;
         dispatch_all_volume plugins mounted_filesystem idx;;
         d ← get_disk;
         if negb (readonly d)
         then dispatch_all_volume plugins modify_filesystem idx
         else ret tt
     | RVolumes l => for_each l (add_new_volume host plugins idx)
     | _ => ret tt
     end) (fun _ => True)); [|exact (Hk s Hs)].
  eapply finishes_bind; [by apply dispatch_mount_finishes|].
  intros [|b|m|v|l] Hres; try done; try (by apply finishes_ret).
  eapply finishes_bind; [apply update_volume_finishes|]. intros u _.
  eapply finishes_bind; [by apply dispatch_all_volume_finishes|]. intros u' _.
  by apply guarded_finishes.
Qed.

Lemma finishes_bind_get_disk {B} allowed (k : DiskInfo -> M (State W) B)
    (R : B -> Prop) :
  (forall s, I s -> finishes_at I allowed (k (disk s)) R s) ->
  finishes I allowed (get_disk ≫= k) R.
Proof.
  intros Hk s Hs. unfold finishes_at, mbind, M_bind, bind, get_disk.
  destruct (Hk s Hs) as [HI Ho].
  by destruct (k (disk s) s) as [[o s'] t].
Qed.

Lemma _mount_filesystems_from_finishes fuel : forall idx,
  (idx <= n)%nat -> (n < fuel + idx)%nat ->
  finishes I any (_mount_filesystems_from host plugins fuel idx) (fun _ => True).
Proof using Hplugins.
  induction fuel as [|fuel IH]; intros idx Hidx Hfuel; [lia|].
  cbn [_mount_filesystems_from].
  apply finishes_bind_get_disk. intros s Hs.
  pose proof Hs as Hn. unfold I in Hn. rewrite Hn.
  destruct (Nat.ltb_spec idx n) as [Hlt|Hge]; [|by split].
  assert (Hk : finishes I any
              (mount_volume host plugins idx;;
               _mount_filesystems_from host plugins fuel (S idx))
              (fun _ => True)); [|exact (Hk s Hs)].
  eapply finishes_bind; [by apply mount_volume_finishes|].
  intros u _. apply IH; lia.
Qed.
End Fuel.

(** X17: the mount loop ends when no plugin finds volumes inside volumes:
    it makes one pass for every listed volume, so that more fuel than there
    are volumes is enough, and the list keeps its length. *)
Theorem _mount_filesystems_terminates {W} (host : Host W)
    (plugins : PluginManager W) (fuel : nat) (s : State W) :
  Forall mounts_filesystems_only (all_plugins plugins) ->
  (List.length (volumes (disk s)) < fuel)%nat ->
  (_mount_filesystems host plugins fuel s).1.1 <> Unfinished
  /\ List.length (volumes (disk (_mount_filesystems host plugins fuel s).1.2))
     = List.length (volumes (disk s)).
Proof.
  intros Hplugins Hfuel.
  destruct (_mount_filesystems_from_finishes host plugins Hplugins
              (List.length (volumes (disk s))) fuel 0%nat) with (s := s)
    as [HI Ho]; [lia|lia|done|].
  split; [|exact HI]. unfold _mount_filesystems.
  by destruct ((_mount_filesystems_from host plugins fuel 0 s).1.1).
Qed.
(** The same at the volumes of scenario E3 and the generic plugin, whose
    [mount] returns a mount point. *)
Lemma _mount_filesystems_terminates_witness :
  (_mount_filesystems example_host (mkPluginManager [] [generic_plugin])
     6 e3_state).1.1 <> Unfinished
  /\ List.length
       (volumes (disk (_mount_filesystems example_host
                         (mkPluginManager [] [generic_plugin]) 6 e3_state).1.2))
     = List.length (volumes (disk e3_state)).
Proof.
  apply (_mount_filesystems_terminates example_host
           (mkPluginManager [] [generic_plugin]) 6 e3_state).
  - repeat constructor. intros kwargs w r w' H. injection H as <- _. exact I.
  - simpl. lia.
Defined.

End MountLoopFacts.

Module PartitionsFacts.
Import Data Exec PluginsBase Runner Completion ExecFacts RunnerFacts.

Section Partitions.
Context {W : Type}.
Variable host : Host W.
Variable plugins : PluginManager W.

Let T (d : DiskInfo) : Prop := True.
Let E (e : Event) : Prop := True.

Lemma _add_partition_info_appends d1 offset size volume_type :
  hoareD T E (fun d => d = d1)
    (_add_partition_info host plugins offset size volume_type)
    (fun _ d' =>
       exists v, partition_volume offset size volume_type v
                 /\ d' = set_volumes (volumes d1 ++ [v]) d1).
Proof.
  unfold _add_partition_info.
  apply hoareD_bind_get_disk. intros d ->.
  eapply hoareD_bind.
  { apply (hoareD_host_op T E (fun d => d = d1)). done. }
  intros loop_dev. cbv beta.
  set (v := mkVolumeInfo (Some loop_dev) None None offset size (Some volume_type)).
  set (Q := fun d' : DiskInfo => d' = set_volumes (volumes d1 ++ [v]) d1).
  eapply hoareD_bind.
  { apply (hoareD_append_volume T E (fun d => d = d1) (fun _ => Q)).
    by intros d ->. }
  intros idx. eapply hoareD_bind.
  { apply (hoareD_dispatch_all_volume plugins T E Q); done. }
  intros u. apply hoareD_bind_get_disk. intros d Hd.
  eapply hoareD_conseq with (PD' := Q) (QD' := fun _ => Q).
  - destruct (negb (readonly d)).
    + apply hoareD_dispatch_all_volume; done.
    + by apply hoareD_ret.
  - by intros d' ->.
  - intros u' d' Hd'. exists v. split; [by exists loop_dev|done].
Qed.

Lemma for_each_partition {X} (R : X -> VolumeInfo -> Prop) d1
    (body : X -> M (State W) unit) (ps : list X) :
  (forall p vols,
     hoareD T E (fun d => d = set_volumes vols d1) (body p)
       (fun _ d' => exists v, R p v /\ d' = set_volumes (vols ++ [v]) d1)) ->
  forall vols,
    hoareD T E (fun d => d = set_volumes vols d1) (for_each ps body)
      (fun _ d' =>
         exists news, Forall2 R ps news /\ d' = set_volumes (vols ++ news) d1).
Proof.
  intros Hbody. induction ps as [|p ps IH]; intros vols; cbn [for_each].
  - apply hoareD_ret. intros d ->. split; [done|].
    exists []. split; [constructor|by rewrite app_nil_r].
  - eapply hoareD_bind; [apply Hbody|].
    intros u s (v & Hv & Hs).
    destruct (IH (vols ++ [v]) s Hs) as (HI & HE & Ho).
    repeat split; try done.
    destruct ((for_each ps body s).1.1) as [[]| |]; try done.
    destruct Ho as (news & Hnews & ->).
    exists (v :: news). split; [by constructor|]. by rewrite <- app_assoc.
Qed.

(** X18: [_mount_partitions] lists one volume for every entry of the
    partition table, in the order of the table and behind the volumes listed before:
    for a GPT entry the bytes from [first_lba] to [last_lba], the last
    sector included; for an MBR entry [sectors] sectors from [lba] on.  A
    GPT is preferred to an MBR; a disk without a partition table gets no
    volume. *)
Theorem _mount_partitions_volumes (s : State W) :
  (_mount_partitions host plugins s).1.1 = Returned tt ->
  exists news,
    disk (_mount_partitions host plugins s).1.2
    = set_volumes (volumes (disk s) ++ news) (disk s)
    /\ match gpt (disk_info (disk s)), mbr (disk_info (disk s)) with
       | Some g, _ =>
           Forall2 (gpt_volume (gpt_lba_size g)) (gpt_partitions g) news
       | None, Some m =>
           Forall2 (mbr_volume (mbr_lba_size m)) (mbr_partitions m) news
       | None, None => news = []
       end.
Proof.
  intros Hret.
  assert (H : hoareD T E (fun d => d = disk s) (_mount_partitions host plugins)
    (fun _ d' =>
       exists news,
         d' = set_volumes (volumes (disk s) ++ news) (disk s)
         /\ match gpt (disk_info (disk s)), mbr (disk_info (disk s)) with
            | Some g, _ =>
                Forall2 (gpt_volume (gpt_lba_size g)) (gpt_partitions g) news
            | None, Some m =>
                Forall2 (mbr_volume (mbr_lba_size m)) (mbr_partitions m) news
            | None, None => news = []
            end)).
  { unfold _mount_partitions. apply hoareD_bind_get_disk. intros d ->.
    assert (Hd : disk s = set_volumes (volumes (disk s)) (disk s))
      by (by destruct (disk s)).
    unfold partition_scheme, sector_size.
    destruct (gpt (disk_info (disk s))) as [g|] eqn:Hg;
      [|destruct (mbr (disk_info (disk s))) as [m|] eqn:Hm].
    - eapply hoareD_conseq.
      + apply (for_each_partition (gpt_volume (gpt_lba_size g)) (disk s)).
        intros p vols. apply hoareD_bind_get_disk. intros d ->.
        simpl. rewrite Hg.
        eapply hoareD_conseq;
          [apply (_add_partition_info_appends (set_volumes vols (disk s)))|done|].
        intros u' d' (v & Hv & ->). exists v. split; [done|].
        by destruct (disk s).
      + intros d ->. exact Hd.
      + intros u' d' (news & Hnews & ->). by exists news.
    - eapply hoareD_conseq.
      + apply (for_each_partition (mbr_volume (mbr_lba_size m)) (disk s)).
        intros p vols. apply hoareD_bind_get_disk. intros d ->.
        simpl. rewrite Hg, Hm.
        eapply hoareD_conseq;
          [apply (_add_partition_info_appends (set_volumes vols (disk s)))|done|].
        intros u' d' (v & Hv & ->). exists v. split; [done|].
        by destruct (disk s).
      + intros d ->. exact Hd.
      + intros u' d' (news & Hnews & ->). by exists news.
    - apply hoareD_ret. intros d ->. split; [done|].
      exists []. rewrite app_nil_r. by destruct (disk s). }
  destruct (H s eq_refl) as (_ & _ & Ho). rewrite Hret in Ho.
  destruct Ho as (news & Hd & Hnews). by exists news.
Qed.
End Partitions.

(** The same at a disk with one MBR partition. *)
Lemma _mount_partitions_volumes_witness :
  exists news,
    disk (_mount_partitions example_host (mkPluginManager [] [generic_plugin])
            mbr_state).1.2
    = set_volumes (volumes (disk mbr_state) ++ news) (disk mbr_state)
    /\ match gpt (disk_info (disk mbr_state)), mbr (disk_info (disk mbr_state)) with
       | Some g, _ =>
           Forall2 (gpt_volume (gpt_lba_size g)) (gpt_partitions g) news
       | None, Some m =>
           Forall2 (mbr_volume (mbr_lba_size m)) (mbr_partitions m) news
       | None, None => news = []
       end.
Proof.
  apply (_mount_partitions_volumes example_host
           (mkPluginManager [] [generic_plugin]) mbr_state).
  reflexivity.
Defined.

End PartitionsFacts.

(* ===================================================================== *)
(** * More about the header record, the shadow file and the master keys *)
(* ===================================================================== *)

Module HeaderFacts.
Import StructureHelper VeraCrypt VeraCryptChecksums StructureFacts.

Lemma Z_of_byte_of_Z z : 0 <= z < 256 -> Z_of_byte (byte_of_Z z) = z.
Proof.
  intros Hz. unfold Z_of_byte, byte_of_Z.
  destruct (Byte.of_N (Z.to_N z)) as [b|] eqn:Hb.
  - apply Byte.to_of_N in Hb. rewrite Hb. lia.
  - apply Byte.of_N_None_iff in Hb. lia.
Qed.

Lemma length_encode_le n : forall z, List.length (encode_le n z) = n.
Proof. induction n as [|n IH]; intros z; simpl; [done|]. by rewrite IH. Qed.

Lemma length_encode_int e n z : List.length (encode_int e n z) = n.
Proof. destruct e; simpl; rewrite ?length_rev; apply length_encode_le. Qed.

Lemma decode_encode_le n : forall z,
  0 <= z < 2 ^ (8 * Z.of_nat n) -> decode_le (encode_le n z) = z.
Proof.
  induction n as [|n IH]; intros z Hz.
  - simpl in *. lia.
  - rewrite pow2_bytes_succ in Hz. cbn [encode_le decode_le].
    rewrite Z_of_byte_of_Z by (apply Z.mod_pos_bound; lia).
    rewrite IH.
    + pose proof (Z.div_mod z 256). lia.
    + split; [apply Z.div_pos; lia|]. apply Z.div_lt_upper_bound; lia.
Qed.

Lemma decode_encode_int e n z :
  0 <= z < 2 ^ (8 * Z.of_nat n) -> decode_int e (encode_int e n z) = z.
Proof.
  intros Hz. destruct e; simpl; rewrite ?rev_involutive;
    by apply decode_encode_le.
Qed.

Ltac range_cases :=
  match goal with
  | |- context [(0 <=? ?z) && (?z <? ?b)] =>
      destruct (Z.leb_spec 0 z), (Z.ltb_spec z b)
  end.

Lemma pack_item_Ok e it v :
  (exists bs, pack_item e it v = Ok bs) <-> packable it v.
Proof.
  destruct it, v as [z|b]; simpl;
    try (split; [by intros [? ?]|done]);
    try (split; [done|by eexists]).
  all: range_cases; simpl;
    (split; [intros [? ?]; (done || lia)|intros ?; (by eexists) || lia]).
Qed.

Lemma pack_item_length e it v bs :
  pack_item e it v = Ok bs -> List.length bs = item_size it.
Proof.
  destruct it, v as [z|b]; simpl; try done.
  1-4: destruct ((0 <=? z) && _); [|done]; intros [= <-];
    apply length_encode_int.
  intros [= <-]. rewrite length_app, length_take, length_replicate. lia.
Qed.

Lemma unpack_pack_item e it v bs :
  fits it v -> pack_item e it v = Ok bs -> unpack_item e it bs = v.
Proof.
  destruct it, v as [z|b]; simpl; try done.
  1-4: intros _; range_cases;
    simpl; try done; intros [= <-]; f_equal;
    by apply decode_encode_int.
  intros Hlen [= <-]. rewrite <- Hlen, Nat.sub_diag, firstn_all. simpl.
  by rewrite app_nil_r.
Qed.

Lemma pack_items_Ok e items : forall values,
  (exists bs, pack_items e items values = Ok bs) <-> Forall2 packable items values.
Proof.
  induction items as [|it items IH]; intros [|v values]; simpl.
  - split; [constructor|by eexists].
  - split; [by intros [? ?]|inversion 1].
  - split; [by intros [? ?]|inversion 1].
  - rewrite Forall2_cons, <- IH, <- (pack_item_Ok e). split.
    + intros [bs H]. destruct (pack_item e it v) as [b|]; [|done].
      destruct (pack_items e items values) as [rest|]; [|done].
      split; by eexists.
    + intros [[b ->] [rest ->]]. by eexists.
Qed.

Lemma pack_items_length e items : forall values bs,
  pack_items e items values = Ok bs -> List.length bs = calcsize (e, items).
Proof.
  unfold calcsize. simpl.
  induction items as [|it items IH]; intros [|v values] bs; simpl; try done.
  - by intros [= <-].
  - destruct (pack_item e it v) as [b|] eqn:Hb; [|done].
    destruct (pack_items e items values) as [rest|] eqn:Hrest; [|done].
    intros [= <-]. rewrite length_app, (pack_item_length _ _ _ _ Hb).
    by rewrite (IH _ _ Hrest).
Qed.

Lemma unpack_pack_items e items : forall values bs,
  Forall2 fits items values ->
  pack_items e items values = Ok bs ->
  unpack_items e items bs = values.
Proof.
  induction items as [|it items IH]; intros values bs Hex; inversion Hex; subst;
    simpl; [done|].
  destruct (pack_item e it y) as [b|] eqn:Hb; [|done].
  destruct (pack_items e items l') as [rest|] eqn:Hrest; [|done].
  intros [= <-]. pose proof (pack_item_length _ _ _ _ Hb) as Hlen.
  rewrite take_app_length', drop_app_length' by done.
  f_equal; [by apply unpack_pack_item|by apply IH].
Qed.

Lemma pack_items_app e items1 items2 values1 values2 :
  List.length items1 = List.length values1 ->
  pack_items e (items1 ++ items2) (values1 ++ values2)
  = match pack_items e items1 values1 with
    | Ok b1 =>
        match pack_items e items2 values2 with
        | Ok b2 => Ok (b1 ++ b2)
        | Raise err => Raise err
        end
    | Raise err => Raise err
    end.
Proof.
  revert values1. induction items1 as [|it items1 IH]; intros [|v values1] Hlen;
    simpl in *; try done.
  - by destruct (pack_items e items2 values2).
  - destruct (pack_item e it v) as [b|]; [|done].
    rewrite IH by lia.
    destruct (pack_items e items1 values1) as [b1|]; [|done].
    destruct (pack_items e items2 values2) as [b2|]; [|done].
    by rewrite app_assoc.
Qed.

(** ** The VeraCrypt header, packed *)

Lemma pack_VeraCryptHeader h :
  pack h = pack_items BIG VeraCryptHeader_format.2 (astuple h).
Proof. reflexivity. Qed.

(** X19: packing a header and unpacking the bytes gives the header back,
    when its byte-string fields have the sizes of their fields; the packed
    header has 448 bytes. *)
Theorem VeraCryptHeader_pack_unpack h bs :
  exact_sizes h ->
  pack h = Ok bs ->
  List.length bs = 448%nat /\ unpack VeraCryptHeader bs = Ok h.
Proof.
  intros (H1 & H2 & H3 & H4) Hpack. rewrite pack_VeraCryptHeader in Hpack.
  pose proof (pack_items_length _ _ _ _ Hpack) as Hlen.
  split; [exact Hlen|].
  unfold unpack. rewrite VeraCryptHeader_struct_format.
  unfold struct_unpack. rewrite Hlen. simpl Nat.eqb. cbv iota.
  rewrite (unpack_pack_items _ _ (astuple h) bs); [by destruct h| |done].
  simpl. repeat constructor; done.
Qed.

(** The same at the example header. *)
Lemma VeraCryptHeader_pack_unpack_witness :
  List.length example_packed = 448%nat
  /\ unpack VeraCryptHeader example_packed = Ok example_header.
Proof.
  apply (VeraCryptHeader_pack_unpack example_header example_packed).
  - repeat split.
  - reflexivity.
Defined.

(** X20: [pack] returns exactly when every integer field lies in the range
    of its type; byte-string fields of any length are packed. *)
Theorem VeraCryptHeader_pack_in_range h :
  (exists bs, pack h = Ok bs) <-> in_range h.
Proof.
  rewrite pack_VeraCryptHeader, pack_items_Ok. simpl.
  rewrite !Forall2_cons. unfold in_range, packable. simpl.
  split.
  - intros H. repeat match goal with H : _ /\ _ |- _ => destruct H end.
    repeat split; lia.
  - intros H. repeat match goal with H : _ /\ _ |- _ => destruct H end.
    repeat split; try done; lia.
Qed.

(** ** The checksums of the header *)

Lemma pack_checked h bs :
  pack h = Ok bs ->
  exists b1 b2,
    pack_items BIG checked_items (checked_values h) = Ok b1
    /\ pack_item BIG FmtI (VInt (checksum_header_fields h)) = Ok b2
    /\ bs = b1 ++ b2
            ++ (take 256 (master_keys h)
                  ++ replicate (256 - List.length (master_keys h)) Byte.x00)
    /\ List.length b1 = 188%nat
    /\ List.length b2 = 4%nat.
Proof.
  rewrite pack_VeraCryptHeader.
  change (VeraCryptHeader_format.2) with (checked_items ++ [FmtI; FmtS 256%nat]).
  change (astuple h)
    with (checked_values h
            ++ [VInt (checksum_header_fields h); VBytes (master_keys h)]).
  rewrite pack_items_app by done.
  destruct (pack_items BIG checked_items (checked_values h)) as [b1|] eqn:H1;
    [|done].
  cbn [pack_items].
  destruct (pack_item BIG FmtI (VInt (checksum_header_fields h))) as [b2|] eqn:H2;
    [|done].
  cbn [pack_item]. intros [= <-]. exists b1, b2. repeat split.
  - by rewrite app_nil_r.
  - by apply pack_items_length in H1.
  - by apply pack_item_length in H2.
Qed.

Lemma pack_set_checksum_header_fields h bs c :
  0 <= c < 2 ^ 32 ->
  pack h = Ok bs ->
  exists bs',
    pack (set_checksum_header_fields c h) = Ok bs'
    /\ take 188 bs' = take 188 bs
    /\ drop 192 bs'
       = take 256 (master_keys h)
           ++ replicate (256 - List.length (master_keys h)) Byte.x00.
Proof.
  intros Hc Hpack.
  destruct (pack_checked h bs Hpack) as (b1 & b2 & H1 & H2 & -> & Hl1 & Hl2).
  eexists. split; [|split].
  - rewrite pack_VeraCryptHeader.
    change (VeraCryptHeader_format.2) with (checked_items ++ [FmtI; FmtS 256%nat]).
    change (astuple (set_checksum_header_fields c h))
      with (checked_values h ++ [VInt c; VBytes (master_keys h)]).
    rewrite pack_items_app by done. rewrite H1. cbn [pack_items pack_item].
    replace ((0 <=? c) && (c <? 2 ^ (8 * Z.of_nat (item_size FmtI))))
      with true.
    2:{ symmetry. apply andb_true_iff. split; [apply Z.leb_le|apply Z.ltb_lt];
        simpl; lia. }
    reflexivity.
  - by rewrite !take_app_length'.
  - rewrite app_nil_r, app_assoc, drop_app_length'; [done|].
    rewrite length_app, Hl1, length_encode_int. done.
Qed.

Section Checksums.
Variable crc32 : bytes -> Z.
Hypothesis crc32_range : forall b, 0 <= crc32 b < 2 ^ 32.

(** X21: after [update_checksums] the header packs, and the two checksums
    it holds are those of the packed bytes: the first 188 bytes, and the 256
    bytes of the master keys from byte 192 on (when the field has its full
    size). *)
Theorem update_checksums_verify h h' :
  update_checksums crc32 h = (Ok tt, h') ->
  exists bs,
    pack h' = Ok bs
    /\ checksum_header_fields h' = crc32 (take 188 bs)
    /\ (List.length (master_keys h) = 256%nat ->
        checksum_master_keys h' = crc32 (drop 192 bs)).
Proof using crc32_range.
  unfold update_checksums.
  destruct (pack (set_checksum_master_keys (crc32 (master_keys h)) h))
    as [data|] eqn:Hdata; [|done].
  intros [= <-].
  destruct (pack_set_checksum_header_fields _ _ (crc32 (take 188 data))
              (crc32_range _) Hdata) as (bs & Hbs & Htake & Hdrop).
  exists bs. split; [done|]. split; [by rewrite Htake|].
  intros Hlen. rewrite Hdrop. simpl. rewrite Hlen. simpl.
  rewrite <- Hlen, firstn_all. by rewrite app_nil_r.
Qed.

(** X22: updating the checksums a second time changes nothing: neither
    checksum lies in the bytes it covers. *)
Theorem update_checksums_idempotent h h' :
  update_checksums crc32 h = (Ok tt, h') ->
  update_checksums crc32 h' = (Ok tt, h').
Proof using crc32_range.
  unfold update_checksums.
  destruct (pack (set_checksum_master_keys (crc32 (master_keys h)) h))
    as [data|] eqn:Hdata; [|done].
  intros [= <-].
  destruct (pack_set_checksum_header_fields _ _ (crc32 (take 188 data))
              (crc32_range _) Hdata) as (bs & Hbs & Htake & _).
  change (set_checksum_master_keys _
            (set_checksum_header_fields (crc32 (take 188 data))
               (set_checksum_master_keys (crc32 (master_keys h)) h)))
    with (set_checksum_header_fields (crc32 (take 188 data))
            (set_checksum_master_keys (crc32 (master_keys h)) h)).
  rewrite Hbs, Htake. reflexivity.
Qed.
End Checksums.

Lemma example_crc32_range b : 0 <= example_crc32 b < 2 ^ 32.
Proof.
  destruct b as [|x b]; simpl; [lia|]. apply Z.mod_pos_bound. lia.
Qed.

(** The same at the example header. *)
Lemma update_checksums_verify_witness :
  exists bs,
    pack (update_checksums example_crc32 example_header).2 = Ok bs
    /\ checksum_header_fields (update_checksums example_crc32 example_header).2
       = example_crc32 (take 188 bs)
    /\ (List.length (master_keys example_header) = 256%nat ->
        checksum_master_keys (update_checksums example_crc32 example_header).2
        = example_crc32 (drop 192 bs)).
Proof.
  apply (update_checksums_verify example_crc32 example_crc32_range
           example_header).
  reflexivity.
Defined.

(** The same header: a second update leaves it as the first one did. *)
Lemma update_checksums_idempotent_witness :
  update_checksums example_crc32
    (update_checksums example_crc32 example_header).2
  = (Ok tt, (update_checksums example_crc32 example_header).2).
Proof.
  apply (update_checksums_idempotent example_crc32 example_crc32_range
           example_header).
  reflexivity.
Defined.

End HeaderFacts.

Module ShadowFileFacts.
Import PasswordBypass ShadowFile PasswordBypassFacts.

Lemma splitlines_acc_line l : forall line rest,
  one_line l = true ->
  splitlines_acc false line (l +:+ String "010" rest)
  = (line +:+ l) :: splitlines_acc false EmptyString rest.
Proof.
  induction l as [|c l IH]; intros line rest Hl.
  - change (EmptyString +:+ String "010" rest) with (String "010" rest).
    cbn [splitlines_acc]. simpl. by rewrite string_app_nil_r.
  - simpl in Hl. apply andb_true_iff in Hl as [Hc Hl].
    apply negb_true_iff in Hc.
    change (String c l +:+ String "010" rest)
      with (String c (l +:+ String "010" rest)).
    cbn [splitlines_acc]. rewrite Hc. simpl andb. cbv iota.
    rewrite IH by done. unfold snoc. by rewrite string_app_assoc.
Qed.

Lemma splitlines_unlines lines :
  Forall (fun l => one_line l = true) lines ->
  splitlines (unlines lines) = lines.
Proof.
  unfold splitlines. induction 1 as [|l lines Hl Hlines IH]; [done|].
  cbn [unlines]. by rewrite splitlines_acc_line, IH.
Qed.

Section Locked.
Context {Rng : Type}.
Variable crypt : string -> CryptMethod -> Rng -> string * Rng.
Variable hash_method : CryptMethod.

Lemma reset_entries_locked entries rng :
  Forall (fun e => is_reset e = false) entries ->
  reset_entries crypt hash_method entries rng = (entries, rng).
Proof.
  induction 1 as [|e entries He Hentries IH]; simpl; [done|].
  by rewrite He, IH.
Qed.

(** X23: a shadow file whose lines end with a line feed and hold no entry
    to reset is written back without its last line feed and is the same
    otherwise; the random source is not used. *)
Theorem modify_filesystem_locked_only filesystem_mount (files : Files) rng lines :
  Forall (fun l => one_line l = true) lines ->
  Forall (fun l => is_reset (split ":" l) = false) lines ->
  files !! shadow_path filesystem_mount = Some (unlines lines) ->
  modify_filesystem crypt hash_method filesystem_mount (files, rng)
  = (<[shadow_path filesystem_mount := join (String "010" EmptyString) lines]>
       files, rng).
Proof.
  intros Hlines Hlocked Hfile. unfold modify_filesystem.
  cbv beta iota zeta. rewrite Hfile, splitlines_unlines by done.
  rewrite reset_entries_locked by (by apply Forall_fmap).
  do 3 f_equal. rewrite <- list_fmap_compose.
  rewrite <- (list_fmap_id lines) at 2. apply list_fmap_ext.
  intros i l _. apply (join_split ":").
Qed.
End Locked.

(** The same at a file with two locked accounts. *)
Lemma modify_filesystem_locked_only_witness :
  modify_filesystem example_crypt METHOD_SHA256 "/mnt"
    ({[ "/mnt/etc/shadow" := unlines locked_lines ]}, 0%nat)
  = (<[shadow_path "/mnt" := join (String "010" EmptyString) locked_lines]>
       {[ "/mnt/etc/shadow" := unlines locked_lines ]}, 0%nat).
Proof.
  apply (modify_filesystem_locked_only example_crypt METHOD_SHA256 "/mnt"
           {[ "/mnt/etc/shadow" := unlines locked_lines ]} 0%nat locked_lines).
  - repeat constructor.
  - repeat constructor.
  - reflexivity.
Defined.

End ShadowFileFacts.

Module MasterKeysFacts.
Import Main MainFacts.

(** X24: the candidate keys hold nothing but the supplied keys and, with
    [--xts-combine-keys], the concatenations of two different supplied keys
    of equal length: a combined key is not combined again, and it is twice
    as long as the keys it is made of. *)
Theorem master_keys_nothing_else master_key master_keys_file xts k :
  k ∈ master_keys master_key master_keys_file xts ->
  k ∈ supplied_keys master_key master_keys_file
  \/ (xts = true
      /\ exists k1 k2,
           k1 ∈ supplied_keys master_key master_keys_file
           /\ k2 ∈ supplied_keys master_key master_keys_file
           /\ k1 <> k2
           /\ k = k1 ++ k2
           /\ List.length k = (2 * List.length k1)%nat).
Proof.
  destruct xts; [|by left].
  intros Hk. apply elem_of_master_keys_xts in Hk
    as [Hk|(k1 & k2 & H1 & H2 & Hne & Hlen & ->)]; [by left|].
  right. split; [done|]. exists k1, k2. repeat split; try done.
  rewrite length_app. lia.
Qed.
(** The same at the combination of two keys of one byte. *)
Lemma master_keys_nothing_else_witness :
  [Byte.x01; Byte.x02] ∈ supplied_keys [[Byte.x01]; [Byte.x02]] None
  \/ (true = true
      /\ exists k1 k2,
           k1 ∈ supplied_keys [[Byte.x01]; [Byte.x02]] None
           /\ k2 ∈ supplied_keys [[Byte.x01]; [Byte.x02]] None
           /\ k1 <> k2
           /\ [Byte.x01; Byte.x02] = k1 ++ k2
           /\ List.length [Byte.x01; Byte.x02] = (2 * List.length k1)%nat).
Proof.
  apply (master_keys_nothing_else [[Byte.x01]; [Byte.x02]] None true
           [Byte.x01; Byte.x02]).
  apply elem_of_master_keys_xts. right. exists [Byte.x01], [Byte.x02].
  repeat split; try done; apply elem_of_list_to_set; set_solver.
Defined.

End MasterKeysFacts.

(* ===================================================================== *)
(** * The teardown: descending depth, and no mounted volume left out *)
(* ===================================================================== *)

Module TeardownOrderFacts.
Import Data Exec PluginsBase Runner Completion TeardownOrder.
Import ExecFacts UtilsFacts RunnerFacts PluginsFacts TeardownFacts CompletionFacts.



Section Rules.
Context {S : Type}.




End Rules.

Section Attempts.
Context {W : Type}.
Variable host : Host W.
Variable plugins : PluginManager W.
Hypothesis Hplugins : all_plugins plugins <> [].
(** The volumes listed when the teardown starts. *)
Variable vols0 : list VolumeInfo.















End Attempts.





(** What that teardown leaves: the parent is released, the child still
    mounted. *)
Example teardown_e3_root_busy :
  (fun v => (flat_mount v, filesystem_mount v))
    <$> volumes (disk (unmount_partitions_and_filesystems example_host
                         (mkPluginManager [] [root_busy_plugin]) e3_state).1.2)
  = [(None, None); (None, None); (None, None); (None, None);
     (Some "/dev/vg/root", Some "/tmp/root")].
Proof. vm_compute. reflexivity. Qed.

End TeardownOrderFacts.
